(** * API gateway decision fabric: a shallow embedding and its properties

    The gateway's load balancers, rate limiters, circuit breaker, health
    checkers and router are embedded as Rocq functions over explicit state.
    Go's [int] / [int64] are integers of [Z] with the wrap-around written
    out, [float64] is IEEE binary64 ([spec_float] with precision 53 and
    maximal exponent 1024), [time.Time] is a count of nanoseconds and maps
    are [gmap]s. *)

From Stdlib Require Import ZArith List Bool Lia String Ascii Zpower.
From Stdlib Require Import Floats.SpecFloat.
From stdpp Require Import gmap strings list pretty sorting.

Local Open Scope Z_scope.

(** ** Go machine integers *)

Module GoInt.

Definition minInt64 : Z := - 2 ^ 63.
Definition maxInt64 : Z := 2 ^ 63 - 1.

(** Two's complement wrap-around of a 64-bit signed integer. *)
Definition wrap64 (z : Z) : Z := (z + 2 ^ 63) mod 2 ^ 64 - 2 ^ 63.

(** Wrap-around of a 64-bit unsigned integer. *)
Definition wrapU64 (z : Z) : Z := z mod 2 ^ 64.

Definition inInt64 (z : Z) : Prop := minInt64 <= z <= maxInt64.

Lemma wrap64_id z : inInt64 z -> wrap64 z = z.
Proof.
  unfold inInt64, wrap64, minInt64, maxInt64. intros H.
  rewrite Z.mod_small by lia. lia.
Qed.

Lemma wrap64_range z : inInt64 (wrap64 z).
Proof.
  unfold inInt64, wrap64, minInt64, maxInt64.
  pose proof (Z.mod_pos_bound (z + 2 ^ 63) (2 ^ 64) ltac:(lia)). lia.
Qed.

End GoInt.

(** ** Go's [float64]: IEEE 754 binary64 *)

Module Float64.

Definition prec : Z := 53.
Definition emax : Z := 1024.

Definition float64 := spec_float.

Definition add : float64 -> float64 -> float64 := SFadd prec emax.
Definition sub : float64 -> float64 -> float64 := SFsub prec emax.
Definition mul : float64 -> float64 -> float64 := SFmul prec emax.
Definition div : float64 -> float64 -> float64 := SFdiv prec emax.
Definition ltb : float64 -> float64 -> bool := SFltb.
Definition leb : float64 -> float64 -> bool := SFleb.

(** The conversion [float64(n)] of an integer, rounded to nearest even. *)
Definition ofInt (n : Z) : float64 := binary_normalize prec emax n 0 false.

Definition zero : float64 := S754_zero false.
Definition one : float64 := ofInt 1.


(** *** The number of binary digits of a mantissa *)
Lemma digits2_size p : digits2_pos p = Pos.size p.
Proof. induction p; simpl; congruence. Qed.

Lemma digits_log2 p : Zpos (digits2_pos p) = Z.log2 (Zpos p) + 1.
Proof.
  rewrite digits2_size. destruct p; simpl; lia.
Qed.

Lemma Zdigits2_log2 m : 0 < m -> Zdigits2 m = Z.log2 m + 1.
Proof. destruct m; try lia. intros _. apply digits_log2. Qed.

Lemma Zdigits2_nonneg m : 0 <= Zdigits2 m.
Proof. destruct m; simpl; lia. Qed.

Lemma Zdigits2_mono a b : 0 <= a <= b -> Zdigits2 a <= Zdigits2 b.
Proof.
  intros [Ha Hab]. destruct (Z.eq_dec a 0) as [->|Hne].
  - apply Zdigits2_nonneg.
  - rewrite !Zdigits2_log2 by lia. pose proof (Z.log2_le_mono a b Hab). lia.
Qed.

Lemma Zdigits2_succ m : 0 <= m -> Zdigits2 (m + 1) <= Zdigits2 m + 1.
Proof.
  intros Hm. destruct (Z.eq_dec m 0) as [->|Hne]; [simpl; lia|].
  rewrite !Zdigits2_log2 by lia.
  pose proof (Z.log2_succ_le m). unfold Z.succ in *. lia.
Qed.

Lemma Zdigits2_div m n :
  0 < m -> 0 <= n -> Zdigits2 (m / 2 ^ n) = Z.max 0 (Zdigits2 m - n).
Proof.
  intros Hm Hn. rewrite <- Z.shiftr_div_pow2 by lia.
  rewrite (Zdigits2_log2 m) by lia.
  destruct (Z.le_gt_cases (Z.log2 m + 1) n) as [Hle|Hgt].
  - assert (Z.shiftr m n = 0) as ->.
    { apply Z.shiftr_eq_0; lia. }
    simpl. lia.
  - assert (0 < Z.shiftr m n).
    { rewrite Z.shiftr_div_pow2 by lia.
      apply Z.div_str_pos. split; [apply Z.pow_pos_nonneg; lia|].
      pose proof (Z.log2_spec m Hm) as [H1 _].
      eapply Z.le_trans; [|exact H1]. apply Z.pow_le_mono_r; lia. }
    rewrite Zdigits2_log2 by lia. rewrite Z.log2_shiftr by lia. lia.
Qed.

Lemma Zdigits2_bounds m : 0 < m -> 2 ^ (Zdigits2 m - 1) <= m < 2 ^ Zdigits2 m.
Proof.
  intros Hm. rewrite Zdigits2_log2 by lia.
  replace (Z.log2 m + 1 - 1) with (Z.log2 m) by lia.
  pose proof (Z.log2_spec m Hm). unfold Z.succ in *. lia.
Qed.

Lemma Zdigits2_unique m d : 2 ^ (d - 1) <= m < 2 ^ d -> 0 < m -> Zdigits2 m = d.
Proof.
  intros H Hm. rewrite Zdigits2_log2 by lia.
  assert (0 < d). { destruct (Z.le_gt_cases d 0); [|lia]. 
    assert (2 ^ d <= 2 ^ 0) by (apply Z.pow_le_mono_r; lia). simpl in *. lia. }
  rewrite (Z.log2_unique m (d - 1)); [lia|lia|]. unfold Z.succ.
  replace (d - 1 + 1) with d by lia. lia.
Qed.

Lemma Zdigits2_mul_pow2 m n : 0 < m -> 0 <= n -> Zdigits2 (m * 2 ^ n) = Zdigits2 m + n.
Proof.
  intros Hm Hn. 
  assert (0 < 2 ^ n) by (apply Z.pow_pos_nonneg; lia).
  rewrite !Zdigits2_log2 by nia.
  rewrite Z.log2_mul_pow2 by lia. lia.
Qed.

(** *** Right shifts of the rounding record *)
Lemma nat_iter_comm {A} (f : A -> A) n x : @Nat.iter n A f (f x) = f (@Nat.iter n A f x).
Proof. induction n; simpl; congruence. Qed.

Lemma nat_iter_plus {A} (f : A -> A) a b x :
  @Nat.iter (a + b) A f x = @Nat.iter a A f (@Nat.iter b A f x).
Proof. induction a; simpl; congruence. Qed.

Lemma iter_pos_nat {A} (f : A -> A) n : forall x, SpecFloat.iter_pos f n x = @Nat.iter (Pos.to_nat n) A f x.
Proof.
  induction n as [n IH|n IH|]; intros x; cbn [SpecFloat.iter_pos].
  - rewrite !IH, Pos2Nat.inj_xI.
    replace (S (2 * Pos.to_nat n)) with (Pos.to_nat n + S (Pos.to_nat n))%nat by lia.
    rewrite nat_iter_plus, Nat.iter_succ. now rewrite nat_iter_comm.
  - rewrite !IH, Pos2Nat.inj_xO.
    replace (2 * Pos.to_nat n)%nat with (Pos.to_nat n + Pos.to_nat n)%nat by lia.
    now rewrite nat_iter_plus.
  - reflexivity.
Qed.

Lemma shr_1_m mrs : 0 <= shr_m mrs -> shr_m (shr_1 mrs) = shr_m mrs / 2.
Proof.
  destruct mrs as [m r s]. cbn [shr_m]. intros Hm.
  destruct m as [|p|p]; [reflexivity| |lia].
  destruct p as [p|p|]; cbn [shr_1 shr_m].
  - rewrite Pos2Z.inj_xI. apply Z.div_unique with 1; lia.
  - rewrite Pos2Z.inj_xO. apply Z.div_unique with 0; lia.
  - reflexivity.
Qed.

Lemma shr_iter_m n mrs :
  0 <= shr_m mrs ->
  shr_m (@Nat.iter n shr_record shr_1 mrs) = shr_m mrs / 2 ^ Z.of_nat n.
Proof.
  intros Hm. induction n as [|n IH].
  - simpl. now rewrite Z.div_1_r.
  - rewrite Nat.iter_succ. rewrite shr_1_m.
    + rewrite IH, Nat2Z.inj_succ, Z.pow_succ_r by lia.
      rewrite Z.div_div by (try apply Z.pow_pos_nonneg; lia).
      f_equal. lia.
    + rewrite IH. apply Z.div_pos; [lia|apply Z.pow_pos_nonneg; lia].
Qed.

Lemma shr_iter_exact n : forall m,
  0 <= m ->
  @Nat.iter n shr_record shr_1 (Build_shr_record (m * 2 ^ Z.of_nat n) false false)
  = Build_shr_record m false false.
Proof.
  induction n as [|n IH]; intros m Hm.
  - simpl. now rewrite Z.mul_1_r.
  - rewrite Nat.iter_succ. rewrite Nat2Z.inj_succ, Z.pow_succ_r by lia.
    replace (m * (2 * 2 ^ Z.of_nat n)) with ((2 * m) * 2 ^ Z.of_nat n) by lia.
    rewrite IH by lia. destruct m as [|p|p]; [reflexivity|reflexivity|lia].
Qed.

Lemma shr_m_spec mrs e n :
  0 <= shr_m mrs ->
  shr_m (fst (shr mrs e n)) = shr_m mrs / 2 ^ (Z.max 0 n) /\
  snd (shr mrs e n) = e + Z.max 0 n.
Proof.
  intros Hm. destruct n as [|p|p]; cbn [shr fst snd].
  - simpl. rewrite Z.div_1_r. lia.
  - rewrite iter_pos_nat, shr_iter_m by assumption.
    rewrite positive_nat_Z. rewrite Z.max_r by lia. lia.
  - simpl. rewrite Z.div_1_r. lia.
Qed.

Lemma shr_exact m e n :
  0 <= m -> 0 <= n ->
  shr (Build_shr_record (m * 2 ^ n) false false) e n
  = (Build_shr_record m false false, e + n).
Proof.
  intros Hm Hn. destruct n as [|p|p]; cbn [shr]; [|  |lia].
  - simpl. now rewrite Z.mul_1_r, Z.add_0_r.
  - rewrite iter_pos_nat. rewrite <- (positive_nat_Z p) at 1.
    now rewrite shr_iter_exact.
Qed.

Abbreviation fexp := (SpecFloat.fexp prec emax).

Lemma fexp_eq x : fexp x = Z.max (x - 53) (-1074).
Proof. reflexivity. Qed.

Lemma shr_record_of_loc_m m l : shr_m (shr_record_of_loc m l) = m.
Proof. destruct l as [|[| |]]; reflexivity. Qed.

Lemma shr_fexp_spec m e l :
  0 <= m ->
  shr_m (fst (shr_fexp prec emax m e l))
    = m / 2 ^ Z.max 0 (fexp (Zdigits2 m + e) - e) /\
  snd (shr_fexp prec emax m e l) = e + Z.max 0 (fexp (Zdigits2 m + e) - e).
Proof.
  intros Hm. unfold shr_fexp.
  pose proof (shr_m_spec (shr_record_of_loc m l) e (fexp (Zdigits2 m + e) - e)) as H.
  rewrite shr_record_of_loc_m in H. now apply H.
Qed.

Lemma round_nearest_even_bounds mx lx :
  mx <= round_nearest_even mx lx <= mx + 1.
Proof.
  destruct lx as [|[| |]]; simpl; try lia. destruct (Z.even mx); lia.
Qed.

(** The shape of a rounded result. *)
Definition pack (sx : bool) (m e : Z) : spec_float :=
  match m with
  | Z0 => S754_zero sx
  | Zpos p => if e <=? emax - prec then S754_finite sx p e else S754_infinity sx
  | Zneg _ => S754_nan
  end.

Lemma binary_round_aux_spec sx m e l :
  0 <= m ->
  exists m2,
    let n1 := Z.max 0 (fexp (Zdigits2 m + e) - e) in
    let m1 := m / 2 ^ n1 in
    let e1 := e + n1 in
    let n2 := Z.max 0 (fexp (Zdigits2 m2 + e1) - e1) in
    m1 <= m2 <= m1 + 1 /\
    binary_round_aux prec emax sx m e l = pack sx (m2 / 2 ^ n2) (e1 + n2).
Proof.
  intros Hm. unfold binary_round_aux.
  pose proof (shr_fexp_spec m e l Hm) as [H1 H1e].
  destruct (shr_fexp prec emax m e l) as [mrs' e'] eqn:E1. cbn [fst snd] in *.
  set (m2 := round_nearest_even (shr_m mrs') (loc_of_shr_record mrs')).
  pose proof (round_nearest_even_bounds (shr_m mrs') (loc_of_shr_record mrs')) as Hr.
  fold m2 in Hr.
  assert (H0 : 0 <= shr_m mrs').
  { rewrite H1. apply Z.div_pos; [lia|]. apply Z.pow_pos_nonneg; lia. }
  pose proof (shr_fexp_spec m2 e' loc_Exact ltac:(lia)) as [H2 H2e].
  destruct (shr_fexp prec emax m2 e' loc_Exact) as [mrs'' e''] eqn:E2. cbn [fst snd] in *.
  exists m2. cbv zeta. rewrite <- H1, <- H1e. split; [exact Hr|].
  rewrite H2, H2e. reflexivity.
Qed.

Lemma Zdigits2_pos_iff m : 0 <= m -> (0 < Zdigits2 m <-> 0 < m).
Proof. destruct m; simpl; lia. Qed.

(** A float that is zero or finite, of magnitude at most [2 ^ B]. *)
Definition finiteB (B : Z) (x : spec_float) : Prop :=
  match x with
  | S754_zero _ => True
  | S754_finite _ m e => Zpos (digits2_pos m) + e <= B /\ -1074 <= e <= 971
  | _ => False
  end.

(** The sign of a float that is not a NaN. *)
Definition signOf (x : spec_float) : option bool :=
  match x with
  | S754_zero s | S754_infinity s | S754_finite s _ _ => Some s
  | S754_nan => None
  end.

Lemma finiteB_mono B B' x : B <= B' -> finiteB B x -> finiteB B' x.
Proof. destruct x; simpl; auto. lia. Qed.

Lemma pack_sign sx m e : 0 <= m -> signOf (pack sx m e) = Some sx.
Proof.
  destruct m; simpl; try lia; intros _; [reflexivity|]. now destruct (_ <=? _).
Qed.

Lemma binary_round_aux_sign sx m e l :
  0 <= m -> signOf (binary_round_aux prec emax sx m e l) = Some sx.
Proof.
  intros Hm. destruct (binary_round_aux_spec sx m e l Hm) as (m2 & H).
  cbv zeta in H. destruct H as (Hm2 & ->). apply pack_sign.
  apply Z.div_pos; [|apply Z.pow_pos_nonneg; lia].
  assert (0 <= m / 2 ^ Z.max 0 (fexp (Zdigits2 m + e) - e)); [|lia].
  apply Z.div_pos; [lia|apply Z.pow_pos_nonneg; lia].
Qed.

Lemma binary_round_aux_finiteB sx m e l B :
  0 <= m -> Zdigits2 m + e <= B -> -1074 <= B -> B + 1 <= 1024 -> e <= 971 ->
  finiteB (B + 1) (binary_round_aux prec emax sx m e l).
Proof.
  intros Hm HB HBl HBu He.
  destruct (binary_round_aux_spec sx m e l Hm) as (m2 & H).
  cbv zeta in H. destruct H as (Hm2 & ->).
  set (n1 := Z.max 0 (fexp (Zdigits2 m + e) - e)) in *.
  set (m1 := m / 2 ^ n1) in *.
  set (e1 := e + n1) in *.
  set (n2 := Z.max 0 (fexp (Zdigits2 m2 + e1) - e1)) in *.
  assert (Hm1 : 0 <= m1) by (apply Z.div_pos; [lia|apply Z.pow_pos_nonneg; lia]).
  assert (Hd1 : Zdigits2 m1 + e1 <= B).
  { destruct (Z.eq_dec m 0) as [->|Hne].
    - subst m1. rewrite Z.div_0_l by (apply Z.pow_nonzero; lia).
      subst e1 n1. simpl Zdigits2 in *. rewrite fexp_eq. lia.
    - subst m1. rewrite Zdigits2_div by lia. subst e1 n1. rewrite fexp_eq.
      pose proof (Zdigits2_nonneg m). lia. }
  assert (Hd2 : Zdigits2 m2 <= Zdigits2 m1 + 1).
  { pose proof (Zdigits2_mono m2 (m1 + 1) ltac:(lia)).
    pose proof (Zdigits2_succ m1 Hm1). lia. }
  assert (Hm3 : 0 <= m2 / 2 ^ n2) by (apply Z.div_pos; [lia|apply Z.pow_pos_nonneg; lia]).
  unfold pack. destruct (m2 / 2 ^ n2) as [|p|p] eqn:E3; [exact I| |lia].
  assert (Hd3 : Z.pos (digits2_pos p) = Z.max 0 (Zdigits2 m2 - n2)).
  { change (Z.pos (digits2_pos p)) with (Zdigits2 (Z.pos p)). rewrite <- E3.
    apply Zdigits2_div; [|lia]. destruct (Z.eq_dec m2 0) as [H0|H0]; [|lia].
    rewrite H0, Z.div_0_l in E3 by (apply Z.pow_nonzero; lia). discriminate. }
  assert (He3 : -1074 <= e1 + n2 <= 971).
  { subst n2 e1 n1. rewrite !fexp_eq in *. lia. }
  destruct (Z.leb_spec (e1 + n2) (emax - prec)) as [Hle|Hgt]; [|unfold emax, prec in *; lia].
  cbn [finiteB]. split; [|lia]. rewrite Hd3. subst n2. rewrite fexp_eq in *. lia.
Qed.

(** Rounding a positive mantissa with an exponent in range does not
    underflow to zero. *)
Lemma binary_round_aux_pos sx m e l B :
  0 < m -> Zdigits2 m + e <= B -> B + 1 <= 1024 -> -1074 <= e <= 971 ->
  exists p e', binary_round_aux prec emax sx m e l = S754_finite sx p e' /\
               Zdigits2 m + e <= Zpos (digits2_pos p) + e' <= B + 1 /\
               -1074 <= e' <= 971.
Proof.
  intros Hm HB HBu He.
  destruct (binary_round_aux_spec sx m e l ltac:(lia)) as (m2 & H).
  cbv zeta in H. destruct H as (Hm2 & ->).
  set (n1 := Z.max 0 (fexp (Zdigits2 m + e) - e)) in *.
  set (m1 := m / 2 ^ n1) in *.
  set (e1 := e + n1) in *.
  set (n2 := Z.max 0 (fexp (Zdigits2 m2 + e1) - e1)) in *.
  pose proof (proj2 (Zdigits2_pos_iff m ltac:(lia)) Hm) as Hdm.
  assert (Hn1 : 0 <= n1 < Zdigits2 m) by (subst n1; rewrite fexp_eq; lia).
  assert (Hd1 : Zdigits2 m1 = Zdigits2 m - n1).
  { subst m1. rewrite Zdigits2_div by lia. lia. }
  assert (Hm1 : 0 < m1).
  { apply Zdigits2_pos_iff; [|lia].
    apply Z.div_pos; [lia|apply Z.pow_pos_nonneg; lia]. }
  assert (Hd2 : Zdigits2 m1 <= Zdigits2 m2 <= Zdigits2 m1 + 1).
  { pose proof (Zdigits2_mono m1 m2 ltac:(lia)).
    pose proof (Zdigits2_mono m2 (m1 + 1) ltac:(lia)).
    pose proof (Zdigits2_succ m1 ltac:(lia)). lia. }
  assert (Hn2 : 0 <= n2 < Zdigits2 m2) by (subst n2 e1; rewrite fexp_eq; lia).
  assert (Hd3 : Zdigits2 (m2 / 2 ^ n2) = Zdigits2 m2 - n2).
  { rewrite Zdigits2_div by lia. lia. }
  assert (Hm3 : 0 < m2 / 2 ^ n2).
  { apply Zdigits2_pos_iff; [|lia].
    apply Z.div_pos; [lia|apply Z.pow_pos_nonneg; lia]. }
  unfold pack. destruct (m2 / 2 ^ n2) as [|p|p] eqn:E3; [lia| |lia].
  change (Zdigits2 (Z.pos p)) with (Z.pos (digits2_pos p)) in Hd3.
  assert (He3 : -1074 <= e1 + n2 <= 971).
  { subst n2 e1 n1. rewrite !fexp_eq in *. lia. }
  destruct (Z.leb_spec (e1 + n2) (emax - prec)) as [Hle|Hgt]; [|unfold emax, prec in *; lia].
  exists p, (e1 + n2). split; [reflexivity|]. split; [|lia].
  rewrite Hd3. subst e1. lia.
Qed.

(** A canonical mantissa, scaled by a power of two, rounds to itself. *)
Lemma binary_round_aux_exact sx p e n :
  fexp (Zpos (digits2_pos p) + e) = e -> e <= 971 -> 0 <= n ->
  binary_round_aux prec emax sx (Zpos p * 2 ^ n) (e - n) loc_Exact
  = S754_finite sx p e.
Proof.
  intros Hcan He Hn. unfold binary_round_aux, shr_fexp.
  assert (0 < 2 ^ n) by (apply Z.pow_pos_nonneg; lia).
  rewrite Zdigits2_mul_pow2 by lia.
  replace (fexp (Zdigits2 (Z.pos p) + n + (e - n)) - (e - n)) with n
    by (change (Zdigits2 (Z.pos p)) with (Z.pos (digits2_pos p));
        replace (Z.pos (digits2_pos p) + n + (e - n)) with (Z.pos (digits2_pos p) + e) by lia;
        rewrite Hcan; lia).
  cbn [shr_record_of_loc]. rewrite shr_exact by lia.
  cbn [shr_m loc_of_shr_record round_nearest_even].
  replace (e - n + n) with e by lia.
  change (Zdigits2 (Z.pos p)) with (Z.pos (digits2_pos p)). rewrite Hcan, Z.sub_diag.
  cbn [shr_record_of_loc shr shr_m].
  destruct (Z.leb_spec e (emax - prec)); [reflexivity|unfold emax, prec in *; lia].
Qed.

Lemma iter_xO p d : Zpos (Pos.iter xO p d) = Zpos p * 2 ^ Zpos d.
Proof.
  change (Pos.iter xO p d) with (shift_pos d p).
  rewrite shift_pos_correct, Z.pow_pos_fold. lia.
Qed.

Lemma shl_align_spec mx ex ex' :
  snd (shl_align mx ex ex') = Z.min ex ex' /\
  Zpos (fst (shl_align mx ex ex')) = Zpos mx * 2 ^ (ex - Z.min ex ex').
Proof.
  unfold shl_align. destruct (ex' - ex) as [|d|d] eqn:E; cbn [fst snd].
  - rewrite Z.min_l by lia. rewrite Z.sub_diag. simpl. lia.
  - rewrite Z.min_l by lia. rewrite Z.sub_diag. simpl. lia.
  - rewrite Z.min_r by lia. rewrite iter_xO.
    replace (ex - ex') with (Z.pos d) by lia. lia.
Qed.

Lemma Zdigits2_abs z : Zdigits2 z = Zdigits2 (Z.abs z).
Proof. destruct z; reflexivity. Qed.

Lemma Zdigits2_lt_pow a k : 0 <= k -> 0 <= a < 2 ^ k -> Zdigits2 a <= k.
Proof.
  intros Hk [Ha Hlt]. destruct (Z.eq_dec a 0) as [->|Hne]; [simpl; lia|].
  pose proof (Zdigits2_bounds a ltac:(lia)) as [Hlo _].
  destruct (Z.le_gt_cases (Zdigits2 a) k) as [|Hgt]; [assumption|].
  assert (2 ^ k <= 2 ^ (Zdigits2 a - 1)) by (apply Z.pow_le_mono_r; lia). lia.
Qed.

Lemma binary_round_unfold sx p e :
  binary_round prec emax sx p e =
  binary_round_aux prec emax sx
    (Zpos (fst (shl_align p e (fexp (Zpos (digits2_pos p) + e)))))
    (snd (shl_align p e (fexp (Zpos (digits2_pos p) + e)))) loc_Exact.
Proof. unfold binary_round. now destruct (shl_align _ _ _). Qed.

Lemma shl_align_digits p e e' :
  Zdigits2 (Zpos (fst (shl_align p e e'))) + snd (shl_align p e e')
  = Zpos (digits2_pos p) + e.
Proof.
  destruct (shl_align_spec p e e') as [-> ->].
  rewrite Zdigits2_mul_pow2 by lia. simpl Zdigits2. lia.
Qed.

Lemma binary_round_sign sx p e : signOf (binary_round prec emax sx p e) = Some sx.
Proof. rewrite binary_round_unfold. now apply binary_round_aux_sign. Qed.

Lemma binary_round_finiteB sx p e B :
  Zpos (digits2_pos p) + e <= B -> -1074 <= B -> B + 1 <= 1024 ->
  finiteB (B + 1) (binary_round prec emax sx p e).
Proof.
  intros HB HBl HBu. rewrite binary_round_unfold.
  apply binary_round_aux_finiteB; try lia.
  - now rewrite shl_align_digits.
  - destruct (shl_align_spec p e (fexp (Zpos (digits2_pos p) + e))) as [-> _].
    rewrite fexp_eq. lia.
Qed.

Lemma binary_round_pos sx p e B :
  Zpos (digits2_pos p) + e <= B -> B + 1 <= 1024 -> -1074 <= e ->
  exists q e', binary_round prec emax sx p e = S754_finite sx q e' /\
               Zpos (digits2_pos p) + e <= Zpos (digits2_pos q) + e' <= B + 1 /\
               -1074 <= e' <= 971.
Proof.
  intros HB HBu He. rewrite binary_round_unfold.
  pose proof (shl_align_digits p e (fexp (Zpos (digits2_pos p) + e))) as Hd.
  destruct (binary_round_aux_pos sx
              (Zpos (fst (shl_align p e (fexp (Zpos (digits2_pos p) + e)))))
              (snd (shl_align p e (fexp (Zpos (digits2_pos p) + e))))
              loc_Exact B) as (q & e' & Hq & Hb & He'); try lia.
  - destruct (shl_align_spec p e (fexp (Zpos (digits2_pos p) + e))) as [-> _].
    rewrite fexp_eq. lia.
  - exists q, e'. rewrite Hd in Hb. auto.
Qed.

(** A value that has a canonical representation rounds to it. *)
Lemma binary_round_exact sx q e' p e :
  fexp (Zpos (digits2_pos p) + e) = e -> e <= 971 ->
  (e <= e' /\ Zpos q * 2 ^ (e' - e) = Zpos p) \/
  (e' <= e /\ Zpos q = Zpos p * 2 ^ (e - e')) ->
  binary_round prec emax sx q e' = S754_finite sx p e.
Proof.
  intros Hcan He Hval. rewrite binary_round_unfold.
  assert (Hmag : Zpos (digits2_pos q) + e' = Zpos (digits2_pos p) + e).
  { destruct Hval as [[Hle Hv]|[Hle Hv]].
    - change (Z.pos (digits2_pos p)) with (Zdigits2 (Z.pos p)).
      rewrite <- Hv, Zdigits2_mul_pow2 by lia. simpl Zdigits2. lia.
    - change (Z.pos (digits2_pos q)) with (Zdigits2 (Z.pos q)).
      rewrite Hv, Zdigits2_mul_pow2 by lia. simpl Zdigits2. lia. }
  rewrite Hmag, Hcan.
  destruct (shl_align_spec q e' e) as [Hs Hf]. rewrite Hs, Hf.
  destruct Hval as [[Hle Hv]|[Hle Hv]].
  - rewrite Z.min_r by lia. rewrite Hv.
    replace (Z.pos p) with (Z.pos p * 2 ^ 0) by (simpl; lia).
    replace e with (e - 0) at 1 by lia.
    apply binary_round_aux_exact; auto; lia.
  - rewrite Z.min_l by lia. rewrite Z.sub_diag, Z.pow_0_r, Z.mul_1_r, Hv.
    replace e' with (e - (e - e')) at 2 by lia.
    apply binary_round_aux_exact; auto; lia.
Qed.

Lemma binary_normalize_finiteB z e s B :
  Zdigits2 z + e <= B -> -1074 <= B -> B + 1 <= 1024 ->
  finiteB (B + 1) (binary_normalize prec emax z e s).
Proof.
  intros HB HBl HBu. destruct z as [|p|p]; cbn [binary_normalize].
  - exact I.
  - now apply binary_round_finiteB.
  - now apply binary_round_finiteB.
Qed.

Lemma binary_normalize_sign z e :
  0 <= z -> signOf (binary_normalize prec emax z e false) = Some false.
Proof.
  destruct z as [|p|p]; cbn [binary_normalize]; intros Hz; try lia.
  - reflexivity.
  - apply binary_round_sign.
Qed.


Lemma ofInt_finiteB n : - 2 ^ 64 < n < 2 ^ 64 -> finiteB 65 (ofInt n).
Proof.
  intros Hn. unfold ofInt. apply (binary_normalize_finiteB n 0 false 64); try lia.
  rewrite Zdigits2_abs.
  pose proof (Zdigits2_lt_pow (Z.abs n) 64 ltac:(lia) ltac:(lia)). lia.
Qed.

Lemma ofInt_sign n : 0 <= n -> signOf (ofInt n) = Some false.
Proof. apply binary_normalize_sign. Qed.

(** The aligned mantissas of an addition. *)
Lemma aligned_lt mx ex ez :
  ez <= ex ->
  Zpos mx * 2 ^ (ex - ez) < 2 ^ (Zpos (digits2_pos mx) + ex - ez).
Proof.
  intros Hle.
  pose proof (Zdigits2_bounds (Zpos mx) ltac:(lia)) as [_ Hhi].
  simpl Zdigits2 in Hhi.
  replace (Z.pos (digits2_pos mx) + ex - ez) with (Z.pos (digits2_pos mx) + (ex - ez)) by lia.
  rewrite Z.pow_add_r by lia.
  assert (0 < 2 ^ (ex - ez)) by (apply Z.pow_pos_nonneg; lia). nia.
Qed.

Lemma sum_digits sx sy mx my ex ey B1 B2 (op : Z -> Z -> Z) :
  (forall a b, Z.abs (op a b) <= Z.abs a + Z.abs b) ->
  Zpos (digits2_pos mx) + ex <= B1 ->
  Zpos (digits2_pos my) + ey <= B2 ->
  Zdigits2 (op (cond_Zopp sx (Zpos (fst (shl_align mx ex (Z.min ex ey)))))
               (cond_Zopp sy (Zpos (fst (shl_align my ey (Z.min ex ey))))))
  + Z.min ex ey <= Z.max B1 B2 + 1.
Proof.
  intros Hop H1 H2.
  destruct (shl_align_spec mx ex (Z.min ex ey)) as [_ ->].
  destruct (shl_align_spec my ey (Z.min ex ey)) as [_ ->].
  set (ez := Z.min ex ey).
  replace (Z.min ex ez) with ez by (subst ez; lia).
  replace (Z.min ey ez) with ez by (subst ez; lia).
  pose proof (aligned_lt mx ex ez ltac:(subst ez; lia)) as Hx.
  pose proof (aligned_lt my ey ez ltac:(subst ez; lia)) as Hy.
  set (a := Z.pos mx * 2 ^ (ex - ez)) in *.
  set (b := Z.pos my * 2 ^ (ey - ez)) in *.
  assert (Ha : 0 < a) by (subst a; assert (0 < 2 ^ (ex - ez)) by (apply Z.pow_pos_nonneg; subst ez; lia); nia).
  assert (Hb : 0 < b) by (subst b; assert (0 < 2 ^ (ey - ez)) by (apply Z.pow_pos_nonneg; subst ez; lia); nia).
  rewrite Zdigits2_abs.
  set (k := Z.max (Z.pos (digits2_pos mx) + ex - ez) (Z.pos (digits2_pos my) + ey - ez) + 1).
  assert (Hk : 0 <= k) by (subst k ez; lia).
  assert (Hlt : Z.abs (op (cond_Zopp sx a) (cond_Zopp sy b)) < 2 ^ k).
  { pose proof (Hop (cond_Zopp sx a) (cond_Zopp sy b)) as Hab.
    assert (Z.abs (cond_Zopp sx a) = a) by (destruct sx; simpl; lia).
    assert (Z.abs (cond_Zopp sy b) = b) by (destruct sy; simpl; lia).
    assert (2 ^ (Z.pos (digits2_pos mx) + ex - ez) <= 2 ^ (k - 1))
      by (apply Z.pow_le_mono_r; subst k; lia).
    assert (2 ^ (Z.pos (digits2_pos my) + ey - ez) <= 2 ^ (k - 1))
      by (apply Z.pow_le_mono_r; subst k; lia).
    replace k with (Z.succ (k - 1)) by lia. rewrite Z.pow_succ_r by (subst k ez; lia).
    lia. }
  pose proof (Zdigits2_lt_pow _ k Hk (conj (Z.abs_nonneg _) Hlt)).
  subst k. lia.
Qed.

Lemma add_finiteB B1 B2 x y :
  finiteB B1 x -> finiteB B2 y -> -1074 <= Z.max B1 B2 + 1 -> Z.max B1 B2 + 2 <= 1024 ->
  finiteB (Z.max B1 B2 + 2) (add x y).
Proof.
  intros Hx Hy Hl Hu.
  destruct x as [sx|sx| |sx mx ex], y as [sy|sy| |sy my ey]; try contradiction;
    cbn [add SFadd].
  - now destruct sx, sy.
  - eapply finiteB_mono; [|exact Hy]. lia.
  - eapply finiteB_mono; [|exact Hx]. lia.
  - destruct Hx as [Hx _], Hy as [Hy _].
    replace (Z.max B1 B2 + 2) with ((Z.max B1 B2 + 1) + 1) by lia.
    apply binary_normalize_finiteB; try lia.
    apply (sum_digits sx sy mx my ex ey B1 B2 Z.add); [intros; lia|assumption..].
Qed.

Lemma sub_finiteB B1 B2 x y :
  finiteB B1 x -> finiteB B2 y -> -1074 <= Z.max B1 B2 + 1 -> Z.max B1 B2 + 2 <= 1024 ->
  finiteB (Z.max B1 B2 + 2) (sub x y).
Proof.
  intros Hx Hy Hl Hu.
  destruct x as [sx|sx| |sx mx ex], y as [sy|sy| |sy my ey]; try contradiction;
    cbn [sub SFsub].
  - now destruct sx, sy.
  - cbn [finiteB] in *. lia.
  - eapply finiteB_mono; [|exact Hx]. lia.
  - destruct Hx as [Hx _], Hy as [Hy _].
    replace (Z.max B1 B2 + 2) with ((Z.max B1 B2 + 1) + 1) by lia.
    apply binary_normalize_finiteB; try lia.
    apply (sum_digits sx sy mx my ex ey B1 B2 Z.sub); [intros; lia|assumption..].
Qed.

Lemma add_sign x y :
  signOf x = Some false -> signOf y = Some false -> signOf (add x y) = Some false.
Proof.
  destruct x as [sx|sx| |sx mx ex], y as [sy|sy| |sy my ey]; cbn [signOf];
    intros [= ->] [= ->]; try reflexivity.
  cbn [add SFadd cond_Zopp]. apply binary_normalize_sign. lia.
Qed.

Lemma mul_zero_r B x s : finiteB B x -> exists s', mul x (S754_zero s) = S754_zero s'.
Proof. destruct x; try contradiction; intros _; cbn [mul SFmul]; eauto. Qed.

Lemma mul_zero_l B x s : finiteB B x -> exists s', mul (S754_zero s) x = S754_zero s'.
Proof. destruct x; try contradiction; intros _; cbn [mul SFmul]; eauto. Qed.

Lemma add_zero_r x s m e s' : x = S754_finite s m e -> add x (S754_zero s') = x.
Proof. intros ->. reflexivity. Qed.

Lemma SFdiv_core_spec mx ex my ey :
  exists l,
    let e' := Z.min (fexp (Zpos (digits2_pos mx) + ex - (Zpos (digits2_pos my) + ey)))
                    (ex - ey) in
    SFdiv_core_binary prec emax (Zpos mx) ex (Zpos my) ey
    = (Zpos mx * 2 ^ (ex - ey - e') / Zpos my, e', l).
Proof.
  unfold SFdiv_core_binary. cbn [Zdigits2].
  set (e' := Z.min _ (ex - ey)).
  assert (Hs : 0 <= ex - ey - e') by (subst e'; lia).
  assert (Hm : match ex - ey - e' with
               | Z.pos _ => Z.shiftl (Z.pos mx) (ex - ey - e')
               | 0 => Z.pos mx
               | Z.neg _ => 0
               end = Z.pos mx * 2 ^ (ex - ey - e')).
  { destruct (ex - ey - e') as [|s|s] eqn:E; [simpl; lia| |lia].
    now rewrite Z.shiftl_mul_pow2 by lia. }
  rewrite Hm. unfold Z.div.
  destruct (Z.div_eucl (Z.pos mx * 2 ^ (ex - ey - e')) (Z.pos my)) as [q r].
  eexists. reflexivity.
Qed.

Lemma quotient_digits a b :
  0 <= a -> 0 < b -> Zdigits2 (a / b) <= Z.max 0 (Zdigits2 a - Zdigits2 b + 1).
Proof.
  intros Ha Hb.
  pose proof (Zdigits2_bounds b Hb) as [Hlo _].
  pose proof (proj2 (Zdigits2_pos_iff b ltac:(lia)) Hb) as Hdb.
  assert (0 < 2 ^ (Zdigits2 b - 1)) by (apply Z.pow_pos_nonneg; lia).
  assert (Hq : a / b <= a / 2 ^ (Zdigits2 b - 1)) by (apply Z.div_le_compat_l; lia).
  assert (0 <= a / b) by (apply Z.div_pos; lia).
  pose proof (Zdigits2_mono _ _ (conj H0 Hq)) as Hmono.
  destruct (Z.eq_dec a 0) as [->|Hne].
  - rewrite Z.div_0_l by lia. simpl. lia.
  - rewrite Zdigits2_div in Hmono by lia. lia.
Qed.

Lemma div_finiteB B1 L x sy my ey :
  finiteB B1 x -> L <= Zpos (digits2_pos my) + ey ->
  -1074 <= B1 - L + 1 -> B1 - L + 2 <= 1024 ->
  finiteB (B1 - L + 2) (div x (S754_finite sy my ey)).
Proof.
  intros Hx HL Hl Hu. destruct x as [sx|sx| |sx mx ex]; try contradiction;
    cbn [div SFdiv]; [exact I|].
  destruct Hx as [Hx [Hex1 Hex2]].
  destruct (SFdiv_core_spec mx ex my ey) as [l Hcore]. cbv zeta in Hcore.
  rewrite Hcore.
  set (D := Z.pos (digits2_pos mx) + ex - (Z.pos (digits2_pos my) + ey)) in *.
  set (e' := Z.min (fexp D) (ex - ey)) in *.
  set (a := Z.pos mx * 2 ^ (ex - ey - e')).
  assert (Hs : 0 <= ex - ey - e') by (subst e'; lia).
  assert (Ha : 0 < a) by (subst a; assert (0 < 2 ^ (ex - ey - e')) by (apply Z.pow_pos_nonneg; lia); nia).
  assert (Hda : Zdigits2 a = Z.pos (digits2_pos mx) + (ex - ey - e')).
  { subst a. rewrite Zdigits2_mul_pow2 by lia. reflexivity. }
  pose proof (quotient_digits a (Z.pos my) ltac:(lia) ltac:(lia)) as Hq.
  cbn [Zdigits2] in Hq. rewrite Hda in Hq.
  replace (B1 - L + 2) with ((B1 - L + 1) + 1) by lia.
  pose proof (fexp_eq D) as Hf.
  assert (He' : e' = Z.min (fexp D) (ex - ey)) by reflexivity.
  assert (HD : D = Z.pos (digits2_pos mx) + ex - (Z.pos (digits2_pos my) + ey)) by reflexivity.
  clearbody a e' D.
  apply binary_round_aux_finiteB; try lia.
  apply Z.div_pos; lia.
Qed.

Lemma div_sign x my ey :
  signOf x = Some false -> signOf (div x (S754_finite false my ey)) = Some false.
Proof.
  destruct x as [sx|sx| |sx mx ex]; cbn [signOf]; intros [= ->];
    cbn [div SFdiv xorb]; try reflexivity.
  destruct (SFdiv_core_spec mx ex my ey) as [l Hcore]. cbv zeta in Hcore.
  rewrite Hcore. apply binary_round_aux_sign.
  apply Z.div_pos; [|lia].
  assert (0 <= 2 ^ (ex - ey - Z.min (fexp (Z.pos (digits2_pos mx) + ex - (Z.pos (digits2_pos my) + ey))) (ex - ey)))
    by (apply Z.pow_nonneg; lia). nia.
Qed.

(** The quotient of two positive floats of moderate size is a positive
    float. *)
Lemma div_pos mx ex my ey B1 L :
  Zpos (digits2_pos mx) + ex <= B1 -> L <= Zpos (digits2_pos my) + ey ->
  -1021 <= Zpos (digits2_pos mx) + ex - (Zpos (digits2_pos my) + ey) ->
  -1074 <= ex - ey ->
  B1 - L + 2 <= 1024 ->
  exists q e, div (S754_finite false mx ex) (S754_finite false my ey)
              = S754_finite false q e /\
              Zpos (digits2_pos q) + e <= B1 - L + 2 /\ -1074 <= e <= 971.
Proof.
  intros Hx HL HD Hee Hu. cbn [div SFdiv xorb].
  destruct (SFdiv_core_spec mx ex my ey) as [l Hcore]. cbv zeta in Hcore.
  rewrite Hcore.
  set (D := Z.pos (digits2_pos mx) + ex - (Z.pos (digits2_pos my) + ey)) in *.
  set (e' := Z.min (fexp D) (ex - ey)) in *.
  set (a := Z.pos mx * 2 ^ (ex - ey - e')).
  assert (Hs : 0 <= ex - ey - e') by (subst e'; lia).
  assert (Ha : 0 < a) by (subst a; assert (0 < 2 ^ (ex - ey - e')) by (apply Z.pow_pos_nonneg; lia); nia).
  assert (Hda : Zdigits2 a = Z.pos (digits2_pos mx) + (ex - ey - e')).
  { subst a. rewrite Zdigits2_mul_pow2 by lia. reflexivity. }
  pose proof (quotient_digits a (Z.pos my) ltac:(lia) ltac:(lia)) as Hq.
  cbn [Zdigits2] in Hq. rewrite Hda in Hq.
  pose proof (fexp_eq D) as Hf.
  assert (He' : e' = Z.min (fexp D) (ex - ey)) by reflexivity.
  assert (HD' : D = Z.pos (digits2_pos mx) + ex - (Z.pos (digits2_pos my) + ey)) by reflexivity.
  clearbody a e' D.
  assert (Hpos : 0 < a / Z.pos my).
  { apply Z.div_str_pos. split; [lia|].
    pose proof (Zdigits2_bounds a Ha) as [Hlo _].
    pose proof (Zdigits2_bounds (Z.pos my) ltac:(lia)) as [_ Hhi].
    cbn [Zdigits2] in Hhi.
    assert (2 ^ Z.pos (digits2_pos my) <= 2 ^ (Zdigits2 a - 1)); [|lia].
    apply Z.pow_le_mono_r; lia. }
  destruct (binary_round_aux_pos false (a / Z.pos my) e' l (B1 - L + 1))
    as (q & e & Hq1 & Hq2 & Hq3); try lia.
  exists q, e. split; [exact Hq1|]. split; lia.
Qed.

(** The representation of an integer [0 < k < 2^53]: 53 mantissa bits. *)
Definition canonM (k : Z) : positive := Z.to_pos (k * 2 ^ (53 - Zdigits2 k)).
Definition canonE (k : Z) : Z := Zdigits2 k - 53.

Lemma small_digits k : 0 < k < 2 ^ 53 -> 1 <= Zdigits2 k <= 53.
Proof.
  intros Hk. pose proof (Zdigits2_lt_pow k 53 ltac:(lia) ltac:(lia)).
  pose proof (proj2 (Zdigits2_pos_iff k ltac:(lia)) ltac:(lia)). lia.
Qed.

Lemma canonM_value k : 0 < k < 2 ^ 53 -> Zpos (canonM k) = k * 2 ^ (53 - Zdigits2 k).
Proof.
  intros Hk. pose proof (small_digits k Hk). unfold canonM.
  rewrite Z2Pos.id; [reflexivity|].
  assert (0 < 2 ^ (53 - Zdigits2 k)) by (apply Z.pow_pos_nonneg; lia). nia.
Qed.

Lemma canonM_digits k : 0 < k < 2 ^ 53 -> Zpos (digits2_pos (canonM k)) = 53.
Proof.
  intros Hk. pose proof (small_digits k Hk).
  change (Z.pos (digits2_pos (canonM k))) with (Zdigits2 (Z.pos (canonM k))).
  rewrite canonM_value, Zdigits2_mul_pow2 by lia. lia.
Qed.

Lemma canon_canonical k :
  0 < k < 2 ^ 53 -> fexp (Zpos (digits2_pos (canonM k)) + canonE k) = canonE k.
Proof.
  intros Hk. pose proof (small_digits k Hk).
  rewrite canonM_digits by assumption. unfold canonE. rewrite fexp_eq. lia.
Qed.

(** [k * 2^n], taken with exponent [-n], normalizes to the representation
    of [k]. *)
Lemma normalize_scaled k n :
  0 < k < 2 ^ 53 -> 0 <= n ->
  binary_normalize prec emax (k * 2 ^ n) (- n) false
  = S754_finite false (canonM k) (canonE k).
Proof.
  intros Hk Hn. pose proof (small_digits k Hk) as Hd.
  assert (H2 : 0 < 2 ^ n) by (apply Z.pow_pos_nonneg; lia).
  destruct (k * 2 ^ n) as [|q|q] eqn:E; try nia.
  cbn [binary_normalize].
  apply binary_round_exact.
  - now apply canon_canonical.
  - unfold canonE. lia.
  - rewrite canonM_value by assumption. unfold canonE.
    destruct (Z.le_gt_cases (Zdigits2 k - 53) (- n)) as [Hle|Hgt].
    + left. split; [assumption|]. rewrite <- E.
      rewrite <- Z.mul_assoc, <- Z.pow_add_r by lia. f_equal. f_equal. lia.
    + right. split; [lia|]. rewrite <- E.
      rewrite <- Z.mul_assoc, <- Z.pow_add_r by lia. f_equal. f_equal. lia.
Qed.

Lemma ofInt_canon k :
  0 < k < 2 ^ 53 -> ofInt k = S754_finite false (canonM k) (canonE k).
Proof.
  intros Hk. unfold ofInt.
  replace k with (k * 2 ^ 0) at 1 by (simpl; lia).
  now apply (normalize_scaled k 0).
Qed.


(** The mantissa of [k] aligned to exponent [-52]. *)
Lemma aligned_52 k :
  0 < k < 2 ^ 53 ->
  Z.min (canonE k) (-52) = -52 /\
  Zpos (fst (shl_align (canonM k) (canonE k) (-52))) = k * 2 ^ 52.
Proof.
  intros Hk. pose proof (small_digits k Hk) as Hd.
  assert (Hmin : Z.min (canonE k) (-52) = -52) by (unfold canonE; lia).
  split; [assumption|].
  destruct (shl_align_spec (canonM k) (canonE k) (-52)) as [_ ->].
  rewrite Hmin, canonM_value by assumption. unfold canonE.
  rewrite <- Z.mul_assoc, <- Z.pow_add_r by lia. f_equal. f_equal. lia.
Qed.

Lemma aligned_fst k :
  0 < k < 2 ^ 53 ->
  Zpos (fst (shl_align (canonM k) (canonE k) (-52))) = k * 2 ^ 52.
Proof. intros Hk. now apply aligned_52. Qed.

Lemma min_canonE k : 0 < k < 2 ^ 53 -> Z.min (canonE k) (canonE 1) = -52.
Proof. intros Hk. pose proof (small_digits k Hk). unfold canonE. simpl Zdigits2. lia. Qed.

Lemma sub_one k : 1 <= k < 2 ^ 53 -> sub (ofInt k) one = ofInt (k - 1).
Proof.
  intros Hk. unfold one. rewrite (ofInt_canon k), (ofInt_canon 1) by lia.
  cbn [sub SFsub cond_Zopp]. change IntDef.Z.min with Z.min.
  rewrite min_canonE by lia.
  rewrite (aligned_fst k), (aligned_fst 1) by lia.
  replace (k * 2 ^ 52 - 1 * 2 ^ 52) with ((k - 1) * 2 ^ 52) by lia.
  destruct (Z.eq_dec k 1) as [->|Hne]; [reflexivity|].
  rewrite (ofInt_canon (k - 1)) by lia.
  apply (normalize_scaled (k - 1) 52); lia.
Qed.

Lemma add_one k : 0 <= k -> k + 1 < 2 ^ 53 -> add (ofInt k) one = ofInt (k + 1).
Proof.
  intros Hk Hk1. destruct (Z.eq_dec k 0) as [->|Hne]; [reflexivity|].
  unfold one. rewrite (ofInt_canon k), (ofInt_canon 1) by lia.
  cbn [add SFadd cond_Zopp]. change IntDef.Z.min with Z.min.
  rewrite min_canonE by lia.
  rewrite (aligned_fst k), (aligned_fst 1) by lia.
  replace (k * 2 ^ 52 + 1 * 2 ^ 52) with ((k + 1) * 2 ^ 52) by lia.
  rewrite (ofInt_canon (k + 1)) by lia.
  apply (normalize_scaled (k + 1) 52); lia.
Qed.

Lemma compare_canon a b :
  0 < a < 2 ^ 53 -> 0 < b < 2 ^ 53 ->
  SFcompare (S754_finite false (canonM a) (canonE a))
            (S754_finite false (canonM b) (canonE b)) = Some (a ?= b).
Proof.
  intros Ha Hb. cbn [SFcompare]. f_equal. unfold canonE.
  pose proof (small_digits a Ha). pose proof (small_digits b Hb).
  pose proof (Zdigits2_bounds a ltac:(lia)) as [Hal Hah].
  pose proof (Zdigits2_bounds b ltac:(lia)) as [Hbl Hbh].
  destruct (Z.compare_spec (Zdigits2 a - 53) (Zdigits2 b - 53)) as [He|Hlt|Hgt].
  - change (Pos.compare_cont Eq (canonM a) (canonM b))
      with (Z.pos (canonM a) ?= Z.pos (canonM b)).
    rewrite !canonM_value by assumption.
    replace (Zdigits2 b) with (Zdigits2 a) by lia.
    assert (0 < 2 ^ (53 - Zdigits2 a)) by (apply Z.pow_pos_nonneg; lia).
    destruct (Z.compare_spec a b) as [->|Hab|Hab].
    + apply Z.compare_refl.
    + apply Z.compare_lt_iff. nia.
    + apply Z.compare_gt_iff. nia.
  - symmetry. apply Z.compare_lt_iff.
    assert (2 ^ Zdigits2 a <= 2 ^ (Zdigits2 b - 1)) by (apply Z.pow_le_mono_r; lia).
    lia.
  - symmetry. apply Z.compare_gt_iff.
    assert (2 ^ Zdigits2 b <= 2 ^ (Zdigits2 a - 1)) by (apply Z.pow_le_mono_r; lia).
    lia.
Qed.

Lemma compare_ofInt a b :
  0 <= a < 2 ^ 53 -> 0 <= b < 2 ^ 53 ->
  SFcompare (ofInt a) (ofInt b) = Some (a ?= b).
Proof.
  intros Ha Hb.
  destruct (Z.eq_dec a 0) as [->|Hna], (Z.eq_dec b 0) as [->|Hnb].
  - reflexivity.
  - rewrite (ofInt_canon b) by lia. cbn [ofInt binary_normalize SFcompare].
    f_equal. symmetry. apply Z.compare_lt_iff. lia.
  - rewrite (ofInt_canon a) by lia. cbn [ofInt binary_normalize SFcompare].
    f_equal. symmetry. apply Z.compare_gt_iff. lia.
  - rewrite (ofInt_canon a), (ofInt_canon b) by lia. apply compare_canon; lia.
Qed.

Lemma ltb_ofInt a b :
  0 <= a < 2 ^ 53 -> 0 <= b < 2 ^ 53 -> SFltb (ofInt a) (ofInt b) = (a <? b).
Proof.
  intros Ha Hb. unfold SFltb. rewrite compare_ofInt by assumption.
  unfold Z.ltb. now destruct (a ?= b).
Qed.

Lemma leb_ofInt a b :
  0 <= a < 2 ^ 53 -> 0 <= b < 2 ^ 53 -> SFleb (ofInt a) (ofInt b) = (a <=? b).
Proof.
  intros Ha Hb. unfold SFleb. rewrite compare_ofInt by assumption.
  unfold Z.leb. now destruct (a ?= b).
Qed.

(** *** Sums and differences of positive floats *)

Lemma add_pos mx ex my ey B :
  Zpos (digits2_pos mx) + ex <= B -> Zpos (digits2_pos my) + ey <= B ->
  -1074 <= ex -> -1074 <= ey -> B + 2 <= 1024 ->
  exists q e, add (S754_finite false mx ex) (S754_finite false my ey)
              = S754_finite false q e /\
              Zpos (digits2_pos q) + e <= B + 2 /\ -1074 <= e <= 971.
Proof.
  intros Hx Hy Hex Hey HB. cbn [add SFadd].
  pose proof (sum_digits false false mx my ex ey B B Z.add ltac:(intros; lia) Hx Hy) as Hd.
  cbn [cond_Zopp] in *.
  set (z := Z.pos (fst (shl_align mx ex (Z.min ex ey)))
            + Z.pos (fst (shl_align my ey (Z.min ex ey)))) in *.
  assert (Hz : 0 < z) by (subst z; lia).
  change IntDef.Z.min with Z.min. change IntDef.Z.add with Z.add. fold z.
  destruct z as [|p|p]; try lia. cbn [binary_normalize].
  destruct (binary_round_pos false p (Z.min ex ey) (B + 1)) as (q & e & Hq & Hb & He);
    try lia.
  - cbn [Zdigits2] in Hd. lia.
  - exists q, e. split; [exact Hq|]. split; lia.
Qed.

(** [1 - q], clamped at zero from below, is a number whenever [q] is not
    negative: the weight of the previous window. *)
Lemma clamped_weight q :
  signOf q = Some false ->
  finiteB 2 (let w := sub one q in if SFltb w zero then zero else w).
Proof.
  intros Hq. cbv zeta.
  destruct q as [s|s| |s m e]; cbn [signOf] in Hq; try discriminate;
    injection Hq as ->.
  - vm_compute. split; [discriminate|]. split; discriminate.
  - vm_compute. exact I.
  - change one with (S754_finite false 4503599627370496 (-52)).
    cbn [sub SFsub cond_Zopp].
    change IntDef.Z.min with Z.min. change IntDef.Z.sub with Z.sub.
    set (ez := Z.min (-52) e).
    destruct (shl_align_spec 4503599627370496 (-52) e) as [_ H1].
    destruct (shl_align_spec m e (-52)) as [_ H2].
    fold ez in H1. replace (Z.min e (-52)) with ez in H2 by (subst ez; lia).
    replace (shl_align m e ez) with (shl_align m e ez) by reflexivity.
    assert (Hm1 : Z.pos (fst (shl_align 4503599627370496 (-52) ez))
                  = 4503599627370496 * 2 ^ (-52 - ez)).
    { destruct (shl_align_spec 4503599627370496 (-52) ez) as [_ ->].
      f_equal. f_equal. subst ez. lia. }
    set (a := Z.pos (fst (shl_align 4503599627370496 (-52) ez))) in *.
    set (b := Z.pos (fst (shl_align m e ez))) in *.
    assert (Hb : 0 < b) by (subst b; lia).
    destruct (a - b) as [|p|p] eqn:E; cbn [binary_normalize].
    + exact I.
    + assert (Hfin : finiteB 2 (binary_round prec emax false p ez)).
      { apply (binary_round_finiteB false p ez 1); try lia.
        assert (Z.pos p < a) by lia.
        pose proof (Zdigits2_mono (Z.pos p) a ltac:(lia)) as Hmono.
        rewrite Hm1 in Hmono.
        rewrite Zdigits2_mul_pow2 in Hmono by (subst ez; lia).
        cbn [Zdigits2] in Hmono. change (Z.pos (digits2_pos 4503599627370496)) with 53 in Hmono.
        lia. }
      pose proof (binary_round_sign false p ez) as Hs.
      destruct (binary_round prec emax false p ez) as [s'|s'| |s' m' e'];
        cbn [signOf] in Hs; try discriminate; try contradiction;
        injection Hs as ->; assumption.
    + pose proof (binary_round_sign true p ez) as Hs.
      destruct (binary_round prec emax true p ez) as [s'|s'| |s' m' e'];
        cbn [signOf] in Hs; try discriminate; injection Hs as ->;
        cbn; exact I.
Qed.

(** *** Conversion to [int64]

    A value that fits is truncated toward zero; for any other value (too
    large, an infinity, a NaN) Go leaves the result to the implementation,
    here the function [overflow]. *)

Definition truncate (x : float64) : option Z :=
  match x with
  | S754_zero _ => Some 0
  | S754_finite s m e =>
      Some (cond_Zopp s (if 0 <=? e then Zpos m * 2 ^ e else Zpos m / 2 ^ (- e)))
  | _ => None
  end.

Definition toInt64 (overflow : float64 -> Z) (x : float64) : Z :=
  match truncate x with
  | Some z => if (- 2 ^ 63 <=? z) && (z <=? 2 ^ 63 - 1) then z else overflow x
  | None => overflow x
  end.

(** amd64: the conversion instruction answers the "integer indefinite"
    value [-2^63] for every value out of range. *)
Definition overflowAmd64 (x : float64) : Z := - 2 ^ 63.

(** arm64: the conversion saturates, and a NaN gives 0. *)
Definition overflowArm64 (x : float64) : Z :=
  match x with
  | S754_nan => 0
  | S754_zero _ => 0
  | S754_infinity s | S754_finite s _ _ => if s then - 2 ^ 63 else 2 ^ 63 - 1
  end.

(** *** Exact sums and products of small integers *)

Lemma aligned_value k e :
  0 < k < 2 ^ 53 -> e <= canonE k ->
  Zpos (fst (shl_align (canonM k) (canonE k) e)) = k * 2 ^ (- e).
Proof.
  intros Hk He. pose proof (small_digits k Hk) as Hd.
  destruct (shl_align_spec (canonM k) (canonE k) e) as [_ ->].
  rewrite Z.min_r by assumption. rewrite canonM_value by assumption.
  unfold canonE in *. rewrite <- Z.mul_assoc, <- Z.pow_add_r by lia.
  f_equal. f_equal. lia.
Qed.

Lemma add_ofInt a b :
  0 <= a -> 0 <= b -> a + b < 2 ^ 53 -> add (ofInt a) (ofInt b) = ofInt (a + b).
Proof.
  intros Ha Hb Hab.
  destruct (Z.eq_dec a 0) as [->|Ha0].
  { destruct (Z.eq_dec b 0) as [->|Hb0]; [reflexivity|].
    rewrite Z.add_0_l. rewrite (ofInt_canon b) by lia. reflexivity. }
  destruct (Z.eq_dec b 0) as [->|Hb0].
  { rewrite Z.add_0_r. rewrite (ofInt_canon a) by lia. reflexivity. }
  rewrite (ofInt_canon a), (ofInt_canon b), (ofInt_canon (a + b)) by lia.
  cbn [add SFadd cond_Zopp]. change IntDef.Z.min with Z.min.
  pose proof (small_digits a ltac:(lia)). pose proof (small_digits b ltac:(lia)).
  set (e := Z.min (canonE a) (canonE b)).
  rewrite (aligned_value a e), (aligned_value b e) by (subst e; lia).
  replace (a * 2 ^ (- e) + b * 2 ^ (- e)) with ((a + b) * 2 ^ (- e)) by lia.
  replace e with (- (- e)) at 2 by lia.
  apply normalize_scaled; [lia|]. subst e. unfold canonE. lia.
Qed.

Lemma product_digits a b :
  0 < a -> 0 < b -> Zdigits2 a + Zdigits2 b - 1 <= Zdigits2 (a * b).
Proof.
  intros Ha Hb.
  pose proof (Zdigits2_bounds a Ha) as [Ha1 _].
  pose proof (Zdigits2_bounds b Hb) as [Hb1 _].
  pose proof (Zdigits2_bounds (a * b) ltac:(nia)) as [_ Hab].
  assert (Hda : 0 < Zdigits2 a) by (apply Zdigits2_pos_iff; lia).
  assert (Hdb : 0 < Zdigits2 b) by (apply Zdigits2_pos_iff; lia).
  assert (Hlow : 2 ^ (Zdigits2 a + Zdigits2 b - 2) <= a * b).
  { replace (Zdigits2 a + Zdigits2 b - 2) with ((Zdigits2 a - 1) + (Zdigits2 b - 1)) by lia.
    rewrite Z.pow_add_r by lia.
    assert (0 < 2 ^ (Zdigits2 a - 1)) by (apply Z.pow_pos_nonneg; lia).
    assert (0 < 2 ^ (Zdigits2 b - 1)) by (apply Z.pow_pos_nonneg; lia).
    nia. }
  destruct (Z.le_gt_cases (Zdigits2 a + Zdigits2 b - 1) (Zdigits2 (a * b))) as [|Hgt];
    [assumption|].
  assert (2 ^ Zdigits2 (a * b) <= 2 ^ (Zdigits2 a + Zdigits2 b - 2))
    by (apply Z.pow_le_mono_r; [lia|]; pose proof (Zdigits2_nonneg (a * b)); lia).
  lia.
Qed.

Lemma mul_ofInt a b :
  0 <= a < 2 ^ 53 -> 0 <= b < 2 ^ 53 -> a * b < 2 ^ 53 ->
  mul (ofInt a) (ofInt b) = ofInt (a * b).
Proof.
  intros Ha Hb Hab.
  destruct (Z.eq_dec a 0) as [->|Ha0].
  { destruct (Z.eq_dec b 0) as [->|Hb0]; [reflexivity|].
    rewrite Z.mul_0_l. rewrite (ofInt_canon b) by lia. reflexivity. }
  destruct (Z.eq_dec b 0) as [->|Hb0].
  { rewrite Z.mul_0_r. rewrite (ofInt_canon a) by lia. reflexivity. }
  assert (Hka : 0 < a < 2 ^ 53) by lia. assert (Hkb : 0 < b < 2 ^ 53) by lia.
  assert (Hk : 0 < a * b < 2 ^ 53) by nia.
  rewrite (ofInt_canon a), (ofInt_canon b), (ofInt_canon (a * b)) by assumption.
  cbn [mul SFmul xorb]. change IntDef.Z.add with Z.add.
  pose proof (small_digits a Hka). pose proof (small_digits b Hkb).
  pose proof (small_digits (a * b) Hk).
  pose proof (product_digits a b ltac:(lia) ltac:(lia)) as Hd.
  set (n := 53 + Zdigits2 (a * b) - Zdigits2 a - Zdigits2 b).
  replace (Zpos (canonM a * canonM b)) with (Zpos (canonM (a * b)) * 2 ^ n).
  - replace (canonE a + canonE b) with (canonE (a * b) - n)
      by (subst n; unfold canonE; lia).
    apply binary_round_aux_exact.
    + now apply canon_canonical.
    + unfold canonE. lia.
    + subst n. lia.
  - rewrite Pos2Z.inj_mul, !canonM_value by assumption. subst n.
    replace (a * 2 ^ (53 - Zdigits2 a) * (b * 2 ^ (53 - Zdigits2 b)))
      with (a * b * (2 ^ (53 - Zdigits2 a) * 2 ^ (53 - Zdigits2 b))) by lia.
    rewrite <- Z.pow_add_r by lia. rewrite <- Z.mul_assoc, <- Z.pow_add_r by lia.
    f_equal. f_equal. lia.
Qed.

End Float64.

(** ** Go's [time] package, as far as the gateway uses it

    A [time.Time] is the number of nanoseconds since the zero time; a
    [time.Duration] is an [int64] count of nanoseconds, and [Time.Sub]
    saturates at the ends of that range. *)

Module GoTime.
Import GoInt.

Definition Time := Z.
Definition Duration := Z.

Definition zeroTime : Time := 0.
Definition Second : Duration := 1000000000.

Definition Sub (t u : Time) : Duration :=
  if t - u <? minInt64 then minInt64
  else if maxInt64 <? t - u then maxInt64
  else t - u.

Definition Add (t : Time) (d : Duration) : Time := t + d.
Definition Before (t u : Time) : bool := t <? u.
Definition After (t u : Time) : bool := u <? t.

(** [time.Since(t)] when the clock reads [now]. *)
Definition Since (now t : Time) : Duration := Sub now t.

Ltac case_ltb :=
  repeat match goal with
         | |- context [?a <? ?b] => destruct (Z.ltb_spec a b)
         end.

Lemma Sub_range t u : inInt64 (Sub t u).
Proof.
  unfold Sub, inInt64, minInt64, maxInt64. case_ltb; lia.
Qed.

Lemma Sub_exact t u : inInt64 (t - u) -> Sub t u = t - u.
Proof.
  unfold Sub, inInt64, minInt64, maxInt64. intros H. case_ltb; lia.
Qed.

Lemma Sub_ge t u d : inInt64 d -> d <= t - u -> d <= Sub t u.
Proof.
  unfold Sub, inInt64, minInt64, maxInt64. intros H. case_ltb; lia.
Qed.

(** On a monotone clock the saturated difference never exceeds the true one. *)
Lemma Sub_le t u d : u <= t -> d <= Sub t u -> d <= t - u.
Proof.
  unfold Sub, inInt64, minInt64, maxInt64. intros H. case_ltb; lia.
Qed.

(** [Duration.Seconds]: whole seconds plus the nanosecond remainder over
    [1e9], both divisions truncating toward zero. *)
Definition Seconds (d : Duration) : Float64.float64 :=
  let sec := Z.quot d Second in
  let nsec := Z.rem d Second in
  Float64.add (Float64.ofInt sec)
              (Float64.div (Float64.ofInt nsec) (Float64.ofInt 1000000000)).

Lemma billion : Float64.ofInt 1000000000 = S754_finite false 8388608000000000 (-23).
Proof. reflexivity. Qed.

Lemma quot_Second_bound d : inInt64 d -> - 2 ^ 34 < Z.quot d Second < 2 ^ 34.
Proof.
  unfold inInt64, minInt64, maxInt64, Second. intros H.
  destruct (Z.le_gt_cases 0 d) as [Hd|Hd].
  - rewrite Z.quot_div_nonneg by lia.
    pose proof (Z.div_pos d 1000000000 Hd ltac:(lia)).
    assert (d / 1000000000 < 2 ^ 34) by (apply Z.div_lt_upper_bound; lia). lia.
  - replace d with (- (- d)) by lia. rewrite Z.quot_opp_l by lia.
    rewrite Z.quot_div_nonneg by lia.
    pose proof (Z.div_pos (- d) 1000000000 ltac:(lia) ltac:(lia)).
    assert (- d / 1000000000 < 2 ^ 34) by (apply Z.div_lt_upper_bound; lia). lia.
Qed.

Lemma rem_Second_bound d : - 2 ^ 30 < Z.rem d Second < 2 ^ 30.
Proof.
  unfold Second. pose proof (Z.rem_bound_abs d 1000000000 ltac:(lia)). lia.
Qed.

Lemma Seconds_finiteB d : inInt64 d -> Float64.finiteB 67 (Seconds d).
Proof.
  intros H. unfold Seconds. cbv zeta. rewrite billion.
  pose proof (quot_Second_bound d H). pose proof (rem_Second_bound d).
  apply (Float64.add_finiteB 65 37); try lia.
  - apply Float64.ofInt_finiteB. lia.
  - apply (Float64.div_finiteB 65 30); try lia.
    + apply Float64.ofInt_finiteB. lia.
    + reflexivity.
Qed.

Lemma Seconds_sign d : 0 <= d -> Float64.signOf (Seconds d) = Some false.
Proof.
  intros H. unfold Seconds. cbv zeta. rewrite billion.
  apply Float64.add_sign.
  - apply Float64.ofInt_sign. apply Z.quot_pos; unfold Second; lia.
  - apply Float64.div_sign, Float64.ofInt_sign.
    apply Z.rem_nonneg; unfold Second; lia.
Qed.

Lemma Seconds_zero : Seconds 0 = S754_zero false.
Proof. reflexivity. Qed.

(** A positive duration is a positive number of seconds. *)
Lemma Seconds_pos d :
  0 < d -> inInt64 d -> exists m e, Seconds d = S754_finite false m e.
Proof.
  intros Hd H. unfold Seconds. cbv zeta. rewrite billion.
  pose proof (quot_Second_bound d H) as Hq. pose proof (rem_Second_bound d) as Hr.
  pose proof (Z.quot_pos d Second ltac:(lia) ltac:(unfold Second; lia)) as Hq0.
  pose proof (Z.rem_nonneg d Second ltac:(unfold Second; lia) ltac:(lia)) as Hr0.
  pose proof (Z.quot_rem' d Second) as Hqr.
  set (sec := Z.quot d Second) in *. set (nsec := Z.rem d Second) in *.
  assert (Hn : nsec = 0 \/ 0 < nsec) by lia.
  assert (Hs : sec = 0 \/ 0 < sec) by lia.
  assert (Hdiv : 0 < nsec -> exists q e,
             Float64.div (Float64.ofInt nsec) (S754_finite false 8388608000000000 (-23))
             = S754_finite false q e /\
             Zpos (digits2_pos q) + e <= 55 /\ -1074 <= e <= 971).
  { intros Hpos. rewrite Float64.ofInt_canon by lia.
    pose proof (Float64.small_digits nsec ltac:(lia)).
    apply (Float64.div_pos _ _ _ _ 83 30);
      rewrite ?Float64.canonM_digits by lia; unfold Float64.canonE;
      change (Z.pos (digits2_pos 8388608000000000)) with 53; lia. }
  destruct Hn as [Hn|Hn]; destruct Hs as [Hs|Hs].
  - unfold Second in Hqr. lia.
  - rewrite Hn. rewrite Float64.ofInt_canon by lia. cbn. eauto.
  - rewrite Hs. destruct (Hdiv Hn) as (q & e & -> & _). cbn. eauto.
  - destruct (Hdiv Hn) as (q & e & -> & Hb & He).
    rewrite Float64.ofInt_canon by lia.
    pose proof (Float64.small_digits sec ltac:(lia)).
    destruct (Float64.add_pos (Float64.canonM sec) (Float64.canonE sec) q e 55)
      as (q' & e' & -> & _);
      rewrite ?Float64.canonM_digits by lia; unfold Float64.canonE; try lia.
    eauto.
Qed.

End GoTime.

(** ** Circuit breaker (package circuitbreaker) *)

Module CircuitBreaker.
Import GoInt GoTime.

Inductive State := StateClosed | StateOpen | StateHalfOpen.

Record CircuitBreaker := mkCircuitBreaker {
  maxFailures : Z;
  timeout : Duration;
  state : State;
  failures : Z;
  lastFailureTime : Time
}.

Definition New (maxFailures : Z) (timeout : Duration) : CircuitBreaker :=
  {| maxFailures := maxFailures; timeout := timeout;
     state := StateClosed; failures := 0; lastFailureTime := zeroTime |}.

Definition setState (s : State) (cb : CircuitBreaker) : CircuitBreaker :=
  {| maxFailures := maxFailures cb; timeout := timeout cb;
     state := s; failures := failures cb;
     lastFailureTime := lastFailureTime cb |}.

Definition setFailures (n : Z) (cb : CircuitBreaker) : CircuitBreaker :=
  {| maxFailures := maxFailures cb; timeout := timeout cb;
     state := state cb; failures := n;
     lastFailureTime := lastFailureTime cb |}.

Definition setLastFailureTime (t : Time) (cb : CircuitBreaker) : CircuitBreaker :=
  {| maxFailures := maxFailures cb; timeout := timeout cb;
     state := state cb; failures := failures cb;
     lastFailureTime := t |}.

(** [Allow] when the clock reads [now] and no other call overlaps it: the
    answer and the breaker after.  ([stepAllow] below follows a call
    statement by statement, for calls that overlap.) *)
Definition Allow (now : Time) (cb : CircuitBreaker) : bool * CircuitBreaker :=
  match state cb with
  | StateClosed => (true, cb)
  | StateOpen =>
      if timeout cb <=? Since now (lastFailureTime cb)
      then (true, setState StateHalfOpen cb)
      else (false, cb)
  | StateHalfOpen => (false, cb)
  end.

Definition RecordSuccess (cb : CircuitBreaker) : CircuitBreaker :=
  let cb := setFailures 0 cb in
  match state cb with
  | StateHalfOpen => setState StateClosed cb
  | _ => cb
  end.

Definition RecordFailure (now : Time) (cb : CircuitBreaker) : CircuitBreaker :=
  let cb := setFailures (wrap64 (failures cb + 1)) cb in
  let cb := setLastFailureTime now cb in
  match state cb with
  | StateHalfOpen => setState StateOpen cb
  | _ =>
      if maxFailures cb <=? failures cb then setState StateOpen cb else cb
  end.

(** The breaker's operations, each with the clock reading of the call. *)
Inductive Op :=
| OpAllow (now : Time)
| OpRecordSuccess
| OpRecordFailure (now : Time).

Definition step (op : Op) (cb : CircuitBreaker) : CircuitBreaker :=
  match op with
  | OpAllow now => snd (Allow now cb)
  | OpRecordSuccess => RecordSuccess cb
  | OpRecordFailure now => RecordFailure now cb
  end.

(** A run of [Allow] calls at the clock readings [nows]: the answers in
    order and the breaker after the last call. *)
Fixpoint allows (nows : list Time) (cb : CircuitBreaker) : list bool * CircuitBreaker :=
  match nows with
  | [] => ([], cb)
  | now :: rest =>
      let '(ok, cb1) := Allow now cb in
      let '(oks, cb2) := allows rest cb1 in
      (ok :: oks, cb2)
  end.

Lemma allows_half_open nows cb :
  state cb = StateHalfOpen ->
  allows nows cb = (map (fun _ => false) nows, cb).
Proof.
  intros Hs. induction nows as [|now rest IH]; simpl; [done|].
  unfold Allow. rewrite Hs. by rewrite IH.
Qed.

(** The state machine for calls that do not overlap (the
    transitions C1 lists, one call at a time): the breaker starts Closed;
    from Closed a [RecordFailure] that brings [failures] to [maxFailures] or above opens
    it; in Open, an [Allow] at a time [now] with
    [now - lastFailureTime >= timeout] answers true and moves to HalfOpen,
    after which every further [Allow] answers false and changes nothing;
    [RecordSuccess] in HalfOpen closes it with [failures = 0];
    [RecordFailure] in HalfOpen reopens it with [lastFailureTime = now]. *)
Theorem circuit_breaker_state_machine :
  (forall mf tmo, state (New mf tmo) = StateClosed) /\
  (forall now cb,
      state cb = StateClosed ->
      maxFailures cb <= failures (RecordFailure now cb) ->
      state (RecordFailure now cb) = StateOpen) /\
  (forall now nows cb,
      inInt64 (timeout cb) ->
      state cb = StateOpen ->
      timeout cb <= now - lastFailureTime cb ->
      Allow now cb = (true, setState StateHalfOpen cb) /\
      state (snd (Allow now cb)) = StateHalfOpen /\
      allows nows (snd (Allow now cb)) =
        (map (fun _ => false) nows, snd (Allow now cb))) /\
  (forall cb,
      state cb = StateHalfOpen ->
      state (RecordSuccess cb) = StateClosed /\ failures (RecordSuccess cb) = 0) /\
  (forall now cb,
      state cb = StateHalfOpen ->
      state (RecordFailure now cb) = StateOpen /\
      lastFailureTime (RecordFailure now cb) = now).
Proof.
  split; [done|]. split; [|split; [|split]].
  - intros now [mf tmo st f l] Hs Hf. simpl in *. subst st.
    unfold RecordFailure in *. simpl in *.
    destruct (mf <=? wrap64 (f + 1)) eqn:E; simpl in *; [done|lia].
  - intros now nows [mf tmo st f l] Hr Hs Hd. simpl in *. subst st.
    assert (HA : Allow now (mkCircuitBreaker mf tmo StateOpen f l)
                 = (true, mkCircuitBreaker mf tmo StateHalfOpen f l)).
    { unfold Allow, Since. simpl.
      apply (Sub_ge now l) in Hd; [|done]. by apply Z.leb_le in Hd as ->. }
    rewrite HA. split; [done|]. split; [done|].
    by apply allows_half_open.
  - intros [mf tmo st f l] Hs. simpl in *. by subst st.
  - intros now [mf tmo st f l] Hs. simpl in *. by subst st.
Qed.

(** A breaker with [maxFailures = 2] and a 50ms timeout after two failures
    at time 10. *)
Definition tripped : CircuitBreaker :=
  RecordFailure 10 (RecordFailure 10 (New 2 50000000)).

(** A run of the state machine: the two failures open the breaker, and an [Allow] 100ms
    later is the half-open probe. *)
Lemma circuit_breaker_state_machine_witness :
  state tripped = StateOpen /\
  Allow 100000010 tripped = (true, setState StateHalfOpen tripped) /\
  allows [100000011; 100000012] (snd (Allow 100000010 tripped)) =
    ([false; false], snd (Allow 100000010 tripped)).
Proof.
  pose proof circuit_breaker_state_machine as (_ & Hopen & Hprobe & _).
  split.
  - apply Hopen; [reflexivity | vm_compute; discriminate].
  - pose proof (Hprobe 100000010 [100000011; 100000012] tripped) as H.
    destruct H as (H1 & _ & H3).
    + vm_compute. split; discriminate.
    + reflexivity.
    + vm_compute. discriminate.
    + split; [exact H1 | exact H3].
Defined.

(** ** Calls of [Allow] that overlap

    [Allow] reads the state with [cb.state.Load()] before it takes the
    lock, and inside the lock its Open branch looks at the clock only, not
    at the state again.  A caller is therefore followed through the
    statements that touch the shared breaker, one at a time, so that the
    statements of several callers can be interleaved. *)

(** Where a caller of [Allow] stands: the statement it runs next. *)
Inductive Pc :=
| AtLoad                  (* state := State(cb.state.Load()) *)
| AtLock                  (* case StateOpen: cb.mu.Lock() *)
| AtSince                 (* if time.Since(cb.lastFailureTime) >= cb.timeout *)
| AtStore                 (* cb.setState(StateHalfOpen) *)
| AtUnlock (ok : bool)    (* cb.mu.Unlock(); return ok *)
| Returned (ok : bool).

(** The breaker and its mutex [mu] ([true] when held). *)
Record Shared := mkShared {
  breaker : CircuitBreaker;
  mu : bool
}.

(** One statement of a caller when the clock reads [now]; [None] when the
    caller cannot move (it waits for the mutex, or it has returned). *)
Definition stepAllow (now : Time) (pc : Pc) (sh : Shared) : option (Pc * Shared) :=
  match pc with
  | AtLoad =>
      Some (match state (breaker sh) with
            | StateClosed => Returned true
            | StateOpen => AtLock
            | StateHalfOpen => Returned false
            end, sh)
  | AtLock =>
      if mu sh then None else Some (AtSince, mkShared (breaker sh) true)
  | AtSince =>
      Some (if timeout (breaker sh) <=? Since now (lastFailureTime (breaker sh))
            then AtStore else AtUnlock false, sh)
  | AtStore =>
      Some (AtUnlock true, mkShared (setState StateHalfOpen (breaker sh)) (mu sh))
  | AtUnlock ok => Some (Returned ok, mkShared (breaker sh) false)
  | Returned _ => None
  end.

(** Several callers of one breaker.  A schedule names, statement by
    statement, the caller that moves and the clock reading at that
    moment. *)
Definition stepCaller (e : nat * Time) (st : list Pc * Shared)
  : option (list Pc * Shared) :=
  match fst st !! fst e with
  | Some pc =>
      match stepAllow (snd e) pc (snd st) with
      | Some (pc', sh') => Some (<[fst e := pc']> (fst st), sh')
      | None => None
      end
  | None => None
  end.

Fixpoint runCallers (sched : list (nat * Time)) (st : list Pc * Shared)
  : option (list Pc * Shared) :=
  match sched with
  | [] => Some st
  | e :: rest =>
      match stepCaller e st with
      | Some st' => runCallers rest st'
      | None => None
      end
  end.

(** A caller that runs on its own until it returns. *)
Fixpoint finish (fuel : nat) (now : Time) (pc : Pc) (sh : Shared)
  : option (bool * Shared) :=
  match pc with
  | Returned ok => Some (ok, sh)
  | _ =>
      match fuel with
      | O => None
      | S fuel =>
          match stepAllow now pc sh with
          | Some (pc', sh') => finish fuel now pc' sh'
          | None => None
          end
      end
  end.

(** A call that no other call overlaps is [Allow]. *)
Lemma finish_Allow (now : Time) (cb : CircuitBreaker) :
  finish 5 now AtLoad (mkShared cb false)
  = Some (fst (Allow now cb), mkShared (snd (Allow now cb)) false).
Proof.
  destruct cb as [mf tmo st f l]. unfold Allow. cbn.
  destruct st; cbn; [done| |done].
  by destruct (tmo <=? Since now l).
Qed.

(** A caller that has read Open and is not yet refused. *)
Definition admitted (pc : Pc) : bool :=
  match pc with
  | AtLock | AtSince | AtStore | AtUnlock true | Returned true => true
  | _ => false
  end.

(** Callers that have read Open on a breaker whose timeout has passed. *)
Definition pastLoad (cb : CircuitBreaker) (st : list Pc * Shared) : Prop :=
  Forall (fun pc => admitted pc = true) (fst st) /\
  timeout (breaker (snd st)) = timeout cb /\
  lastFailureTime (breaker (snd st)) = lastFailureTime cb.

Lemma stepCaller_pastLoad cb e st st' :
  inInt64 (timeout cb) ->
  timeout cb <= snd e - lastFailureTime cb ->
  pastLoad cb st -> stepCaller e st = Some st' -> pastLoad cb st'.
Proof.
  intros Hr He (Hpcs & Htmo & Hlast).
  destruct e as [i now], st as [pcs sh]. unfold stepCaller. cbn in *.
  destruct (pcs !! i) as [pc|] eqn:Hi; [|done].
  pose proof (Forall_lookup_1 _ _ _ _ Hpcs Hi) as Hpc. cbn in Hpc.
  assert (Hsince : (timeout (breaker sh) <=? Since now (lastFailureTime (breaker sh)))
                   = true).
  { rewrite Htmo, Hlast. apply Z.leb_le. unfold Since. by apply Sub_ge. }
  destruct pc as [ | | | |[|]|[|]]; cbn in Hpc; try done; cbn.
  - destruct (mu sh); [done|]. intros [= <-]. split; [|done].
    by apply Forall_insert.
  - rewrite Hsince. intros [= <-]. split; [|done]. by apply Forall_insert.
  - intros [= <-]. split; [|done]. by apply Forall_insert.
  - intros [= <-]. split; [|done]. by apply Forall_insert.
Qed.

Lemma runCallers_pastLoad cb sched : forall st st',
  inInt64 (timeout cb) ->
  Forall (fun e => timeout cb <= snd e - lastFailureTime cb) sched ->
  pastLoad cb st -> runCallers sched st = Some st' -> pastLoad cb st'.
Proof.
  induction sched as [|e rest IH]; intros st st' Hr Hs Hinv; cbn.
  - by intros [= <-].
  - apply Forall_cons in Hs as [He Hrest].
    destruct (stepCaller e st) as [st1|] eqn:E; [|done].
    apply IH; [done|done|]. by apply (stepCaller_pastLoad cb e st).
Qed.

(** C1.  The state machine does not hold for calls of [Allow] that
    overlap.  On an Open breaker whose timeout has passed, two callers that
    both read the state before either of them stores HalfOpen both go
    through the locked section, both see the timeout passed, and both
    return true: two probes are admitted, and the breaker is HalfOpen
    after the first.  However the two are scheduled once they have read
    Open, neither is ever refused.  (For calls that do not overlap the
    transitions are those of [circuit_breaker_state_machine].) *)
Theorem overlapping_probes (cb : CircuitBreaker) (now0 now1 : Time) :
  inInt64 (timeout cb) ->
  state cb = StateOpen ->
  timeout cb <= now0 - lastFailureTime cb ->
  timeout cb <= now1 - lastFailureTime cb ->
  runCallers ([(0%nat, now0); (1%nat, now1)]
                ++ replicate 4 (0%nat, now0) ++ replicate 4 (1%nat, now1))
             ([AtLoad; AtLoad], mkShared cb false)
  = Some ([Returned true; Returned true],
          mkShared (setState StateHalfOpen cb) false)
  /\ runCallers [(0%nat, now0); (1%nat, now1)] ([AtLoad; AtLoad], mkShared cb false)
     = Some ([AtLock; AtLock], mkShared cb false)
  /\ (forall sched pcs sh,
        Forall (fun e => timeout cb <= snd e - lastFailureTime cb) sched ->
        runCallers sched ([AtLock; AtLock], mkShared cb false) = Some (pcs, sh) ->
        Forall (fun pc => pc <> Returned false) pcs).
Proof.
  intros Hr Hs H0 H1.
  assert (Hsince : forall now, timeout cb <= now - lastFailureTime cb ->
                     (timeout cb <=? Since now (lastFailureTime cb)) = true).
  { intros now Hnow. apply Z.leb_le. unfold Since. by apply Sub_ge. }
  split; [|split].
  - destruct cb as [mf tmo st f l]. cbn in *. subst st.
    cbn. unfold stepCaller. cbn.
    rewrite (Hsince now0 H0). cbn. rewrite (Hsince now1 H1). reflexivity.
  - cbn. unfold stepCaller. cbn. by rewrite Hs.
  - intros sched pcs sh Hsched Hrun.
    assert (Hinv : pastLoad cb ([AtLock; AtLock], mkShared cb false)).
    { split; [|done]. by repeat constructor. }
    pose proof (runCallers_pastLoad cb sched _ _ Hr Hsched Hinv Hrun) as (Hpcs & _).
    cbn in Hpcs. eapply Forall_impl; [exact Hpcs|].
    intros pc Hpc ->. discriminate Hpc.
Qed.

(** Two callers on [tripped], 100ms after its last failure. *)
Lemma overlapping_probes_witness :
  runCallers ([(0%nat, 100000010); (1%nat, 100000011)]
                ++ replicate 4 (0%nat, 100000010) ++ replicate 4 (1%nat, 100000011))
             ([AtLoad; AtLoad], mkShared tripped false)
  = Some ([Returned true; Returned true],
          mkShared (setState StateHalfOpen tripped) false).
Proof.
  destruct (overlapping_probes tripped 100000010 100000011) as [H _].
  - vm_compute. split; discriminate.
  - reflexivity.
  - vm_compute. discriminate.
  - vm_compute. discriminate.
  - exact H.
Defined.

(** C1 fails on [tripped] (maxFailures 2, timeout 50ms, last failure at
    time 10).  Caller 0 takes the lock and finds the timeout passed;
    caller 1 reads the state, still Open, before caller 0 stores HalfOpen:
    both return true.  Had caller 1 read the state after the store, it
    would have been refused. *)
Lemma two_probes_admitted :
  state tripped = StateOpen /\
  runCallers [(0%nat, 100000010); (0%nat, 100000010); (0%nat, 100000010);
              (1%nat, 100000010);
              (0%nat, 100000010); (0%nat, 100000010);
              (1%nat, 100000011); (1%nat, 100000011); (1%nat, 100000011);
              (1%nat, 100000011)]
             ([AtLoad; AtLoad], mkShared tripped false)
  = Some ([Returned true; Returned true],
          mkShared (setState StateHalfOpen tripped) false) /\
  runCallers [(0%nat, 100000010); (0%nat, 100000010); (0%nat, 100000010);
              (0%nat, 100000010);
              (1%nat, 100000010);
              (0%nat, 100000010)]
             ([AtLoad; AtLoad], mkShared tripped false)
  = Some ([Returned true; Returned false],
          mkShared (setState StateHalfOpen tripped) false).
Proof. vm_compute. repeat split. Qed.

(** C10. In the Open state [RecordSuccess] resets the failure counter to 0
    and leaves the state Open and [lastFailureTime] as they were; and the
    only operation that takes a breaker out of Open is an [Allow] whose
    clock reading is at least [timeout] after [lastFailureTime] (it moves
    to HalfOpen). *)
Theorem record_success_while_open (cb : CircuitBreaker) :
  state cb = StateOpen ->
  failures (RecordSuccess cb) = 0 /\
  state (RecordSuccess cb) = StateOpen /\
  lastFailureTime (RecordSuccess cb) = lastFailureTime cb /\
  (forall op,
      state (step op cb) <> StateOpen ->
      exists now,
        op = OpAllow now /\
        timeout cb <= Since now (lastFailureTime cb) /\
        (lastFailureTime cb <= now -> timeout cb <= now - lastFailureTime cb) /\
        state (step op cb) = StateHalfOpen).
Proof.
  destruct cb as [mf tmo st f l]. simpl. intros ->.
  repeat split.
  intros [now| |now]; simpl.
  - unfold Allow, Since. simpl.
    destruct (tmo <=? Sub now l) eqn:E; simpl; intros Hleave; [|done].
    apply Z.leb_le in E. exists now.
    split; [done|]. split; [done|]. split; [|done].
    intros Hmono. by apply Sub_le.
  - done.
  - unfold RecordFailure. simpl.
    by destruct (mf <=? wrap64 (f + 1)).
Qed.

Lemma record_success_while_open_witness :
  failures (RecordSuccess tripped) = 0 /\
  state (RecordSuccess tripped) = StateOpen /\
  lastFailureTime (RecordSuccess tripped) = 10.
Proof.
  destruct (record_success_while_open tripped) as (H1 & H2 & H3 & _).
  - reflexivity.
  - repeat split; assumption.
Defined.

(** [State()] *)
Definition getState (cb : CircuitBreaker) : State := state cb.

(** A history of calls on one breaker. *)
Definition runOps (ops : list Op) (cb : CircuitBreaker) : CircuitBreaker :=
  fold_left (fun cb op => step op cb) ops cb.

Lemma step_maxFailures op cb : maxFailures (step op cb) = maxFailures cb.
Proof.
  destruct cb as [mf tmo st f l], op as [now| |now]; cbn.
  - unfold Allow; cbn. destruct st; try done. by destruct (tmo <=? _).
  - by destruct st.
  - unfold RecordFailure; cbn. destruct st; try done;
      by destruct (mf <=? wrap64 (f + 1)).
Qed.

Lemma step_closed op cb :
  1 <= maxFailures cb <= maxInt64 ->
  (state cb = StateClosed -> 0 <= failures cb < maxFailures cb) ->
  state (step op cb) = StateClosed ->
  0 <= failures (step op cb) < maxFailures (step op cb).
Proof.
  destruct cb as [mf tmo st f l]. cbn. intros Hmf Hinv.
  destruct op as [now| |now]; cbn.
  - unfold Allow; cbn. destruct st; cbn; try done.
    destruct (tmo <=? _); cbn; done.
  - destruct st; cbn; intros; lia.
  - unfold RecordFailure; cbn. destruct st; cbn; try done.
    + specialize (Hinv eq_refl).
      rewrite wrap64_id by (unfold inInt64, minInt64, maxInt64 in *; lia).
      destruct (Z.leb_spec mf (f + 1)); cbn; [done|]. lia.
    + by destruct (mf <=? wrap64 (f + 1)).
Qed.

(** X6.  Whatever calls were made on a breaker created with
    [1 <= maxFailures], while it is Closed its failure counter is below
    [maxFailures] (and not negative): a Closed breaker has never yet seen
    [maxFailures] failures in a row. *)
Theorem closed_below_threshold (mf : Z) (tmo : Duration) (ops : list Op) :
  1 <= mf <= maxInt64 ->
  state (runOps ops (New mf tmo)) = StateClosed ->
  0 <= failures (runOps ops (New mf tmo)) < mf.
Proof.
  intros Hmf.
  assert (Hgen : forall cb,
             maxFailures cb = mf ->
             (state cb = StateClosed -> 0 <= failures cb < mf) ->
             maxFailures (runOps ops cb) = mf /\
             (state (runOps ops cb) = StateClosed ->
              0 <= failures (runOps ops cb) < mf)).
  { induction ops as [|op ops IH]; intros cb Hcb Hinv; [done|].
    cbn [runOps fold_left]. apply IH.
    - by rewrite step_maxFailures.
    - intros Hs. pose proof (step_closed op cb) as H.
      rewrite step_maxFailures, Hcb in H. by apply H. }
  apply Hgen; [done|]. cbn. lia.
Qed.

Lemma closed_below_threshold_witness :
  0 <= failures (runOps [OpRecordFailure 5; OpAllow 6; OpRecordSuccess;
                         OpRecordFailure 9] (New 2 50)) < 2.
Proof.
  apply (closed_below_threshold 2 50); [unfold maxInt64; lia | reflexivity].
Defined.

Lemma failures_in_a_row nows : forall cb,
  (state cb = StateClosed /\ failures cb < maxFailures cb)
  \/ (state cb = StateOpen /\ maxFailures cb <= failures cb) ->
  0 <= failures cb ->
  failures cb + Z.of_nat (length nows) <= maxInt64 ->
  failures (runOps (OpRecordFailure <$> nows) cb)
    = failures cb + Z.of_nat (length nows) /\
  state (runOps (OpRecordFailure <$> nows) cb)
    = if failures cb + Z.of_nat (length nows) <? maxFailures cb
      then StateClosed else StateOpen.
Proof.
  induction nows as [|now nows IH]; intros cb Hst Hf Hmax.
  - cbn. rewrite Z.add_0_r. split; [done|].
    destruct (Z.ltb_spec (failures cb) (maxFailures cb)); destruct Hst as [[? ?]|[? ?]];
      first [done|lia].
  - cbn [fmap list_fmap runOps fold_left length] in *.
    fold (runOps (OpRecordFailure <$> nows) (step (OpRecordFailure now) cb)).
    assert (Hstep : failures (step (OpRecordFailure now) cb) = failures cb + 1 /\
                    maxFailures (step (OpRecordFailure now) cb) = maxFailures cb /\
                    state (step (OpRecordFailure now) cb)
                    = if failures cb + 1 <? maxFailures cb
                      then StateClosed else StateOpen).
    { destruct cb as [mf tmo st f l]. cbn in *. unfold RecordFailure. cbn.
      rewrite wrap64_id by (unfold inInt64, minInt64, maxInt64 in *; lia).
      destruct Hst as [[-> Hlt]|[-> Hge]]; cbn;
        destruct (Z.leb_spec mf (f + 1)); destruct (Z.ltb_spec (f + 1) mf);
        cbn; first [done|lia]. }
    destruct Hstep as (Hf1 & Hmf1 & Hs1).
    destruct (IH (step (OpRecordFailure now) cb)) as [H1 H2].
    + rewrite Hf1, Hmf1, Hs1.
      destruct (Z.ltb_spec (failures cb + 1) (maxFailures cb)); [left|right];
        (split; [done|lia]).
    + lia.
    + lia.
    + rewrite H1, H2, Hf1, Hmf1.
      replace (failures cb + 1 + Z.of_nat (length nows))
        with (failures cb + Z.of_nat (S (length nows))) by lia.
      done.
Qed.

(** X7.  A Closed breaker whose failure counter is 0 (a new one, or one
    just after a success) with [1 <= maxFailures] stays Closed through
    fewer than [maxFailures] failures in a row and is Open from the
    [maxFailures]-th on, at whatever times the failures are recorded. *)
Theorem consecutive_failures_trip (cb : CircuitBreaker) (nows : list Time) :
  state cb = StateClosed -> failures cb = 0 -> 1 <= maxFailures cb ->
  Z.of_nat (length nows) <= maxInt64 ->
  state (runOps (OpRecordFailure <$> nows) cb)
    = if Z.of_nat (length nows) <? maxFailures cb then StateClosed else StateOpen.
Proof.
  intros Hs Hf Hmf Hlen.
  destruct (failures_in_a_row nows cb) as [_ H]; [left; split; [done|lia] |lia|lia|].
  by rewrite H, Hf.
Qed.

Lemma consecutive_failures_trip_witness :
  state (runOps (OpRecordFailure <$> [1; 2; 3]) (New 3 50))
    = if Z.of_nat (length [1; 2; 3]) <? maxFailures (New 3 50)
      then StateClosed else StateOpen.
Proof.
  apply (consecutive_failures_trip (New 3 50) [1; 2; 3]);
    first [reflexivity | cbn; unfold maxInt64; lia].
Defined.

End CircuitBreaker.

(** ** One breaker per backend (perbackend.go) *)

Module PerBackend.
Import GoInt GoTime.

Record PerBackend := mkPerBackend {
  breakers : gmap string CircuitBreaker.CircuitBreaker;
  maxFailures : Z;
  timeout : Duration
}.

Definition NewPerBackend (maxFailures : Z) (timeout : Duration) : PerBackend :=
  {| breakers := ∅; maxFailures := maxFailures; timeout := timeout |}.

Definition setBreaker (backend : string) (cb : CircuitBreaker.CircuitBreaker)
    (pb : PerBackend) : PerBackend :=
  {| breakers := <[backend := cb]> (breakers pb);
     maxFailures := maxFailures pb; timeout := timeout pb |}.

(** [get]: the backend's breaker, made on first use. *)
Definition get (backend : string) (pb : PerBackend)
  : CircuitBreaker.CircuitBreaker * PerBackend :=
  match breakers pb !! backend with
  | Some cb => (cb, pb)
  | None =>
      let cb := CircuitBreaker.New (maxFailures pb) (timeout pb) in
      (cb, setBreaker backend cb pb)
  end.

(** The methods work on the breaker [get] returns; the map holds a pointer
    to it, so what they change is what the map holds afterwards. *)
Definition Allow (now : Time) (backend : string) (pb : PerBackend) : bool * PerBackend :=
  let '(cb, pb) := get backend pb in
  let '(ok, cb) := CircuitBreaker.Allow now cb in
  (ok, setBreaker backend cb pb).

Definition RecordSuccess (backend : string) (pb : PerBackend) : PerBackend :=
  let '(cb, pb) := get backend pb in
  setBreaker backend (CircuitBreaker.RecordSuccess cb) pb.

Definition RecordFailure (now : Time) (backend : string) (pb : PerBackend) : PerBackend :=
  let '(cb, pb) := get backend pb in
  setBreaker backend (CircuitBreaker.RecordFailure now cb) pb.

Definition State (backend : string) (pb : PerBackend)
  : CircuitBreaker.State * PerBackend :=
  let '(cb, pb) := get backend pb in
  (CircuitBreaker.getState cb, pb).

(** A call on the manager: the backend and the method. *)
Inductive Call :=
| CallOp (backend : string) (op : CircuitBreaker.Op)
| CallState (backend : string).

Definition stepCall (c : Call) (pb : PerBackend) : PerBackend :=
  match c with
  | CallOp backend (CircuitBreaker.OpAllow now) => snd (Allow now backend pb)
  | CallOp backend CircuitBreaker.OpRecordSuccess => RecordSuccess backend pb
  | CallOp backend (CircuitBreaker.OpRecordFailure now) => RecordFailure now backend pb
  | CallState backend => snd (State backend pb)
  end.

Definition runCalls (calls : list Call) (pb : PerBackend) : PerBackend :=
  fold_left (fun pb c => stepCall c pb) calls pb.

(** The breaker a backend has, or would be given on first use. *)
Definition breakerOf (backend : string) (pb : PerBackend) : CircuitBreaker.CircuitBreaker :=
  default (CircuitBreaker.New (maxFailures pb) (timeout pb)) (breakers pb !! backend).

(** The calls of a history that reach the breaker of [backend]. *)
Definition opsOn (backend : string) (calls : list Call) : list CircuitBreaker.Op :=
  omap (fun c => match c with
                 | CallOp b op => if decide (b = backend) then Some op else None
                 | CallState _ => None
                 end) calls.

Lemma get_breakerOf backend pb :
  fst (get backend pb) = breakerOf backend pb /\
  maxFailures (snd (get backend pb)) = maxFailures pb /\
  timeout (snd (get backend pb)) = timeout pb /\
  forall b, breakerOf b (snd (get backend pb)) = breakerOf b pb.
Proof.
  unfold get, breakerOf. destruct (breakers pb !! backend) as [cb|] eqn:E; cbn.
  - done.
  - repeat split. intros b. destruct (decide (b = backend)) as [->|Hne].
    + by rewrite lookup_insert_eq, E.
    + by rewrite lookup_insert_ne.
Qed.

Lemma breakerOf_setBreaker b backend cb pb :
  breakerOf b (setBreaker backend cb pb)
  = if decide (b = backend) then cb else breakerOf b pb.
Proof.
  unfold breakerOf, setBreaker. cbn.
  destruct (decide (b = backend)) as [->|Hne].
  - by rewrite lookup_insert_eq.
  - by rewrite lookup_insert_ne.
Qed.

Lemma stepCall_breakerOf c pb b :
  maxFailures (stepCall c pb) = maxFailures pb /\
  timeout (stepCall c pb) = timeout pb /\
  breakerOf b (stepCall c pb)
  = match c with
    | CallOp backend op =>
        if decide (b = backend) then CircuitBreaker.step op (breakerOf b pb)
        else breakerOf b pb
    | CallState _ => breakerOf b pb
    end.
Proof.
  destruct c as [backend op|backend]; cbn [stepCall].
  - destruct (get_breakerOf backend pb) as (Hcb & Hmf & Htmo & Hother).
    destruct op as [now| |now]; unfold Allow, RecordSuccess, RecordFailure;
      destruct (get backend pb) as [cb pb1]; cbn [fst snd] in *;
      try destruct (CircuitBreaker.Allow now cb) as [ok cb'] eqn:EA; cbn [snd];
      rewrite breakerOf_setBreaker; (split; [done|]); (split; [done|]);
      destruct (decide (b = backend)) as [->|Hne]; rewrite ?Hother; try done.
    + cbn. by rewrite <- Hcb, EA.
    + cbn. by rewrite <- Hcb.
    + cbn. by rewrite <- Hcb.
  - destruct (get_breakerOf backend pb) as (Hcb & Hmf & Htmo & Hother).
    unfold State. destruct (get backend pb) as [cb pb1]. cbn [fst snd] in *.
    by rewrite Hother.
Qed.

Lemma runCalls_breakerOf calls : forall pb b,
  breakerOf b (runCalls calls pb)
  = CircuitBreaker.runOps (opsOn b calls) (breakerOf b pb).
Proof.
  induction calls as [|c calls IH]; intros pb b; [done|].
  cbn [runCalls fold_left]. fold (runCalls calls (stepCall c pb)).
  rewrite IH. destruct (stepCall_breakerOf c pb b) as (_ & _ & ->).
  unfold opsOn. cbn [omap list_omap].
  destruct c as [backend op|backend]; [|done].
  destruct (decide (backend = b)) as [->|Hne].
  - rewrite decide_True by done. reflexivity.
  - rewrite decide_False by done. reflexivity.
Qed.

(** X8.  Each backend's circuit is its own.  After any history of calls on
    the manager, the breaker of a backend is the one a single
    [CircuitBreaker], created with the manager's [maxFailures] and
    [timeout] on first use, reaches under just the calls made for that
    backend; [Allow] and [State] for the backend answer as that breaker
    does.  Calls for other backends never change what a backend's [Allow]
    or [State] answers. *)
Theorem per_backend_isolation (calls : list Call) (pb : PerBackend) (b : string) :
  (forall now,
      fst (Allow now b (runCalls calls pb))
      = fst (CircuitBreaker.Allow now
               (CircuitBreaker.runOps (opsOn b calls) (breakerOf b pb)))) /\
  fst (State b (runCalls calls pb))
  = CircuitBreaker.state (CircuitBreaker.runOps (opsOn b calls) (breakerOf b pb)) /\
  (opsOn b calls = [] ->
   (forall now, fst (Allow now b (runCalls calls pb)) = fst (Allow now b pb)) /\
   fst (State b (runCalls calls pb)) = fst (State b pb)).
Proof.
  assert (HA : forall now pb', fst (Allow now b pb')
                               = fst (CircuitBreaker.Allow now (breakerOf b pb'))).
  { intros now pb'. unfold Allow.
    destruct (get_breakerOf b pb') as (<- & _). destruct (get b pb') as [cb pb1].
    cbn [fst]. by destruct (CircuitBreaker.Allow now cb). }
  assert (HS : forall pb', fst (State b pb') = CircuitBreaker.state (breakerOf b pb')).
  { intros pb'. unfold State.
    destruct (get_breakerOf b pb') as (<- & _). by destruct (get b pb'). }
  split; [|split].
  - intros now. by rewrite HA, runCalls_breakerOf.
  - by rewrite HS, runCalls_breakerOf.
  - intros Hnone. split.
    + intros now. by rewrite !HA, runCalls_breakerOf, Hnone.
    + by rewrite !HS, runCalls_breakerOf, Hnone.
Qed.

Lemma Allow_breakerOf now backend pb :
  fst (Allow now backend pb) = fst (CircuitBreaker.Allow now (breakerOf backend pb)) /\
  snd (Allow now backend pb) = stepCall (CallOp backend (CircuitBreaker.OpAllow now)) pb.
Proof.
  split; [|done]. unfold Allow.
  destruct (get_breakerOf backend pb) as (<- & _). destruct (get backend pb) as [cb pb1].
  cbn [fst]. by destruct (CircuitBreaker.Allow now cb).
Qed.

Lemma State_breakerOf backend pb :
  fst (State backend pb) = CircuitBreaker.state (breakerOf backend pb).
Proof.
  unfold State. destruct (get_breakerOf backend pb) as (<- & _).
  by destruct (get backend pb).
Qed.

End PerBackend.

(** ** Load balancers (package lb) *)

Module LB.
Import GoInt.

(** A call either returns or stops the goroutine with a run-time panic. *)
Inductive outcome (A : Type) : Type :=
| Returns (a : A)
| Panics.
Arguments Returns {A} a.
Arguments Panics {A}.

(** *** Round robin *)

Module RoundRobin.

Record RoundRobin := mkRoundRobin {
  backends : list string;
  counter : Z   (* uint64 *)
}.

Definition NewRoundRobin (backends : list string) : RoundRobin :=
  {| backends := backends; counter := 0 |}.

(** [atomic.AddUint64] stores and returns the incremented counter; the
    remainder by [uint64(len(backends))] panics when the list is empty. *)
Definition Next (rr : RoundRobin) : outcome string * RoundRobin :=
  let idx := wrapU64 (counter rr + 1) in
  let rr' := {| backends := backends rr; counter := idx |} in
  let n := Z.of_nat (length (backends rr)) in
  if n =? 0 then (Panics, rr')
  else
    match backends rr !! Z.to_nat (idx mod n) with
    | Some b => (Returns b, rr')
    | None => (Panics, rr')
    end.

(** [n] successive calls of [Next]: the answers in order and the balancer
    afterwards. *)
Fixpoint run (n : nat) (rr : RoundRobin) : list (outcome string) * RoundRobin :=
  match n with
  | O => ([], rr)
  | S n' =>
      let '(r, rr1) := Next rr in
      let '(rs, rr2) := run n' rr1 in
      (r :: rs, rr2)
  end.

Lemma Next_index rr :
  backends rr <> [] -> 0 <= counter rr -> counter rr + 1 < 2 ^ 64 ->
  Next rr =
    (from_option Returns Panics
       (backends rr !! Z.to_nat ((counter rr + 1) mod Z.of_nat (length (backends rr)))),
     {| backends := backends rr; counter := counter rr + 1 |}).
Proof.
  intros Hne Hc Hlt. unfold Next, wrapU64.
  rewrite (Z.mod_small (counter rr + 1)) by lia.
  destruct (backends rr) as [|b bs] eqn:E; [done|].
  destruct (Z.eqb_spec (Z.of_nat (length (b :: bs))) 0) as [H0|_];
    [cbn [length] in H0; lia|].
  destruct ((b :: bs) !! _); reflexivity.
Qed.

Lemma rr_run_counter k : forall rr,
  backends rr <> [] -> 0 <= counter rr -> counter rr + Z.of_nat k < 2 ^ 64 ->
  snd (run k rr) = {| backends := backends rr; counter := counter rr + Z.of_nat k |}.
Proof.
  induction k as [|k IH]; intros rr Hne Hc Hlt.
  - destruct rr as [bs c]. cbn. f_equal. lia.
  - cbn [run]. rewrite Next_index by first [assumption|lia].
    specialize (IH {| backends := backends rr; counter := counter rr + 1 |}).
    cbn [backends counter] in IH. specialize (IH Hne ltac:(lia) ltac:(lia)).
    destruct (run k _) as [rs rr2]. cbn [snd] in *. rewrite IH. f_equal. lia.
Qed.

Lemma rr_run_length k : forall rr, length (fst (run k rr)) = k.
Proof.
  induction k as [|k IH]; intros rr; [done|].
  cbn [run]. destruct (Next rr) as [r rr1]. specialize (IH rr1).
  destruct (run k rr1) as [rs rr2]. cbn in *. by rewrite IH.
Qed.

Lemma rr_run_lookup k : forall rr (i : nat),
  backends rr <> [] -> 0 <= counter rr -> counter rr + Z.of_nat k < 2 ^ 64 ->
  (i < k)%nat ->
  fst (run k rr) !! i =
    Returns <$> backends rr
      !! Z.to_nat ((counter rr + 1 + Z.of_nat i) mod Z.of_nat (length (backends rr))).
Proof.
  induction k as [|k IH]; intros rr i Hne Hc Hlt Hi; [lia|].
  cbn [run]. rewrite Next_index by first [assumption|lia].
  specialize (IH {| backends := backends rr; counter := counter rr + 1 |}).
  cbn [backends counter] in IH.
  assert (Hn : 0 < Z.of_nat (length (backends rr)))
    by (destruct (backends rr); [done|cbn [length]; lia]).
  destruct (run k _) as [rs rr2] eqn:E. cbn [fst] in *.
  destruct i as [|i].
  - cbn [lookup list_lookup]. rewrite Z.add_0_r.
    pose proof (Z.mod_pos_bound (counter rr + 1) _ Hn) as Hb.
    destruct (lookup_lt_is_Some_2 (backends rr)
                (Z.to_nat ((counter rr + 1) mod Z.of_nat (length (backends rr))))
                ltac:(lia)) as [b ->].
    reflexivity.
  - change ((from_option Returns Panics
               (backends rr !! Z.to_nat ((counter rr + 1)
                  mod Z.of_nat (length (backends rr)))) :: rs) !! S i)
      with (rs !! i).
    etrans; [apply (IH i); first [assumption|lia]|]. do 4 f_equal. lia.
Qed.

Lemma rr_run_app a b rr :
  run (a + b) rr =
    (fst (run a rr) ++ fst (run b (snd (run a rr))), snd (run b (snd (run a rr)))).
Proof.
  revert rr. induction a as [|a IH]; intros rr.
  - cbn. by destruct (run b rr).
  - cbn [Nat.add run]. destruct (Next rr) as [r rr1]. rewrite IH.
    destruct (run a rr1) as [rs rr2]. cbn. reflexivity.
Qed.

Lemma rr_run_cycle rr :
  backends rr <> [] -> 0 <= counter rr ->
  counter rr + Z.of_nat (length (backends rr)) < 2 ^ 64 ->
  fst (run (length (backends rr)) rr) =
    Returns <$> rotate (Z.to_nat ((counter rr + 1) mod Z.of_nat (length (backends rr))))
                       (backends rr).
Proof.
  intros Hne Hc Hlt.
  assert (Hn : 0 < Z.of_nat (length (backends rr)))
    by (destruct (backends rr); [done|cbn [length]; lia]).
  apply list_eq. intros i.
  destruct (decide (i < length (backends rr))%nat) as [Hi|Hi].
  - rewrite rr_run_lookup by first [assumption|lia]. rewrite list_lookup_fmap.
    rewrite lookup_rotate_r by lia. unfold rotate_nat_add.
    pose proof (Z.mod_pos_bound (counter rr + 1) _ Hn).
    rewrite Z2Nat.id by lia. rewrite Z.add_mod_idemp_l by lia. reflexivity.
  - rewrite !lookup_ge_None_2; [done| |].
    + rewrite length_fmap, length_rotate. lia.
    + rewrite rr_run_length. lia.
Qed.

(** X1.  Round robin serves the backends in turn.  On a non-empty list with
    the counter at [c], away from the end of the [uint64] range, [m] times
    [len(backends)] successive calls of [Next] return, [m] times over, the
    list rotated to start at index [(c + 1) mod len(backends)]: every
    backend once per cycle, in list order, and the first call of a new
    balancer returns [backends[1]]. *)
Theorem round_robin_cycles (m : nat) (rr : RoundRobin) :
  backends rr <> [] ->
  0 <= counter rr ->
  counter rr + Z.of_nat (m * length (backends rr)) < 2 ^ 64 ->
  fst (run (m * length (backends rr)) rr) =
    Returns <$> mjoin (replicate m
      (rotate (Z.to_nat ((counter rr + 1) mod Z.of_nat (length (backends rr))))
              (backends rr))).
Proof.
  revert rr. induction m as [|m IH]; intros rr Hne Hc Hlt; [done|].
  assert (Hn : 0 < Z.of_nat (length (backends rr)))
    by (destruct (backends rr); [done|cbn [length]; lia]).
  cbn [Nat.mul replicate mjoin list_join]. rewrite rr_run_app. cbn [fst].
  rewrite rr_run_cycle by first [assumption|lia]. rewrite rr_run_counter by first [assumption|lia].
  rewrite fmap_app. f_equal.
  specialize (IH {| backends := backends rr;
                    counter := counter rr + Z.of_nat (length (backends rr)) |}).
  cbn [backends counter] in IH. rewrite IH by (try done; lia).
  do 4 f_equal.
  replace (counter rr + Z.of_nat (length (backends rr)) + 1)
    with (counter rr + 1 + 1 * Z.of_nat (length (backends rr))) by lia.
  by rewrite Z.mod_add by lia.
Qed.

Lemma round_robin_cycles_witness :
  fst (run (2 * length (backends (NewRoundRobin ["a"; "b"; "c"]%string)))
           (NewRoundRobin ["a"; "b"; "c"]%string)) =
    Returns <$> mjoin (replicate 2
      (rotate (Z.to_nat ((counter (NewRoundRobin ["a"; "b"; "c"]%string) + 1)
                         mod Z.of_nat (length (backends (NewRoundRobin ["a"; "b"; "c"]%string)))))
              (backends (NewRoundRobin ["a"; "b"; "c"]%string)))).
Proof.
  apply (round_robin_cycles 2 (NewRoundRobin ["a"; "b"; "c"]%string)); cbn; [done|lia|lia].
Defined.

End RoundRobin.

(** *** Least connections *)

Module LeastConnections.

Record leastConnEntry := mkLeastConnEntry {
  addr : string;
  active : Z   (* atomic.Int64 *)
}.

Record LeastConnections := mkLeastConnections {
  entries : list leastConnEntry
}.

Definition NewLeastConnections (backends : list string) : LeastConnections :=
  {| entries := map (fun a => {| addr := a; active := 0 |}) backends |}.

Definition activeAt (es : list leastConnEntry) (i : nat) : Z :=
  from_option active 0 (es !! i).

(** The scan [for i := 1; i < len(entries); i++], with [n] iterations left. *)
Fixpoint scan (n i : nat) (es : list leastConnEntry)
    (bestIdx : nat) (bestCount : Z) : nat :=
  match n with
  | O => bestIdx
  | S n' =>
      let count := activeAt es i in
      if count <? bestCount then scan n' (S i) es i count
      else scan n' (S i) es bestIdx bestCount
  end.

Definition addActive (d : Z) (e : leastConnEntry) : leastConnEntry :=
  {| addr := addr e; active := wrap64 (active e + d) |}.

Definition Next (lc : LeastConnections) : string * LeastConnections :=
  match entries lc with
  | [] => (EmptyString, lc)
  | e0 :: _ =>
      let bestIdx := scan (length (entries lc) - 1) 1 (entries lc) 0 (active e0) in
      let es := alter (addActive 1) bestIdx (entries lc) in
      (from_option addr EmptyString (es !! bestIdx), {| entries := es |})
  end.

(** [Done]: the loop [for i := range entries] stops at the first entry with
    the address. *)
Fixpoint doneLoop (a : string) (es : list leastConnEntry) : list leastConnEntry :=
  match es with
  | [] => []
  | e :: rest =>
      if String.eqb (addr e) a then addActive (-1) e :: rest
      else e :: doneLoop a rest
  end.

Definition Done (a : string) (lc : LeastConnections) : LeastConnections :=
  {| entries := doneLoop a (entries lc) |}.

(** What the scan keeps: [bestIdx] is the first index below [i] whose count
    is least. *)
Definition firstLeast (es : list leastConnEntry) (i best : nat) : Prop :=
  (best < i)%nat /\
  (forall j, (j < i)%nat -> activeAt es best <= activeAt es j) /\
  (forall j, (j < best)%nat -> activeAt es best < activeAt es j).

Lemma scan_firstLeast es n : forall i best,
  firstLeast es i best ->
  firstLeast es (i + n) (scan n i es best (activeAt es best)).
Proof.
  induction n as [|n IH]; intros i best (Hlt & Hmin & Hfirst).
  - rewrite Nat.add_0_r. done.
  - cbn [scan]. replace (i + S n)%nat with (S i + n)%nat by lia.
    destruct (Z.ltb_spec (activeAt es i) (activeAt es best)) as [Hless|Hge].
    + apply IH. split; [lia|]. split.
      * intros j Hj. destruct (decide (j = i)) as [->|]; [lia|].
        specialize (Hmin j ltac:(lia)). lia.
      * intros j Hj. specialize (Hmin j Hj). lia.
    + apply IH. split; [lia|]. split; [|done].
      intros j Hj. destruct (decide (j = i)) as [->|]; [lia|].
      apply Hmin. lia.
Qed.

Lemma Next_firstLeast lc :
  entries lc <> [] ->
  exists i e,
    entries lc !! i = Some e /\
    firstLeast (entries lc) (length (entries lc)) i /\
    Next lc = (addr e, {| entries := alter (addActive 1) i (entries lc) |}).
Proof.
  intros Hne. unfold Next. destruct (entries lc) as [|e0 rest] eqn:E; [done|].
  set (es := e0 :: rest) in *.
  pose proof (scan_firstLeast es (length es - 1) 1 0) as Hscan.
  change (activeAt es 0) with (active e0) in Hscan.
  replace (1 + (length es - 1))%nat with (length es) in Hscan
    by (subst es; cbn [length]; lia).
  assert (H0 : firstLeast es 1 0).
  { split; [lia|]. split; [|intros; lia].
    intros j Hj. replace j with 0%nat by lia. lia. }
  specialize (Hscan H0). set (i := scan _ _ _ _ _) in *.
  destruct Hscan as (Hlt & Hmin & Hfirst).
  destruct (lookup_lt_is_Some_2 es i Hlt) as [e He].
  exists i, e. split; [done|]. split; [done|].
  rewrite list_lookup_alter_eq, He. reflexivity.
Qed.

Lemma addActive_back e :
  inInt64 (active e) -> addActive (-1) (addActive 1 e) = e.
Proof.
  destruct e as [a n]. unfold addActive, inInt64, minInt64, maxInt64. cbn.
  intros H. f_equal. unfold wrap64.
  destruct (decide (n = 2 ^ 63 - 1)) as [->|Hn]; [reflexivity|].
  rewrite (Z.mod_small (n + 1 + 2 ^ 63)) by lia.
  rewrite Z.mod_small by lia. lia.
Qed.

Lemma doneLoop_alter es : forall (i : nat) e,
  NoDup (addr <$> es) -> es !! i = Some e -> inInt64 (active e) ->
  doneLoop (addr e) (alter (addActive 1) i es) = es.
Proof.
  induction es as [|e0 rest IH]; intros i e Hnd Hi He; [done|].
  apply NoDup_cons in Hnd as [Hnotin Hnd].
  destruct i as [|i]; cbn in Hi.
  - injection Hi as ->. cbn. rewrite String.eqb_refl.
    by rewrite addActive_back.
  - cbn [alter list_alter doneLoop].
    destruct (String.eqb_spec (addr e0) (addr e)) as [Heq|_].
    + exfalso. apply Hnotin. rewrite Heq.
      apply list_elem_of_fmap. exists e. split; [done|].
      by eapply list_elem_of_lookup_2.
    + f_equal. by apply IH.
Qed.

Lemma doneLoop_unknown a es : a ∉ addr <$> es -> doneLoop a es = es.
Proof.
  induction es as [|e rest IH]; intros Hnotin; [done|].
  cbn [doneLoop]. rewrite fmap_cons in Hnotin.
  apply not_elem_of_cons in Hnotin as [Hne Hrest].
  destruct (String.eqb_spec (addr e) a) as [Heq|_]; [congruence|].
  f_equal. by apply IH.
Qed.

(** X2.  On a non-empty balancer [Next] returns the address of the first
    entry whose active count is least (no entry has a smaller count, and
    every entry before it has a strictly larger one), and adds one to that
    entry's count, leaving all other entries as they were. *)
Theorem next_picks_first_least (lc : LeastConnections) :
  entries lc <> [] ->
  exists (i : nat) (e : leastConnEntry),
    entries lc !! i = Some e /\
    (forall (j : nat) e', entries lc !! j = Some e' -> active e <= active e') /\
    (forall (j : nat) e', (j < i)%nat -> entries lc !! j = Some e' ->
                          active e < active e') /\
    fst (Next lc) = addr e /\
    entries (snd (Next lc)) = <[i := addActive 1 e]> (entries lc).
Proof.
  intros Hne. destruct (Next_firstLeast lc Hne) as (i & e & He & (Hlt & Hmin & Hfirst) & ->).
  assert (Hact : forall (j : nat) e', entries lc !! j = Some e' ->
                                      activeAt (entries lc) j = active e').
  { intros j e' Hj. unfold activeAt. by rewrite Hj. }
  exists i, e. split; [done|]. rewrite <- (Hact i e He). split; [|split; [|split]].
  - intros j e' Hj. rewrite <- (Hact j e' Hj). apply Hmin.
    by eapply lookup_lt_Some.
  - intros j e' Hji Hj. rewrite <- (Hact j e' Hj). by apply Hfirst.
  - reflexivity.
  - cbn [snd entries]. apply list_eq. intros k.
    destruct (decide (k = i)) as [->|Hk].
    + rewrite list_lookup_alter_eq, list_lookup_insert_eq by done. by rewrite He.
    + by rewrite list_lookup_alter_ne, list_lookup_insert_ne by done.
Qed.

Lemma next_picks_first_least_witness :
  exists (i : nat) (e : leastConnEntry),
    [mkLeastConnEntry "a" 2; mkLeastConnEntry "b" 1; mkLeastConnEntry "c" 1] !! i = Some e /\
    fst (Next {| entries := [mkLeastConnEntry "a" 2; mkLeastConnEntry "b" 1;
                             mkLeastConnEntry "c" 1] |}) = addr e.
Proof.
  destruct (next_picks_first_least
              {| entries := [mkLeastConnEntry "a" 2; mkLeastConnEntry "b" 1;
                             mkLeastConnEntry "c" 1] |})
    as (i & e & He & _ & _ & Haddr & _); [done|].
  exists i, e. split; [exact He | exact Haddr].
Defined.

(** X3.  [Next] and [Done] undo each other: when the addresses are
    distinct and the counts are [int64] values, calling [Done] with the
    address [Next] returned gives back the balancer as it was before
    [Next].  [Done] with an address that is not in the balancer changes
    nothing. *)
Theorem next_done_round_trip (lc : LeastConnections) :
  NoDup (addr <$> entries lc) ->
  Forall (fun e => inInt64 (active e)) (entries lc) ->
  Done (fst (Next lc)) (snd (Next lc)) = lc /\
  (forall a, a ∉ addr <$> entries lc -> Done a lc = lc).
Proof.
  intros Hnd Hrange. split.
  - destruct lc as [es]. destruct es as [|e0 rest]; [done|].
    destruct (Next_firstLeast {| entries := e0 :: rest |}) as (i & e & He & _ & ->);
      [done|].
    cbn [fst snd entries] in *. unfold Done. cbn [entries]. f_equal.
    apply doneLoop_alter; [done|done|].
    rewrite Forall_forall in Hrange. apply Hrange.
    by eapply list_elem_of_lookup_2.
  - intros a Ha. destruct lc as [es]. unfold Done. cbn [entries] in *.
    f_equal. by apply doneLoop_unknown.
Qed.

Lemma next_done_round_trip_witness :
  Done (fst (Next (NewLeastConnections ["a"; "b"]%string)))
       (snd (Next (NewLeastConnections ["a"; "b"]%string)))
  = NewLeastConnections ["a"; "b"]%string.
Proof.
  apply (next_done_round_trip (NewLeastConnections ["a"; "b"]%string)).
  - apply (bool_decide_unpack _). vm_compute. exact I.
  - cbn. repeat constructor; cbn; unfold minInt64, maxInt64; lia.
Defined.

(** *** Even load without [Done] *)

(** [n] calls of [Next] in a row, none of the requests finishing. *)
Fixpoint run (n : nat) (lc : LeastConnections) : list string * LeastConnections :=
  match n with
  | O => ([], lc)
  | S n' =>
      let '(a, lc1) := Next lc in
      let '(rest, lc2) := run n' lc1 in
      (a :: rest, lc2)
  end.

Definition totalActive (es : list leastConnEntry) : Z :=
  foldr Z.add 0 (active <$> es).

(** No two counts differ by more than one. *)
Definition level (es : list leastConnEntry) : Prop :=
  forall (i j : nat) e e', es !! i = Some e -> es !! j = Some e' ->
                           active e <= active e' + 1.

Lemma totalActive_alter es : forall (i : nat) e,
  es !! i = Some e ->
  totalActive (alter (addActive 1) i es) = totalActive es - active e + active (addActive 1 e).
Proof.
  unfold totalActive. induction es as [|x es IH]; intros i e Hi; [done|].
  destruct i as [|i]; cbn in Hi.
  - injection Hi as ->. cbn. lia.
  - cbn [alter list_alter fmap list_fmap foldr]. fold (alter (addActive 1) i es).
    change (list_fmap _ _ active (alter (addActive 1) i es))
      with (active <$> alter (addActive 1) i es).
    change (list_fmap _ _ active es) with (active <$> es).
    rewrite (IH i e Hi). lia.
Qed.

Lemma Next_level lc n :
  entries lc <> [] ->
  level (entries lc) -> totalActive (entries lc) = n ->
  Forall (fun e => 0 <= active e) (entries lc) -> n < maxInt64 ->
  level (entries (snd (Next lc))) /\
  totalActive (entries (snd (Next lc))) = n + 1 /\
  Forall (fun e => 0 <= active e) (entries (snd (Next lc))) /\
  length (entries (snd (Next lc))) = length (entries lc) /\
  addr <$> entries (snd (Next lc)) = addr <$> entries lc.
Proof.
  intros Hne Hlevel Htotal Hpos Hmax.
  destruct (Next_firstLeast lc Hne) as (i & e & He & (Hlt & Hmin & _) & ->).
  cbn [snd entries].
  assert (Hact : forall (j : nat) e', entries lc !! j = Some e' ->
                                      activeAt (entries lc) j = active e').
  { intros j e' Hj. unfold activeAt. by rewrite Hj. }
  assert (Hbound : forall (j : nat) e', entries lc !! j = Some e' -> active e' <= n).
  { intros j e' Hj. rewrite <- Htotal. clear -Hj Hpos. unfold totalActive.
    revert j Hj. induction Hpos as [|x l Hx Hl IH]; intros j Hj; [done|].
    assert (0 <= foldr Z.add 0 (active <$> l))
      by (clear -Hl; induction Hl; cbn; lia).
    destruct j as [|j]; cbn in Hj.
    - injection Hj as ->. cbn. lia.
    - specialize (IH j Hj). cbn. lia. }
  assert (Hinc : active (addActive 1 e) = active e + 1).
  { unfold addActive. cbn. apply wrap64_id.
    rewrite Forall_forall in Hpos.
    pose proof (Hpos e ltac:(by eapply list_elem_of_lookup_2)).
    pose proof (Hbound i e He). unfold inInt64, minInt64, maxInt64 in *. lia. }
  split; [|split; [|split; [|split]]].
  - intros a b ea eb Ha Hb.
    destruct (decide (a = i)) as [->|Hai]; destruct (decide (b = i)) as [->|Hbi].
    + rewrite Ha in Hb. injection Hb as ->. lia.
    + rewrite list_lookup_alter_eq, He in Ha. injection Ha as <-.
      rewrite list_lookup_alter_ne in Hb by done.
      pose proof (Hmin b ltac:(by eapply lookup_lt_Some)) as Hle.
      rewrite (Hact i e He), (Hact b eb Hb) in Hle. lia.
    + rewrite list_lookup_alter_eq, He in Hb. injection Hb as <-.
      rewrite list_lookup_alter_ne in Ha by done.
      pose proof (Hlevel a i ea e Ha He). lia.
    + rewrite list_lookup_alter_ne in Ha, Hb by done. by apply (Hlevel a b).
  - rewrite (totalActive_alter _ i e He). lia.
  - apply Forall_forall. intros x Hx. apply list_elem_of_lookup_1 in Hx as [j Hj].
    rewrite Forall_forall in Hpos.
    destruct (decide (j = i)) as [->|Hji].
    + rewrite list_lookup_alter_eq, He in Hj. injection Hj as <-.
      pose proof (Hpos e ltac:(by eapply list_elem_of_lookup_2)). lia.
    + rewrite list_lookup_alter_ne in Hj by done.
      apply Hpos. by eapply list_elem_of_lookup_2.
  - by rewrite length_alter.
  - apply list_eq. intros j. rewrite !list_lookup_fmap.
    destruct (decide (j = i)) as [->|Hji].
    + by rewrite list_lookup_alter_eq, He.
    + by rewrite list_lookup_alter_ne.
Qed.

(** X28.  With no request finishing, least connections spreads the load
    evenly.  After [n] calls of [Next] on a new balancer over a non-empty
    list, the active counts add up to [n] and no two of them differ by
    more than one; each call returns one of the backends. *)
Theorem least_connections_even (backends : list string) (n : nat) :
  backends <> [] -> Z.of_nat n < maxInt64 ->
  let lc := snd (run n (NewLeastConnections backends)) in
  totalActive (entries lc) = Z.of_nat n /\
  level (entries lc) /\
  addr <$> entries lc = backends /\
  Forall (fun a => a ∈ backends) (fst (run n (NewLeastConnections backends))).
Proof.
  intros Hne Hn. cbv zeta.
  assert (Hgen : forall k lc m,
             entries lc <> [] -> level (entries lc) ->
             totalActive (entries lc) = m ->
             Forall (fun e => 0 <= active e) (entries lc) ->
             m + Z.of_nat k < maxInt64 ->
             totalActive (entries (snd (run k lc))) = m + Z.of_nat k /\
             level (entries (snd (run k lc))) /\
             addr <$> entries (snd (run k lc)) = addr <$> entries lc /\
             Forall (fun a => a ∈ addr <$> entries lc) (fst (run k lc))).
  { induction k as [|k IH]; intros lc m Hne' Hlevel Htotal Hpos Hmax.
    - cbn. split; [lia|]. done.
    - cbn [run].
      destruct (Next_level lc m Hne' Hlevel Htotal Hpos ltac:(lia))
        as (Hl1 & Ht1 & Hp1 & Hlen1 & Ha1).
      destruct (Next_firstLeast lc Hne') as (i & e & He & _ & HN).
      rewrite HN in *. cbn [snd] in *.
      set (lc1 := {| entries := alter (addActive 1) i (entries lc) |}) in *.
      destruct (IH lc1 (m + 1)) as (Ht2 & Hl2 & Ha2 & Hin2); try done.
      { intros Hnil. apply (f_equal length) in Hnil. rewrite Hlen1 in Hnil.
        destruct (entries lc); [done|cbn in Hnil; lia]. }
      { lia. }
      destruct (run k lc1) as [rest lc2]. cbn [fst snd] in *.
      split; [lia|]. split; [done|]. split; [congruence|].
      constructor.
      + apply list_elem_of_fmap. exists e. split; [done|].
        by eapply list_elem_of_lookup_2.
      + by rewrite <- Ha1. }
  assert (Haddr : addr <$> entries (NewLeastConnections backends) = backends).
  { cbn. clear. induction backends as [|b bs IH]; [done|]. cbn. by rewrite IH. }
  destruct (Hgen n (NewLeastConnections backends) 0) as (Ht & Hl & Ha & Hin).
  - cbn. by destruct backends.
  - assert (Hidle : Forall (fun e => active e = 0)
                            (entries (NewLeastConnections backends))).
    { cbn. clear. induction backends as [|b bs IH]; constructor; done. }
    rewrite Forall_forall in Hidle. intros i j e e' Hi Hj.
    rewrite (Hidle e), (Hidle e') by (by eapply list_elem_of_lookup_2). lia.
  - cbn. clear. unfold totalActive. induction backends as [|b bs IH]; [done|].
    cbn in *. lia.
  - cbn. clear. induction backends as [|b bs IH]; constructor; [cbn; lia|done].
  - lia.
  - rewrite Haddr in *. split; [lia|]. done.
Qed.

Lemma least_connections_even_witness :
  totalActive (entries (snd (run 5 (NewLeastConnections ["a"; "b"; "c"]%string)))) = 5 /\
  level (entries (snd (run 5 (NewLeastConnections ["a"; "b"; "c"]%string)))).
Proof.
  destruct (least_connections_even ["a"; "b"; "c"]%string 5) as (Ht & Hl & _);
    [done | unfold maxInt64; lia |].
  split; [exact Ht | exact Hl].
Defined.

End LeastConnections.

(** *** Smooth weighted round robin *)

Module WeightedRoundRobin.

Record WeightedBackend := mkWeightedBackend {
  Addr : string;
  Weight : Z
}.

Record weightedEntry := mkWeightedEntry {
  addr : string;
  weight : Z;
  currentWeight : Z
}.

Record WeightedRoundRobin := mkWeightedRoundRobin {
  entries : list weightedEntry;
  totalWeight : Z
}.

(** The weight the constructor gives a backend: [Weight <= 0] defaults to 1. *)
Definition effWeight (b : WeightedBackend) : Z :=
  if Weight b <=? 0 then 1 else Weight b.

Definition newEntry (b : WeightedBackend) : weightedEntry :=
  {| addr := Addr b; weight := effWeight b; currentWeight := 0 |}.

Definition NewWeightedRoundRobin (backends : list WeightedBackend) : WeightedRoundRobin :=
  {| entries := newEntry <$> backends;
     totalWeight := fold_left (fun total b => wrap64 (total + effWeight b)) backends 0 |}.

Definition addWeight (e : weightedEntry) : weightedEntry :=
  {| addr := addr e; weight := weight e;
     currentWeight := wrap64 (currentWeight e + weight e) |}.

Definition subTotal (total : Z) (e : weightedEntry) : weightedEntry :=
  {| addr := addr e; weight := weight e;
     currentWeight := wrap64 (currentWeight e - total) |}.

Definition cwAt (es : list weightedEntry) (i : nat) : Z :=
  from_option currentWeight 0 (es !! i).

(** The loop [for i := range entries] from index [i] on, with [n] iterations
    left: entry [i] gains its weight, then is compared with the best so far. *)
Fixpoint scan (n i : nat) (es : list weightedEntry) (bestIdx : nat)
    : list weightedEntry * nat :=
  match n with
  | O => (es, bestIdx)
  | S n' =>
      let es := alter addWeight i es in
      let bestIdx := if cwAt es bestIdx <? cwAt es i then i else bestIdx in
      scan n' (S i) es bestIdx
  end.

Definition Next (wrr : WeightedRoundRobin) : string * WeightedRoundRobin :=
  match entries wrr with
  | [] => (EmptyString, wrr)
  | _ :: _ =>
      let '(es, bestIdx) := scan (length (entries wrr)) 0 (entries wrr) 0 in
      let es := alter (subTotal (totalWeight wrr)) bestIdx es in
      (from_option addr EmptyString (es !! bestIdx),
       {| entries := es; totalWeight := totalWeight wrr |})
  end.

(** [n] consecutive calls of [Next]: the backends returned, in order, and
    the balancer after the last call. *)
Fixpoint run (n : nat) (wrr : WeightedRoundRobin) : list string * WeightedRoundRobin :=
  match n with
  | O => ([], wrr)
  | S n' =>
      let '(b, wrr1) := Next wrr in
      let '(bs, wrr2) := run n' wrr1 in
      (b :: bs, wrr2)
  end.

Definition outputs (n : nat) (wrr : WeightedRoundRobin) : list string :=
  fst (run n wrr).

(** The sum of [g] over a list. *)
Fixpoint sumOver {A : Type} (g : A -> Z) (l : list A) : Z :=
  match l with
  | [] => 0
  | x :: l' => g x + sumOver g l'
  end.

(** Sum of the effective weights of all backends, and of those with a given
    address. *)
Definition sumWeights (backends : list WeightedBackend) : Z :=
  sumOver effWeight backends.

Definition weightOf (a : string) (backends : list WeightedBackend) : Z :=
  sumOver (fun b => if decide (Addr b = a) then effWeight b else 0) backends.

(** How many times [a] occurs in a list of returned backends. *)
Definition countOf (a : string) (outs : list string) : Z :=
  sumOver (fun b => if decide (b = a) then 1 else 0) outs.

(** **** The scan selects a maximal current weight *)

(** Index of the first maximum of [bestv :: l], where [bestv] sits at index
    [best] and [l] starts at index [i]. *)
Fixpoint argmaxFrom (l : list Z) (i best : nat) (bestv : Z) : nat :=
  match l with
  | [] => best
  | x :: l' =>
      if bestv <? x then argmaxFrom l' (S i) i x
      else argmaxFrom l' (S i) best bestv
  end.

Definition pick (vs : list Z) : nat :=
  match vs with
  | [] => O
  | v :: vs' => argmaxFrom vs' 1 0 v
  end.

Lemma argmaxFrom_max l : forall pre best bestv,
  pre !! best = Some bestv ->
  (forall x, x ∈ pre -> x <= bestv) ->
  exists v, (pre ++ l) !! argmaxFrom l (length pre) best bestv = Some v /\
            forall x, x ∈ pre ++ l -> x <= v.
Proof.
  induction l as [|x l IH]; intros pre best bestv Hb Hmax; simpl.
  - exists bestv. rewrite app_nil_r. auto.
  - replace (pre ++ x :: l) with ((pre ++ [x]) ++ l) by (by rewrite <- app_assoc).
    replace (S (length pre)) with (length (pre ++ [x]))
      by (rewrite length_app; simpl; lia).
    destruct (Z.ltb_spec bestv x).
    + apply IH.
      * by rewrite lookup_app_r, Nat.sub_diag.
      * intros y [Hy|Hy%list_elem_of_singleton]%elem_of_app; [|lia].
        specialize (Hmax y Hy). lia.
    + apply IH.
      * by apply lookup_app_l_Some.
      * intros y [Hy|Hy%list_elem_of_singleton]%elem_of_app; [|lia].
        by apply Hmax.
Qed.

Lemma pick_max vs :
  vs <> [] ->
  exists v, vs !! pick vs = Some v /\ forall x, x ∈ vs -> x <= v.
Proof.
  destruct vs as [|v vs]; [done|]. intros _. unfold pick.
  apply (argmaxFrom_max vs [v] O v); [done|].
  intros x Hx%list_elem_of_singleton. lia.
Qed.

Lemma scan_app suf : forall pre best,
  (best < length pre)%nat ->
  scan (length suf) (length pre) (pre ++ suf) best =
    (pre ++ (addWeight <$> suf),
     argmaxFrom ((fun e => currentWeight (addWeight e)) <$> suf)
       (length pre) best (cwAt pre best)).
Proof.
  induction suf as [|e suf IH]; intros pre best Hb;
    cbn [scan length fmap list_fmap argmaxFrom].
  - by rewrite !app_nil_r.
  - assert (Ha : alter addWeight (length pre) (pre ++ e :: suf)
                 = pre ++ addWeight e :: suf).
    { replace (length pre) with (length pre + 0)%nat at 1 by lia.
      by rewrite alter_app_r. }
    rewrite Ha.
    assert (Hbest : cwAt (pre ++ addWeight e :: suf) best = cwAt pre best).
    { unfold cwAt. by rewrite lookup_app_l. }
    assert (Hi : cwAt (pre ++ addWeight e :: suf) (length pre)
                 = currentWeight (addWeight e)).
    { unfold cwAt. by rewrite list_lookup_middle. }
    rewrite Hbest, Hi.
    replace (pre ++ addWeight e :: suf) with ((pre ++ [addWeight e]) ++ suf)
      by (by rewrite <- app_assoc).
    replace (S (length pre)) with (length (pre ++ [addWeight e]))
      by (rewrite length_app; simpl; lia).
    assert (Hlen : (length pre < length (pre ++ [addWeight e]))%nat)
      by (rewrite length_app; simpl; lia).
    destruct (cwAt pre best <? currentWeight (addWeight e)).
    + rewrite IH by done.
      rewrite <- app_assoc. cbn [app]. f_equal. f_equal.
      unfold cwAt. by rewrite list_lookup_middle.
    + rewrite IH by lia.
      rewrite <- app_assoc. cbn [app]. f_equal. f_equal.
      unfold cwAt. by rewrite lookup_app_l.
Qed.

(** The whole loop of [Next]: every entry gains its weight and [bestIdx] is
    the first index of a maximal current weight. *)
Lemma scan_all es :
  es <> [] ->
  scan (length es) 0 es 0 =
    (addWeight <$> es, pick ((fun e => currentWeight (addWeight e)) <$> es)).
Proof.
  destruct es as [|e es]; [done|]. intros _. simpl.
  change (cwAt (addWeight e :: es) 0) with (currentWeight (addWeight e)).
  rewrite Z.ltb_irrefl.
  apply (scan_app es [addWeight e] O). simpl. lia.
Qed.

(** **** Sums over the entries *)

Section Sums.
Context {A : Type}.
Implicit Types (g h : A -> Z) (l : list A).

Lemma sumOver_fmap {B : Type} (f : B -> A) g (l : list B) :
  sumOver g (f <$> l) = sumOver (fun x => g (f x)) l.
Proof. induction l as [|x l IH]; csimpl; [done|]. by rewrite IH. Qed.

Lemma sumOver_app g l1 l2 :
  sumOver g (l1 ++ l2) = sumOver g l1 + sumOver g l2.
Proof. induction l1 as [|x l1 IH]; simpl; [done|]. rewrite IH. lia. Qed.

Lemma sumOver_plus g h l :
  sumOver (fun x => g x + h x) l = sumOver g l + sumOver h l.
Proof. induction l as [|x l IH]; simpl; [done|]. rewrite IH. lia. Qed.

Lemma sumOver_const c l : sumOver (fun _ => c) l = c * Z.of_nat (length l).
Proof. induction l as [|x l IH]; simpl length; simpl sumOver; [lia|]. rewrite IH. lia. Qed.

Lemma sumOver_ext g h l :
  (forall x, x ∈ l -> g x = h x) -> sumOver g l = sumOver h l.
Proof.
  induction l as [|x l IH]; simpl; [done|]. intros H.
  rewrite (H x), IH; [done| |]; [|by left]. intros y Hy. apply H. by right.
Qed.

Lemma sumOver_alter f g l : forall i e,
  l !! i = Some e ->
  sumOver g (alter f i l) = sumOver g l + g (f e) - g e.
Proof.
  induction l as [|x l IH]; intros [|i] e He; simplify_eq/=; [lia|].
  rewrite (IH i e He). lia.
Qed.

Lemma sumOver_alter_same f g l i :
  (forall x, g (f x) = g x) -> sumOver g (alter f i l) = sumOver g l.
Proof.
  intros Hf. revert i. induction l as [|x l IH]; intros [|i]; csimpl; [done..| |].
  - by rewrite Hf.
  - by rewrite IH.
Qed.

Lemma sumOver_nonneg g l :
  (forall x, x ∈ l -> 0 <= g x) -> 0 <= sumOver g l.
Proof.
  induction l as [|x l IH]; simpl; [done|]. intros H.
  pose proof (H x ltac:(by left)).
  assert (0 <= sumOver g l) by (apply IH; intros y Hy; apply H; by right). lia.
Qed.

Lemma sumOver_elem_le g l e :
  (forall x, x ∈ l -> 0 <= g x) -> e ∈ l -> g e <= sumOver g l.
Proof.
  induction l as [|x l IH]; intros H He; [by apply elem_of_nil in He|].
  simpl. pose proof (H x ltac:(by left)).
  assert (Hl : forall y, y ∈ l -> 0 <= g y) by (intros y Hy; apply H; by right).
  pose proof (sumOver_nonneg g l Hl).
  apply elem_of_cons in He as [->|He]; [lia|].
  specialize (IH Hl He). lia.
Qed.

Lemma sumOver_zero g l e :
  (forall x, x ∈ l -> 0 <= g x) -> sumOver g l = 0 -> e ∈ l -> g e = 0.
Proof.
  intros H Hs He. pose proof (sumOver_elem_le g l e H He).
  pose proof (H e He). lia.
Qed.

End Sums.

(** **** One call of [Next] on a balancer whose integers do not overflow *)

(** The two updates of [Next] without the wrap-around. *)
Definition bumped (e : weightedEntry) : weightedEntry :=
  {| addr := addr e; weight := weight e;
     currentWeight := currentWeight e + weight e |}.

Definition lowered (total : Z) (e : weightedEntry) : weightedEntry :=
  {| addr := addr e; weight := weight e;
     currentWeight := currentWeight e - total |}.

(** Entries with positive weights of sum [total], few and small enough for
    [length * total] to fit an [int]. *)
Record wellFormed (total : Z) (es : list weightedEntry) : Prop := {
  wf_pos : Forall (fun e => 1 <= weight e) es;
  wf_sum : sumOver weight es = total;
  wf_fit : Z.of_nat (length es) * total <= maxInt64;
  wf_ne : es <> []
}.

(** The current weights stay above [- total] and sum to zero. *)
Record balanced (total : Z) (es : list weightedEntry) : Prop := {
  bal_low : Forall (fun e => - total < currentWeight e) es;
  bal_sum : sumOver currentWeight es = 0
}.

Lemma wellFormed_total total es :
  wellFormed total es -> 1 <= total /\ 1 <= Z.of_nat (length es).
Proof.
  intros [Hpos Hsum Hfit Hne]. destruct es as [|e es]; [done|].
  split; [|simpl; lia]. rewrite <- Hsum. simpl.
  apply Forall_cons in Hpos as [He Hes].
  assert (0 <= sumOver weight es); [|lia].
  apply sumOver_nonneg. intros x Hx.
  rewrite Forall_forall in Hes. specialize (Hes x Hx). lia.
Qed.

Lemma wellFormed_weight_le total es e :
  wellFormed total es -> e ∈ es -> 1 <= weight e <= total.
Proof.
  intros [Hpos Hsum Hfit Hne] He. rewrite Forall_forall in Hpos.
  split; [by apply Hpos|]. rewrite <- Hsum.
  apply sumOver_elem_le; [|done]. intros x Hx. specialize (Hpos x Hx). lia.
Qed.

Lemma balanced_upper total es e :
  wellFormed total es -> balanced total es -> e ∈ es ->
  - total < currentWeight e <= (Z.of_nat (length es) - 1) * total.
Proof.
  intros Hwf [Hlow Hsum] He. rewrite Forall_forall in Hlow.
  split; [by apply Hlow|].
  pose proof (wellFormed_total _ _ Hwf) as [Ht Hn].
  pose proof (sumOver_elem_le (fun x => currentWeight x + (total - 1)) es e) as Hle.
  rewrite sumOver_plus, sumOver_const, Hsum in Hle.
  assert (currentWeight e + (total - 1) <= 0 + (total - 1) * Z.of_nat (length es)).
  { apply Hle; [|done]. intros x Hx. specialize (Hlow x Hx). lia. }
  nia.
Qed.

Lemma addWeight_bumped total es e :
  wellFormed total es -> balanced total es -> e ∈ es ->
  addWeight e = bumped e.
Proof.
  intros Hwf Hbal He. unfold addWeight, bumped. f_equal.
  apply wrap64_id.
  pose proof (balanced_upper _ _ _ Hwf Hbal He).
  pose proof (wellFormed_weight_le _ _ _ Hwf He).
  pose proof (wf_fit _ _ Hwf).
  pose proof (wellFormed_total _ _ Hwf).
  unfold inInt64, minInt64, maxInt64 in *. nia.
Qed.

Lemma selected_positive total es e :
  wellFormed total es -> balanced total es -> e ∈ es ->
  (forall x, x ∈ es -> currentWeight x + weight x <= currentWeight e + weight e) ->
  0 < currentWeight e + weight e.
Proof.
  intros Hwf [Hlow Hsum] He Hmax.
  pose proof (wellFormed_total _ _ Hwf) as [Ht Hn].
  destruct (Z.lt_ge_cases 0 (currentWeight e + weight e)) as [|Hneg]; [done|].
  assert (0 <= sumOver (fun x => - (currentWeight x + weight x)) es).
  { apply sumOver_nonneg. intros x Hx. specialize (Hmax x Hx). lia. }
  assert (sumOver (fun x => - (currentWeight x + weight x)) es
          + sumOver (fun x => currentWeight x + weight x) es = 0).
  { rewrite <- sumOver_plus. rewrite (sumOver_ext _ (fun _ => 0)).
    - rewrite sumOver_const. lia.
    - intros. lia. }
  rewrite sumOver_plus, Hsum, (wf_sum _ _ Hwf) in *. lia.
Qed.

Lemma Next_nonempty wrr :
  entries wrr <> [] ->
  Next wrr =
    let '(es, bestIdx) := scan (length (entries wrr)) 0 (entries wrr) 0 in
    let es := alter (subTotal (totalWeight wrr)) bestIdx es in
    (from_option addr EmptyString (es !! bestIdx),
     {| entries := es; totalWeight := totalWeight wrr |}).
Proof. unfold Next. by destruct (entries wrr). Qed.

(** [Next] returns the address of an entry whose bumped current weight is
    maximal, and lowers that entry by the total weight. *)
Lemma Next_step total wrr :
  wellFormed total (entries wrr) ->
  balanced total (entries wrr) ->
  totalWeight wrr = total ->
  exists i e,
    entries wrr !! i = Some e /\
    (forall x, x ∈ entries wrr ->
               currentWeight x + weight x <= currentWeight e + weight e) /\
    Next wrr = (addr e,
                {| entries := alter (lowered total) i (bumped <$> entries wrr);
                   totalWeight := total |}).
Proof.
  intros Hwf Hbal Htot. destruct wrr as [es tw]. cbn [entries totalWeight] in *.
  subst tw. rewrite Next_nonempty by apply Hwf. cbn [entries totalWeight].
  rewrite scan_all by apply Hwf.
  assert (Hb : addWeight <$> es = bumped <$> es).
  { apply list_fmap_ext. intros j x Hx.
    eapply addWeight_bumped; eauto. by eapply list_elem_of_lookup_2. }
  assert (Hv : (fun e => currentWeight (addWeight e)) <$> es
               = (fun e => currentWeight e + weight e) <$> es).
  { apply list_fmap_ext. intros j x Hx.
    erewrite addWeight_bumped; eauto. by eapply list_elem_of_lookup_2. }
  rewrite Hb, Hv.
  destruct (pick_max ((fun e => currentWeight e + weight e) <$> es))
    as (v & Hv1 & Hv2).
  { destruct es; [by destruct Hwf|done]. }
  apply list_lookup_fmap_Some in Hv1 as (e & -> & He).
  eexists _, e. split; [exact He|]. split.
  - intros x Hx. apply Hv2. apply list_elem_of_fmap. eauto.
  - assert (Ha : alter (subTotal total)
                   (pick ((fun e => currentWeight e + weight e) <$> es))
                   (bumped <$> es)
                 = alter (lowered total)
                   (pick ((fun e => currentWeight e + weight e) <$> es))
                   (bumped <$> es)).
    { apply list_alter_ext; [|done]. intros x Hx.
      rewrite list_lookup_fmap, He in Hx. simplify_eq/=.
      unfold subTotal, lowered, bumped; simpl. f_equal. apply wrap64_id.
      pose proof (list_elem_of_lookup_2 _ _ _ He) as Hin.
      pose proof (balanced_upper _ _ _ Hwf Hbal Hin).
      pose proof (wellFormed_weight_le _ _ _ Hwf Hin).
      pose proof (wf_fit _ _ Hwf).
      pose proof (wellFormed_total _ _ Hwf).
      assert (0 < currentWeight e + weight e).
      { apply (selected_positive total es); [done..|].
        intros x Hx. apply Hv2. apply list_elem_of_fmap. eauto. }
      unfold inInt64, minInt64, maxInt64 in *. nia. }
    rewrite Ha. f_equal.
    by rewrite list_lookup_alter_eq, list_lookup_fmap, He.
Qed.

(** The entries after one call, given the selected index. *)
Definition advance (total : Z) (i : nat) (es : list weightedEntry) : list weightedEntry :=
  alter (lowered total) i (bumped <$> es).

Lemma sumOver_weight_bumped es :
  sumOver weight (bumped <$> es) = sumOver weight es.
Proof. induction es as [|e es IH]; csimpl; [done|]. by rewrite IH. Qed.

Lemma sumOver_current_bumped es :
  sumOver currentWeight (bumped <$> es)
  = sumOver currentWeight es + sumOver weight es.
Proof. induction es as [|e es IH]; csimpl; [done|]. rewrite IH. lia. Qed.

Lemma advance_wellFormed total i es :
  wellFormed total es -> wellFormed total (advance total i es).
Proof.
  intros [Hpos Hsum Hfit Hne]. unfold advance. split.
  - apply Forall_alter; [|done]. by apply Forall_fmap.
  - by rewrite sumOver_alter_same, sumOver_weight_bumped.
  - by rewrite length_alter, length_fmap.
  - intros H. apply (f_equal length) in H.
    rewrite length_alter, length_fmap in H. by destruct es.
Qed.

Lemma advance_balanced total i e es :
  wellFormed total es -> balanced total es ->
  es !! i = Some e ->
  (forall x, x ∈ es -> currentWeight x + weight x <= currentWeight e + weight e) ->
  balanced total (advance total i es).
Proof.
  intros Hwf [Hlow Hsum] He Hmax. unfold advance.
  pose proof (wellFormed_total _ _ Hwf) as [Ht Hn].
  assert (Hsum' : sumOver currentWeight (bumped <$> es) = total).
  { rewrite sumOver_current_bumped, Hsum, (wf_sum _ _ Hwf). lia. }
  split.
  - apply Forall_alter.
    + apply Forall_fmap. rewrite Forall_forall in Hlow |- *. intros x Hx. simpl.
      specialize (Hlow x Hx).
      pose proof (wellFormed_weight_le _ _ _ Hwf Hx). lia.
    + intros x Hx _. rewrite list_lookup_fmap, He in Hx.
      injection Hx as <-. simpl.
      assert (0 < currentWeight e + weight e); [|lia].
      apply (selected_positive total es); [done| |by eapply list_elem_of_lookup_2|done].
      by split.
  - rewrite (sumOver_alter _ _ _ i (bumped e)).
    + rewrite Hsum'. simpl. lia.
    + by rewrite list_lookup_fmap, He.
Qed.

(** After [t] calls every current weight is [t * weight] up to a multiple
    of the total weight. *)
Definition inPhase (total t : Z) (es : list weightedEntry) : Prop :=
  Forall (fun e => (total | currentWeight e - t * weight e)) es.

Lemma advance_inPhase total t i es :
  inPhase total t es -> inPhase total (t + 1) (advance total i es).
Proof.
  unfold inPhase, advance. intros H. apply Forall_alter.
  - apply Forall_fmap. eapply Forall_impl; [exact H|]. intros e He. simpl.
    by replace (currentWeight e + weight e - (t + 1) * weight e)
      with (currentWeight e - t * weight e) by lia.
  - intros x _ [k Hk]. simpl. exists (k - 1). lia.
Qed.

Lemma fmap_alter_same {B : Type} (h : weightedEntry -> B) f (i : nat)
    (es : list weightedEntry) :
  (forall x, h (f x) = h x) -> h <$> alter f i es = h <$> es.
Proof.
  intros Hf. revert i. induction es as [|x es IH]; intros [|i]; csimpl; [done..| |].
  - by rewrite Hf.
  - by rewrite IH.
Qed.

Lemma advance_addr total i es : addr <$> advance total i es = addr <$> es.
Proof.
  unfold advance. rewrite fmap_alter_same by done.
  rewrite <- list_fmap_compose. by apply list_fmap_ext.
Qed.

Lemma advance_weight total i es : weight <$> advance total i es = weight <$> es.
Proof.
  unfold advance. rewrite fmap_alter_same by done.
  rewrite <- list_fmap_compose. by apply list_fmap_ext.
Qed.

(** Current weight and weight held by the entries with address [a]. *)
Definition currentOf (a : string) (es : list weightedEntry) : Z :=
  sumOver (fun e => if decide (addr e = a) then currentWeight e else 0) es.

Definition weightAt (a : string) (es : list weightedEntry) : Z :=
  sumOver (fun e => if decide (addr e = a) then weight e else 0) es.

Lemma advance_weightAt a total i es :
  weightAt a (advance total i es) = weightAt a es.
Proof.
  unfold weightAt, advance. rewrite sumOver_alter_same by done.
  by rewrite sumOver_fmap.
Qed.

Lemma advance_currentOf a total i e es :
  es !! i = Some e ->
  currentOf a (advance total i es)
  = currentOf a es + weightAt a es - total * countOf a [addr e].
Proof.
  intros He. unfold currentOf, weightAt, advance, countOf.
  rewrite (sumOver_alter _ _ _ i (bumped e))
    by (by rewrite list_lookup_fmap, He).
  rewrite sumOver_fmap. simpl.
  rewrite <- sumOver_plus.
  rewrite (sumOver_ext
             (fun x => if decide (addr x = a) then currentWeight x + weight x else 0)
             (fun x => (if decide (addr x = a) then currentWeight x else 0)
                       + (if decide (addr x = a) then weight x else 0)))
    by (intros; case_decide; lia).
  case_decide; lia.
Qed.

(** **** Runs of [Next] *)

Lemma run_add m : forall n wrr,
  run (m + n) wrr =
    let '(o1, wrr1) := run m wrr in
    let '(o2, wrr2) := run n wrr1 in
    (o1 ++ o2, wrr2).
Proof.
  induction m as [|m IH]; intros n wrr; cbn [run Nat.add].
  - by destruct (run n wrr).
  - destruct (Next wrr) as [b wrr1]. rewrite IH.
    destruct (run m wrr1) as [o1 wrr2]. by destruct (run n wrr2).
Qed.

Lemma run_invariant total n : forall wrr t outs wrr',
  wellFormed total (entries wrr) ->
  balanced total (entries wrr) ->
  inPhase total t (entries wrr) ->
  totalWeight wrr = total ->
  run n wrr = (outs, wrr') ->
  wellFormed total (entries wrr') /\
  balanced total (entries wrr') /\
  inPhase total (t + Z.of_nat n) (entries wrr') /\
  totalWeight wrr' = total /\
  addr <$> entries wrr' = addr <$> entries wrr /\
  weight <$> entries wrr' = weight <$> entries wrr /\
  length outs = n /\
  forall a, currentOf a (entries wrr')
            = currentOf a (entries wrr)
              + Z.of_nat n * weightAt a (entries wrr)
              - total * countOf a outs.
Proof.
  induction n as [|n IH]; intros wrr t outs wrr' Hwf Hbal Hph Htot Hrun.
  - cbn [run] in Hrun. injection Hrun as <- <-.
    change (Z.of_nat 0) with 0. rewrite Z.add_0_r.
    split_and!; try done. intros a. unfold countOf. simpl. lia.
  - cbn [run] in Hrun.
    destruct (Next_step total wrr Hwf Hbal Htot) as (i & e & He & Hmax & HN).
    rewrite HN in Hrun.
    destruct (run n _) as [outs1 wrr2] eqn:Hrun1.
    injection Hrun as <- <-.
    apply (IH _ (t + 1)) in Hrun1 as (Hwf2 & Hbal2 & Hph2 & Htot2 & Ha2 & Hw2 & Hlen2 & Hcnt2);
      cbn [entries totalWeight] in *.
    + fold (advance total i (entries wrr)) in *.
      rewrite advance_addr in Ha2. rewrite advance_weight in Hw2.
      split_and!; try done.
      * by replace (t + Z.of_nat (S n)) with (t + 1 + Z.of_nat n) by lia.
      * simpl. by rewrite Hlen2.
      * intros a. rewrite Hcnt2.
        rewrite advance_weightAt, (advance_currentOf a total i e) by done.
        change (addr e :: outs1) with ([addr e] ++ outs1).
        unfold countOf at 3. rewrite sumOver_app. fold (countOf a [addr e]).
        fold (countOf a outs1). lia.
    + by apply advance_wellFormed.
    + by eapply advance_balanced.
    + by apply advance_inPhase.
    + done.
Qed.

Lemma run_length n : forall wrr, length (outputs n wrr) = n.
Proof.
  unfold outputs. induction n as [|n IH]; intros wrr; cbn [run]; [done|].
  destruct (Next wrr) as [b wrr1]. specialize (IH wrr1).
  destruct (run n wrr1). simpl in *. by rewrite IH.
Qed.

(** **** The balancer returns to its initial state after [total] calls *)

Lemma effWeight_pos b : 1 <= effWeight b.
Proof. unfold effWeight. destruct (Z.leb_spec (Weight b) 0); lia. Qed.

Lemma sumWeights_nonneg bs : 0 <= sumWeights bs.
Proof.
  apply sumOver_nonneg. intros b _. pose proof (effWeight_pos b). lia.
Qed.

Lemma totalWeight_sum bs : forall acc,
  0 <= acc -> acc + sumWeights bs <= maxInt64 ->
  fold_left (fun total b => wrap64 (total + effWeight b)) bs acc
  = acc + sumWeights bs.
Proof.
  unfold sumWeights.
  induction bs as [|b bs IH]; intros acc Hacc Hfit; simpl in *; [lia|].
  pose proof (effWeight_pos b).
  pose proof (sumWeights_nonneg bs) as Hs. unfold sumWeights in Hs.
  rewrite wrap64_id by (unfold inInt64, minInt64, maxInt64 in *; lia).
  rewrite IH; lia.
Qed.

Lemma New_ready backends :
  backends <> [] ->
  Z.of_nat (length backends) * sumWeights backends <= maxInt64 ->
  let wrr := NewWeightedRoundRobin backends in
  wellFormed (sumWeights backends) (entries wrr) /\
  balanced (sumWeights backends) (entries wrr) /\
  inPhase (sumWeights backends) 0 (entries wrr) /\
  totalWeight wrr = sumWeights backends /\
  Forall (fun e => currentWeight e = 0) (entries wrr) /\
  forall a, weightAt a (entries wrr) = weightOf a backends.
Proof.
  intros Hne Hfit. cbn [NewWeightedRoundRobin entries totalWeight].
  pose proof (sumWeights_nonneg backends) as Hs.
  assert (Hn : 1 <= Z.of_nat (length backends)) by (destruct backends; [done|simpl; lia]).
  assert (Hzero : Forall (fun e => currentWeight e = 0) (newEntry <$> backends)).
  { apply Forall_fmap. by apply Forall_true. }
  assert (Hsum : sumOver weight (newEntry <$> backends) = sumWeights backends).
  { by rewrite sumOver_fmap. }
  assert (Hpos : 1 <= sumWeights backends).
  { destruct backends as [|b bs]; [done|]. unfold sumWeights. simpl.
    pose proof (effWeight_pos b). pose proof (sumWeights_nonneg bs) as H1.
    unfold sumWeights in H1. lia. }
  split_and!.
  - split.
    + apply Forall_fmap, Forall_true. intros b. apply effWeight_pos.
    + done.
    + by rewrite length_fmap.
    + by destruct backends.
  - split.
    + eapply Forall_impl; [exact Hzero|]. simpl. intros e ->. lia.
    + rewrite (sumOver_ext _ (fun _ => 0)); [rewrite sumOver_const; lia|].
      intros e He. rewrite Forall_forall in Hzero. by apply Hzero.
  - eapply Forall_impl; [exact Hzero|]. simpl. intros e ->.
    exists 0. lia.
  - rewrite totalWeight_sum; [lia|lia|nia].
  - done.
  - intros a. unfold weightAt, weightOf. by rewrite sumOver_fmap.
Qed.

Lemma entries_zero_eq (es : list weightedEntry) : forall es',
  addr <$> es = addr <$> es' ->
  weight <$> es = weight <$> es' ->
  Forall (fun e => currentWeight e = 0) es ->
  Forall (fun e => currentWeight e = 0) es' ->
  es = es'.
Proof.
  induction es as [|[a w c] es IH]; intros [|[a' w' c'] es'] Ha Hw Hz Hz';
    simplify_eq/=; [done|].
  apply Forall_cons in Hz as [Hc Hz]. apply Forall_cons in Hz' as [Hc' Hz'].
  simpl in *. subst. f_equal. by apply IH.
Qed.

Lemma period backends outs wrr' :
  backends <> [] ->
  Z.of_nat (length backends) * sumWeights backends <= maxInt64 ->
  run (Z.to_nat (sumWeights backends)) (NewWeightedRoundRobin backends) = (outs, wrr') ->
  wrr' = NewWeightedRoundRobin backends /\
  forall a, countOf a outs = weightOf a backends.
Proof.
  intros Hne Hfit Hrun.
  destruct (New_ready backends Hne Hfit) as (Hwf & Hbal & Hph & Htot & Hzero & HW).
  pose proof (wellFormed_total _ _ Hwf) as [Ht Hn].
  set (total := sumWeights backends) in *.
  destruct (run_invariant total _ _ 0 _ _ Hwf Hbal Hph Htot Hrun)
    as (Hwf' & Hbal' & Hph' & Htot' & Ha & Hw & Hlen & Hcnt).
  rewrite Z2Nat.id in * by lia.
  assert (Hnonneg : forall e, e ∈ entries wrr' -> 0 <= currentWeight e).
  { intros e He. unfold inPhase in Hph'. rewrite Forall_forall in Hph'.
    destruct (Hph' e He) as [k Hk].
    pose proof (bal_low _ _ Hbal') as Hlow. rewrite Forall_forall in Hlow.
    specialize (Hlow e He).
    assert (Hc : currentWeight e = (k + weight e) * total) by lia.
    destruct (Z.le_gt_cases 0 (k + weight e)); nia. }
  assert (Hzero' : Forall (fun e => currentWeight e = 0) (entries wrr')).
  { apply Forall_forall. intros e He.
    by apply (sumOver_zero currentWeight (entries wrr') e Hnonneg (bal_sum _ _ Hbal')). }
  assert (Hes : entries wrr' = entries (NewWeightedRoundRobin backends))
    by by apply entries_zero_eq.
  split.
  - destruct wrr' as [es' tw']. cbn [entries totalWeight] in *.
    rewrite Hes, Htot'. unfold NewWeightedRoundRobin. f_equal.
    by rewrite <- Htot.
  - intros a. specialize (Hcnt a). rewrite Hes, HW in Hcnt.
    assert (total * countOf a outs = total * weightOf a backends) by lia.
    nia.
Qed.

Lemma periods backends k :
  backends <> [] ->
  Z.of_nat (length backends) * sumWeights backends <= maxInt64 ->
  exists outs,
    run (k * Z.to_nat (sumWeights backends)) (NewWeightedRoundRobin backends)
    = (outs, NewWeightedRoundRobin backends) /\
    forall a, countOf a outs = Z.of_nat k * weightOf a backends.
Proof.
  intros Hne Hfit. induction k as [|k (outs & Hrun & Hcnt)].
  - exists []. split; [done|]. intros a. unfold countOf. simpl. lia.
  - cbn [Nat.mul]. rewrite run_add.
    destruct (run (Z.to_nat (sumWeights backends)) (NewWeightedRoundRobin backends))
      as [o1 wrr1] eqn:H1.
    destruct (period backends o1 wrr1 Hne Hfit H1) as [-> Hc1].
    rewrite Hrun. exists (o1 ++ outs). split; [done|].
    intros a. unfold countOf. rewrite sumOver_app.
    fold (countOf a o1). fold (countOf a outs). rewrite Hc1, Hcnt. lia.
Qed.

(** Any [k * total] consecutive calls return each address [k] times the
    weight it holds. *)
Lemma window_count backends (j k : nat) a :
  Z.of_nat (length backends) * sumWeights backends <= maxInt64 ->
  countOf a (drop j (outputs (j + k * Z.to_nat (sumWeights backends))
                       (NewWeightedRoundRobin backends)))
  = Z.of_nat k * weightOf a backends.
Proof.
  intros Hfit. destruct (decide (backends = [])) as [->|Hne].
  - unfold sumWeights, weightOf. simpl. rewrite Nat.mul_0_r, Nat.add_0_r.
    rewrite drop_ge by (by rewrite run_length). unfold countOf. simpl. lia.
  - destruct (periods backends k Hne Hfit) as (ok & Hk & Hck).
    set (n := (k * Z.to_nat (sumWeights backends))%nat) in *.
    set (wrr0 := NewWeightedRoundRobin backends) in *.
    pose proof (run_add j n wrr0) as H1.
    pose proof (run_add n j wrr0) as H2.
    rewrite Hk in H2.
    destruct (run j wrr0) as [oj wj] eqn:Hj.
    destruct (run n wj) as [win wjn] eqn:Hw.
    assert (Hlj : length oj = j).
    { pose proof (run_length j wrr0) as Hl. unfold outputs in Hl. by rewrite Hj in Hl. }
    unfold outputs. rewrite H1. cbn [fst].
    rewrite drop_app_length' by done.
    rewrite (Nat.add_comm n j), H1 in H2. injection H2 as H2 _.
    apply (f_equal (countOf a)) in H2. unfold countOf in H2.
    rewrite !sumOver_app in H2. fold (countOf a oj) in H2.
    fold (countOf a win) in H2. fold (countOf a ok) in H2.
    rewrite Hck in H2. lia.
Qed.

Lemma weightOf_unique backends b :
  NoDup (Addr <$> backends) -> b ∈ backends ->
  weightOf (Addr b) backends = effWeight b.
Proof.
  unfold weightOf. induction backends as [|x bs IH]; intros Hnd Hb.
  - by apply elem_of_nil in Hb.
  - csimpl in *. apply NoDup_cons in Hnd as [Hx Hnd].
    apply elem_of_cons in Hb as [->|Hb].
    + rewrite decide_True by done.
      rewrite (sumOver_ext _ (fun _ => 0)); [rewrite sumOver_const; lia|].
      intros y Hy. rewrite decide_False; [done|].
      intros Heq. apply Hx. rewrite <- Heq. by apply list_elem_of_fmap_2.
    + rewrite IH by done. rewrite decide_False; [lia|].
      intros Heq. apply Hx. rewrite Heq. by apply list_elem_of_fmap_2.
Qed.

Definition backendsAB : list WeightedBackend :=
  [mkWeightedBackend "A" 2; mkWeightedBackend "B" 1].

Definition backendsABC : list WeightedBackend :=
  [mkWeightedBackend "A" 5; mkWeightedBackend "B" 1; mkWeightedBackend "C" 1].

(** C3. With backends A (weight 2) and B (weight 1) the first three calls
    of [Next] return A, B, A.  For any backends whose [length * total weight]
    fits an [int], any [k * total weight] consecutive calls (those after the
    first [j]) return every address [k] times the weight configured for it
    (weights [<= 0] counting as 1; for a backend listed once, [k] times its
    own weight).  With A:5, B:1, C:1, 700 calls return A 500 times and B
    and C 100 times each. *)
Theorem smooth_weighted_distribution :
  outputs 3 (NewWeightedRoundRobin backendsAB) = ["A"; "B"; "A"]%string /\
  (forall backends (j k : nat),
      Z.of_nat (length backends) * sumWeights backends <= maxInt64 ->
      let window :=
        drop j (outputs (j + k * Z.to_nat (sumWeights backends))
                  (NewWeightedRoundRobin backends)) in
      (forall a, countOf a window = Z.of_nat k * weightOf a backends) /\
      (NoDup (Addr <$> backends) ->
       forall b, b ∈ backends ->
                 countOf (Addr b) window = Z.of_nat k * effWeight b)) /\
  (countOf "A" (outputs 700 (NewWeightedRoundRobin backendsABC)) = 500 /\
   countOf "B" (outputs 700 (NewWeightedRoundRobin backendsABC)) = 100 /\
   countOf "C" (outputs 700 (NewWeightedRoundRobin backendsABC)) = 100).
Proof.
  split; [by vm_compute|]. split.
  - intros backends j k Hfit window. subst window. split.
    + intros a. by apply window_count.
    + intros Hnd b Hb. rewrite window_count by done.
      by rewrite weightOf_unique.
  - assert (Hfit : Z.of_nat (length backendsABC) * sumWeights backendsABC <= maxInt64)
      by (vm_compute; discriminate).
    pose proof (fun a => window_count backendsABC 0 100 a Hfit) as H.
    change (0 + 100 * Z.to_nat (sumWeights backendsABC))%nat with 700%nat in H.
    rewrite drop_0 in H.
    split_and!; rewrite H; reflexivity.
Qed.

(** The general part of C3 on A:5, B:1, C:1: calls 4 to 17 (two rounds of
    seven) return A ten times and B twice. *)
Lemma smooth_weighted_distribution_witness :
  countOf "A" (drop 3 (outputs 17 (NewWeightedRoundRobin backendsABC))) = 10 /\
  countOf "B" (drop 3 (outputs 17 (NewWeightedRoundRobin backendsABC))) = 2.
Proof.
  pose proof smooth_weighted_distribution as (_ & H & _).
  specialize (H backendsABC 3%nat 2%nat).
  destruct H as [H _]; [vm_compute; discriminate|].
  split; [exact (H "A"%string) | exact (H "B"%string)].
Defined.

End WeightedRoundRobin.

(** *** Consistent hashing *)

Module ConsistentHash.

(** [crc32.ChecksumIEEE]: the reflected CRC-32 with polynomial 0xEDB88320,
    one bit at a time. *)
Definition crcBit (crc : Z) : Z :=
  if Z.testbit crc 0 then Z.lxor (Z.shiftr crc 1) 3988292384
  else Z.shiftr crc 1.

Definition crcByte (crc : Z) (c : ascii) : Z :=
  Nat.iter 8 crcBit (Z.lxor crc (Z.of_N (N_of_ascii c))).

Definition ChecksumIEEE (s : string) : Z :=
  Z.lxor (fold_left crcByte (list_ascii_of_string s) 4294967295) 4294967295.

(** [sort.Search]: binary search for the least index in [0, n) at which [f]
    holds, [n] if there is none; [fuel] bounds the iterations. *)
Fixpoint searchLoop (fuel : nat) (i j : Z) (f : Z -> bool) : Z :=
  match fuel with
  | O => i
  | S fuel' =>
      if i <? j then
        let h := Z.shiftr (i + j) 1 in
        if f h then searchLoop fuel' i h f else searchLoop fuel' (h + 1) j f
      else i
  end.

Definition Search (n : Z) (f : Z -> bool) : Z :=
  searchLoop (Z.to_nat n) 0 n f.

Record ConsistentHash := mkConsistentHash {
  ring : list Z;           (* []uint32, sorted *)
  nodeMap : gmap Z string;
  replicas : Z
}.

(** The loop of [add] from replica [i] on, with [n] iterations left. *)
Fixpoint addLoop (n : nat) (i : Z) (addr : string) (ch : ConsistentHash) : ConsistentHash :=
  match n with
  | O => ch
  | S n' =>
      let key := (addr ++ "-" ++ pretty i)%string in
      let h := ChecksumIEEE key in
      addLoop n' (i + 1) addr
        {| ring := ring ch ++ [h];
           nodeMap := <[h := addr]> (nodeMap ch);
           replicas := replicas ch |}
  end.

Definition add (addr : string) (ch : ConsistentHash) : ConsistentHash :=
  addLoop (Z.to_nat (replicas ch)) 0 addr ch.

Definition NewConsistentHash (replicas : Z) (backends : list string) : ConsistentHash :=
  let ch := fold_left (fun ch b => add b ch) backends
              {| ring := []; nodeMap := ∅; replicas := replicas |} in
  {| ring := merge_sort Z.le (ring ch); nodeMap := nodeMap ch; replicas := replicas |}.

Definition ringAt (ch : ConsistentHash) (i : Z) : Z :=
  default 0 (ring ch !! Z.to_nat i).

Definition NextWithKey (key : string) (ch : ConsistentHash) : string :=
  match ring ch with
  | [] => EmptyString
  | _ :: _ =>
      let h := ChecksumIEEE key in
      let n := Z.of_nat (length (ring ch)) in
      let idx := Search n (fun i => h <=? ringAt ch i) in
      let idx := if idx =? n then 0 else idx in
      default EmptyString (nodeMap ch !! ringAt ch idx)
  end.

Definition Next (ch : ConsistentHash) : string := NextWithKey EmptyString ch.

Example ChecksumIEEE_check : ChecksumIEEE "123456789" = 3421780262.
Proof. vm_compute. reflexivity. Qed.

Example NextWithKey_deterministic :
  NextWithKey "client-7" (NewConsistentHash 3 ["a"; "b"]%string) =
  NextWithKey "client-7" (NewConsistentHash 3 ["a"; "b"]%string).
Proof. reflexivity. Qed.

(** *** The ring built by [NewConsistentHash] *)

(** The virtual nodes of a backend, in the order [add] places them, and of
    a list of backends. *)
Definition virtualNode (addr : string) (i : Z) : Z :=
  ChecksumIEEE (addr ++ "-" ++ pretty i)%string.

Definition virtualNodesOf (replicas : Z) (addr : string) : list (Z * string) :=
  (fun i => (virtualNode addr i, addr)) <$> seqZ 0 replicas.

Definition virtualNodes (replicas : Z) (backends : list string) : list (Z * string) :=
  backends ≫= virtualNodesOf replicas.

(** Every ring position has an owner, and an owner of a position has a
    virtual node there. *)
Definition owned (ch : ConsistentHash) (vn : list (Z * string)) : Prop :=
  ring ch = vn.*1 /\
  (forall v, v ∈ ring ch -> is_Some (nodeMap ch !! v)) /\
  (forall v b, nodeMap ch !! v = Some b -> (v, b) ∈ vn).

Lemma addLoop_replicas n : forall i addr ch,
  replicas (addLoop n i addr ch) = replicas ch.
Proof.
  induction n as [|n IH]; intros i addr ch; [done|].
  cbn [addLoop]. by rewrite IH.
Qed.

Lemma addLoop_owned n : forall i addr ch vn,
  owned ch vn ->
  owned (addLoop n i addr ch)
        (vn ++ ((fun k => (virtualNode addr k, addr)) <$> seqZ i (Z.of_nat n))).
Proof.
  induction n as [|n IH]; intros i addr ch vn Hown.
  - cbn. by rewrite app_nil_r.
  - cbn [addLoop]. rewrite seqZ_cons by lia.
    replace (Z.pred (Z.of_nat (S n))) with (Z.of_nat n) by lia.
    replace (Z.succ i) with (i + 1) by lia.
    rewrite fmap_cons, (cons_middle (virtualNode addr i, addr) vn), (app_assoc vn).
    apply IH. destruct Hown as (Hring & Hdom & Hval).
    fold (virtualNode addr i). split; [|split]; cbn [ring nodeMap].
    + by rewrite Hring, fmap_app.
    + intros v Hv. apply elem_of_app in Hv as [Hv|Hv].
      * destruct (decide (v = virtualNode addr i)) as [->|Hne].
        -- rewrite lookup_insert_eq. by eexists.
        -- rewrite lookup_insert_ne by done. by apply Hdom.
      * apply list_elem_of_singleton in Hv as ->.
        rewrite lookup_insert_eq. by eexists.
    + intros v b Hvb. apply elem_of_app.
      destruct (decide (v = virtualNode addr i)) as [->|Hne].
      * rewrite lookup_insert_eq in Hvb. injection Hvb as <-.
        right. by apply list_elem_of_singleton.
      * rewrite lookup_insert_ne in Hvb by done. left. by apply Hval.
Qed.

Lemma add_owned addr ch vn :
  owned ch vn -> owned (add addr ch) (vn ++ virtualNodesOf (replicas ch) addr).
Proof.
  intros Hown. unfold add, virtualNodesOf.
  destruct (Z.le_gt_cases 0 (replicas ch)) as [Hr|Hr].
  - rewrite <- (Z2Nat.id (replicas ch)) at 2 by done. by apply addLoop_owned.
  - replace (Z.to_nat (replicas ch)) with 0%nat by lia.
    replace (seqZ 0 (replicas ch)) with (@nil Z)
      by (unfold seqZ; by replace (Z.to_nat (replicas ch)) with 0%nat by lia).
    cbn. by rewrite app_nil_r.
Qed.

Lemma fold_add_owned backends : forall ch vn,
  owned ch vn ->
  owned (fold_left (fun ch b => add b ch) backends ch)
        (vn ++ virtualNodes (replicas ch) backends) /\
  replicas (fold_left (fun ch b => add b ch) backends ch) = replicas ch.
Proof.
  induction backends as [|b bs IH]; intros ch vn Hown.
  - cbn. by rewrite app_nil_r.
  - cbn [fold_left]. unfold virtualNodes. rewrite bind_cons, app_assoc.
    destruct (IH (add b ch) (vn ++ virtualNodesOf (replicas ch) b)) as [H1 H2];
      [by apply add_owned|].
    assert (Hr : replicas (add b ch) = replicas ch)
      by (unfold add; apply addLoop_replicas).
    rewrite Hr in H1, H2. done.
Qed.

Lemma sorted_ring replicas backends :
  StronglySorted Z.le (ring (NewConsistentHash replicas backends)).
Proof.
  cbn [NewConsistentHash ring]. apply StronglySorted_merge_sort.
  - intros x y z. apply Z.le_trans.
  - intros x y. apply Z.le_ge_cases.
Qed.

Lemma New_owned replicas backends :
  let ch := NewConsistentHash replicas backends in
  ring ch ≡ₚ (virtualNodes replicas backends).*1 /\
  (forall v, v ∈ ring ch -> is_Some (nodeMap ch !! v)) /\
  (forall v b, nodeMap ch !! v = Some b -> (v, b) ∈ virtualNodes replicas backends).
Proof.
  cbv zeta.
  destruct (fold_add_owned backends
              {| ring := []; nodeMap := ∅; replicas := replicas |} [])
    as [(Hring & Hdom & Hval) _].
  { split; [done|]. split.
    - intros v Hv. cbn in Hv. by apply elem_of_nil in Hv.
    - intros v b Hvb. cbn in Hvb. by rewrite lookup_empty in Hvb. }
  cbn [app ConsistentHash.replicas] in *.
  cbn [NewConsistentHash ring nodeMap]. split; [|split].
  - by rewrite merge_sort_Permutation, Hring.
  - intros v Hv. apply Hdom. by rewrite merge_sort_Permutation in Hv.
  - done.
Qed.

Lemma virtualNodes_owner replicas backends v b :
  (v, b) ∈ virtualNodes replicas backends ->
  b ∈ backends /\ exists i, 0 <= i < replicas /\ v = virtualNode b i.
Proof.
  unfold virtualNodes, virtualNodesOf. intros H.
  apply list_elem_of_bind in H as (a & Hin & Ha).
  apply list_elem_of_fmap in Hin as (i & Heq & Hi).
  injection Heq as -> ->. apply elem_of_seqZ in Hi.
  split; [done|]. exists i. split; [lia|done].
Qed.

Lemma virtualNodes_length replicas backends :
  length (virtualNodes replicas backends) = (length backends * Z.to_nat replicas)%nat.
Proof.
  unfold virtualNodes. induction backends as [|b bs IH]; [done|].
  rewrite bind_cons, length_app, IH. unfold virtualNodesOf.
  rewrite length_fmap, length_seqZ. cbn [length]. lia.
Qed.

(** X4.  The ring built by [NewConsistentHash] is sorted and holds
    [replicas] positions for each backend: it is a permutation of the
    hashes [crc32(addr-i)], [0 <= i < replicas], of the backends.  Every
    position has an owner in [nodeMap], and the owner is a backend of the
    list one of whose virtual nodes hashes to that position. *)
Theorem ring_construction (replicas : Z) (backends : list string) :
  let ch := NewConsistentHash replicas backends in
  StronglySorted Z.le (ring ch) /\
  ring ch ≡ₚ (virtualNodes replicas backends).*1 /\
  length (ring ch) = (length backends * Z.to_nat replicas)%nat /\
  (forall v, v ∈ ring ch ->
     exists b, nodeMap ch !! v = Some b /\ b ∈ backends /\
               exists i, 0 <= i < replicas /\ v = virtualNode b i).
Proof.
  cbv zeta. destruct (New_owned replicas backends) as (Hperm & Hdom & Hval).
  split; [apply sorted_ring|]. split; [done|]. split.
  - by rewrite Hperm, length_fmap, virtualNodes_length.
  - intros v Hv. destruct (Hdom v Hv) as [b Hb]. exists b. split; [done|].
    by eapply virtualNodes_owner, Hval.
Qed.

(** *** The clockwise successor *)

(** On a predicate that, once true, stays true, the binary search finds the
    least index at which it holds. *)
Lemma searchLoop_least fuel : forall i j f,
  0 <= i <= j -> j - i <= Z.of_nat fuel ->
  (forall a b, i <= a -> a <= b -> b < j -> f a = true -> f b = true) ->
  i <= searchLoop fuel i j f <= j /\
  (forall k, i <= k < searchLoop fuel i j f -> f k = false) /\
  (searchLoop fuel i j f < j -> f (searchLoop fuel i j f) = true).
Proof.
  induction fuel as [|fuel IH]; intros i j f Hij Hfuel Hmono.
  - cbn [searchLoop]. split; [lia|]. split; intros; lia.
  - cbn [searchLoop]. destruct (Z.ltb_spec i j) as [Hlt|Hge].
    + assert (Hh : Z.shiftr (i + j) 1 = (i + j) / 2)
        by (rewrite Z.shiftr_div_pow2 by lia; reflexivity).
      rewrite Hh. set (h := (i + j) / 2).
      assert (Hhb : i <= h < j) by (subst h; split;
        [apply Z.div_le_lower_bound | apply Z.div_lt_upper_bound]; lia).
      destruct (f h) eqn:Efh.
      * destruct (IH i h f) as (Hr & Hfalse & Htrue); [lia|lia| |].
        { intros a b Ha Hab Hb. apply Hmono; lia. }
        split; [lia|]. split; [done|]. intros _.
        destruct (Z.eq_dec (searchLoop fuel i h f) h) as [->|Hne]; [done|].
        apply Htrue. lia.
      * destruct (IH (h + 1) j f) as (Hr & Hfalse & Htrue); [lia|lia| |].
        { intros a b Ha Hab Hb. apply Hmono; lia. }
        split; [lia|]. split; [|done]. intros k Hk.
        destruct (Z.le_gt_cases k h) as [Hkh|Hkh]; [|apply Hfalse; lia].
        destruct (f k) eqn:Efk; [|done].
        rewrite (Hmono k h) in Efh; [done|lia..|done].
    + split; [lia|]. split; intros; lia.
Qed.

Lemma ring_lookup_le (l : list Z) (i j : nat) a b :
  StronglySorted Z.le l -> (i <= j)%nat ->
  l !! i = Some a -> l !! j = Some b -> a <= b.
Proof.
  intros Hs. revert i j. induction Hs as [|x l Hs IH Hall]; intros i j Hij Ha Hb; [done|].
  destruct i as [|i], j as [|j]; cbn in Ha, Hb; try lia.
  - injection Ha as ->. injection Hb as ->. lia.
  - injection Ha as ->. rewrite Forall_forall in Hall.
    apply Hall. by eapply list_elem_of_lookup_2.
  - apply (IH i j); [lia|done..].
Qed.

Lemma NextWithKey_successor key ch :
  StronglySorted Z.le (ring ch) -> ring ch <> [] ->
  exists v,
    v ∈ ring ch /\
    NextWithKey key ch = default EmptyString (nodeMap ch !! v) /\
    ((ChecksumIEEE key <= v /\
      forall u, u ∈ ring ch -> ChecksumIEEE key <= u -> v <= u)
     \/ ((forall u, u ∈ ring ch -> u < ChecksumIEEE key) /\
         forall u, u ∈ ring ch -> v <= u)).
Proof.
  intros Hsorted Hne. unfold NextWithKey.
  destruct (ring ch) as [|v0 rest] eqn:Ering; [done|]. rewrite <- Ering in *.
  set (h := ChecksumIEEE key). set (n := Z.of_nat (length (ring ch))).
  set (f := fun i => h <=? ringAt ch i).
  assert (Hn : 0 < n) by (subst n; rewrite Ering; cbn [length]; lia).
  assert (Hat : forall k, 0 <= k < n ->
                          ring ch !! Z.to_nat k = Some (ringAt ch k)).
  { intros k Hk. unfold ringAt.
    destruct (lookup_lt_is_Some_2 (ring ch) (Z.to_nat k)) as [x ->]; [lia|done]. }
  destruct (searchLoop_least (Z.to_nat n) 0 n f) as (Hr & Hfalse & Htrue);
    [lia|lia| |].
  { intros a b Ha Hab Hb Hfa. unfold f in *.
    apply Z.leb_le in Hfa. apply Z.leb_le.
    pose proof (ring_lookup_le (ring ch) (Z.to_nat a) (Z.to_nat b) _ _
                  Hsorted ltac:(lia) (Hat a ltac:(lia)) (Hat b ltac:(lia))).
    lia. }
  fold (Search n f) in Hr, Hfalse, Htrue. set (r := Search n f) in *.
  assert (Hidx : forall u, u ∈ ring ch -> exists k, 0 <= k < n /\ u = ringAt ch k).
  { intros u Hu. apply list_elem_of_lookup_1 in Hu as [k Hk].
    pose proof (lookup_lt_Some _ _ _ Hk). exists (Z.of_nat k).
    split; [lia|]. unfold ringAt. by rewrite Nat2Z.id, Hk. }
  destruct (Z.eqb_spec r n) as [Hrn|Hrn].
  - exists (ringAt ch 0). split; [by eapply list_elem_of_lookup_2, (Hat 0); lia|].
    split; [done|]. right. split.
    + intros u Hu. destruct (Hidx u Hu) as (k & Hk & ->).
      specialize (Hfalse k ltac:(lia)). unfold f in Hfalse.
      apply Z.leb_gt in Hfalse. done.
    + intros u Hu. destruct (Hidx u Hu) as (k & Hk & ->).
      apply (ring_lookup_le (ring ch) (Z.to_nat 0) (Z.to_nat k) _ _ Hsorted);
        [lia | apply Hat; lia | apply Hat; lia].
  - exists (ringAt ch r). split; [by eapply list_elem_of_lookup_2, (Hat r); lia|].
    split; [done|]. left. specialize (Htrue ltac:(lia)). unfold f in Htrue.
    apply Z.leb_le in Htrue. split; [done|].
    intros u Hu Hhu. destruct (Hidx u Hu) as (k & Hk & ->).
    destruct (Z.le_gt_cases r k) as [Hrk|Hrk].
    + apply (ring_lookup_le (ring ch) (Z.to_nat r) (Z.to_nat k) _ _ Hsorted);
        [lia | apply Hat; lia | apply Hat; lia].
    + specialize (Hfalse k ltac:(lia)). unfold f in Hfalse.
      apply Z.leb_gt in Hfalse. lia.
Qed.

(** X5.  With at least one virtual node per backend and at least one
    backend, [NextWithKey] returns the backend that owns the clockwise
    successor of the key's hash [h] on the ring: the least ring position
    [v >= h], or, when every position is below [h], the least position of
    the ring (the search wraps around).  The backend returned is one of the
    configured backends. *)
Theorem consistent_hash_successor (replicas : Z) (backends : list string) (key : string) :
  1 <= replicas -> backends <> [] ->
  let ch := NewConsistentHash replicas backends in
  exists v,
    v ∈ ring ch /\
    nodeMap ch !! v = Some (NextWithKey key ch) /\
    NextWithKey key ch ∈ backends /\
    ((ChecksumIEEE key <= v /\
      forall u, u ∈ ring ch -> ChecksumIEEE key <= u -> v <= u)
     \/ ((forall u, u ∈ ring ch -> u < ChecksumIEEE key) /\
         forall u, u ∈ ring ch -> v <= u)).
Proof.
  intros Hrep Hne. cbv zeta.
  destruct (New_owned replicas backends) as (Hperm & Hdom & Hval).
  assert (Hring : ring (NewConsistentHash replicas backends) <> []).
  { intros Hnil. apply (f_equal length) in Hnil.
    rewrite Hperm, length_fmap, virtualNodes_length in Hnil.
    destruct backends; [done|]. cbn [length] in Hnil. lia. }
  destruct (NextWithKey_successor key _ (sorted_ring replicas backends) Hring)
    as (v & Hv & Hnext & Hsucc).
  exists v. destruct (Hdom v Hv) as [b Hb]. rewrite Hb in Hnext. cbn in Hnext.
  rewrite Hnext. split; [done|]. split; [done|]. split; [|done].
  by eapply virtualNodes_owner, Hval.
Qed.

Lemma consistent_hash_successor_witness :
  exists v,
    v ∈ ring (NewConsistentHash 3 ["a"; "b"]%string) /\
    nodeMap (NewConsistentHash 3 ["a"; "b"]%string) !! v
      = Some (NextWithKey "client-7" (NewConsistentHash 3 ["a"; "b"]%string)) /\
    NextWithKey "client-7" (NewConsistentHash 3 ["a"; "b"]%string) ∈ ["a"; "b"]%string.
Proof.
  destruct (consistent_hash_successor 3 ["a"; "b"]%string "client-7")
    as (v & Hv & Hmap & Hin & _); [lia|done|].
  exists v. split; [exact Hv|]. split; [exact Hmap | exact Hin].
Defined.

End ConsistentHash.

(** C9. On an empty backend list [RoundRobin.Next] panics (remainder by
    zero), while [LeastConnections.Next], [WeightedRoundRobin.Next] and
    [ConsistentHash.NextWithKey] return the empty string. *)
Theorem empty_pool_behaviour :
  (forall rr, RoundRobin.backends rr = [] ->
              fst (RoundRobin.Next rr) = Panics) /\
  fst (RoundRobin.Next (RoundRobin.NewRoundRobin [])) = Panics /\
  fst (LeastConnections.Next (LeastConnections.NewLeastConnections [])) = EmptyString /\
  fst (WeightedRoundRobin.Next (WeightedRoundRobin.NewWeightedRoundRobin [])) = EmptyString /\
  (forall replicas key,
      ConsistentHash.NextWithKey key (ConsistentHash.NewConsistentHash replicas []) = EmptyString).
Proof.
  repeat split.
  intros [bs c] Hbs. simpl in Hbs. subst bs. reflexivity.
Qed.

End LB.

(** ** Health checking (package health) *)

Module Health.
Import GoInt GoTime.

(** *** Active checker: the status kept per backend *)

Module ActiveChecker.

Inductive Status := StatusUnknown | StatusHealthy | StatusUnhealthy.

Record backendStatus := mkBackendStatus {
  status : Status;
  consecutiveSuccesses : Z;
  consecutiveFailures : Z
}.

Record ActiveChecker := mkActiveChecker {
  backends : gmap string backendStatus;
  healthyThreshold : Z;
  unhealthyThreshold : Z
}.

Definition IsHealthy (backend : string) (ac : ActiveChecker) : bool :=
  match backends ac !! backend with
  | None => true
  | Some bs =>
      match status bs with
      | StatusHealthy | StatusUnknown => true
      | StatusUnhealthy => false
      end
  end.

(** [NewActiveChecker]: every backend starts as unknown.  (The probing
    goroutine and its HTTP client are outside this model; its effect on the
    checker is [probe] below.) *)
Definition NewActiveChecker (addrs : list string)
    (healthyThreshold unhealthyThreshold : Z) : ActiveChecker :=
  {| backends := fold_left (fun m addr => <[addr := mkBackendStatus StatusUnknown 0 0]> m)
                           addrs ∅;
     healthyThreshold := healthyThreshold;
     unhealthyThreshold := unhealthyThreshold |}.

Definition setBackends (m : gmap string backendStatus) (ac : ActiveChecker) : ActiveChecker :=
  {| backends := m; healthyThreshold := healthyThreshold ac;
     unhealthyThreshold := unhealthyThreshold ac |}.

Definition StatusOf (backend : string) (ac : ActiveChecker) : Status :=
  match backends ac !! backend with
  | None => StatusUnknown
  | Some bs => status bs
  end.

(** [recordSuccess] and [recordFailure] take [ac.backends[backend]] without
    checking that it is there: for a backend that is not in the map the
    pointer is nil and locking it panics ([None]). *)
Definition recordSuccess (backend : string) (ac : ActiveChecker) : option ActiveChecker :=
  match backends ac !! backend with
  | None => None
  | Some bs =>
      let successes := wrap64 (consecutiveSuccesses bs + 1) in
      let st := if healthyThreshold ac <=? successes then StatusHealthy else status bs in
      Some (setBackends
              (<[backend := {| status := st; consecutiveSuccesses := successes;
                               consecutiveFailures := 0 |}]> (backends ac)) ac)
  end.

Definition recordFailure (backend : string) (ac : ActiveChecker) : option ActiveChecker :=
  match backends ac !! backend with
  | None => None
  | Some bs =>
      let failures := wrap64 (consecutiveFailures bs + 1) in
      let st := if unhealthyThreshold ac <=? failures then StatusUnhealthy else status bs in
      Some (setBackends
              (<[backend := {| status := st; consecutiveSuccesses := 0;
                               consecutiveFailures := failures |}]> (backends ac)) ac)
  end.

(** [probe], given what the HTTP request came to: [None] for an error,
    else the status code. *)
Definition probe (response : option Z) (backend : string) (ac : ActiveChecker)
  : option ActiveChecker :=
  match response with
  | None => recordFailure backend ac
  | Some code =>
      if (200 <=? code) && (code <? 300) then recordSuccess backend ac
      else recordFailure backend ac
  end.

Definition AddBackend (backend : string) (ac : ActiveChecker) : ActiveChecker :=
  match backends ac !! backend with
  | Some _ => ac
  | None => setBackends (<[backend := mkBackendStatus StatusUnknown 0 0]> (backends ac)) ac
  end.

Definition RemoveBackend (backend : string) (ac : ActiveChecker) : ActiveChecker :=
  setBackends (delete backend (backends ac)) ac.

Definition AllStatus (ac : ActiveChecker) : gmap string Status :=
  status <$> backends ac.

(** Successive probes of one backend, with the given responses. *)
Fixpoint probes (responses : list (option Z)) (backend : string) (ac : ActiveChecker)
  : option ActiveChecker :=
  match responses with
  | [] => Some ac
  | r :: rest =>
      match probe r backend ac with
      | None => None
      | Some ac1 => probes rest backend ac1
      end
  end.

Definition is2xx (response : option Z) : bool :=
  match response with
  | None => false
  | Some code => (200 <=? code) && (code <? 300)
  end.

Lemma probes_failing responses : forall backend ac bs,
  backends ac !! backend = Some bs ->
  Forall (fun r => is2xx r = false) responses ->
  0 <= consecutiveFailures bs ->
  consecutiveFailures bs + Z.of_nat (length responses) <= maxInt64 ->
  exists ac' bs',
    probes responses backend ac = Some ac' /\
    backends ac' !! backend = Some bs' /\
    unhealthyThreshold ac' = unhealthyThreshold ac /\
    healthyThreshold ac' = healthyThreshold ac /\
    (forall b, b <> backend -> backends ac' !! b = backends ac !! b) /\
    consecutiveFailures bs' = consecutiveFailures bs + Z.of_nat (length responses) /\
    status bs' = (if (1 <=? Z.of_nat (length responses))
                     && (unhealthyThreshold ac <=? consecutiveFailures bs'
                         )
                  then StatusUnhealthy else status bs).
Proof.
  induction responses as [|r rest IH]; intros backend ac bs Hbs Hall Hf Hmax.
  - exists ac, bs. cbn. rewrite Z.add_0_r. done.
  - apply Forall_cons in Hall as [Hr Hrest]. cbn [probes length] in *.
    assert (Hprobe : probe r backend ac = recordFailure backend ac).
    { destruct r as [code|]; cbn in *; [by rewrite Hr|done]. }
    rewrite Hprobe. unfold recordFailure. rewrite Hbs.
    rewrite wrap64_id by (unfold inInt64, minInt64, maxInt64 in *; lia).
    set (bs1 := {| status := _; consecutiveSuccesses := 0;
                   consecutiveFailures := consecutiveFailures bs + 1 |}).
    set (ac1 := setBackends _ ac).
    destruct (IH backend ac1 bs1) as (ac' & bs' & Hrun & Hbs' & Hu & Hh & Hother & Hcount & Hstatus).
    + subst ac1. cbn. by rewrite lookup_insert_eq.
    + done.
    + subst bs1. cbn. lia.
    + subst bs1. cbn. lia.
    + exists ac', bs'. split; [done|]. split; [done|].
      split; [done|]. split; [done|]. split.
      * intros b Hb. rewrite Hother by done. subst ac1. cbn.
        by rewrite lookup_insert_ne.
      * subst bs1 ac1. cbn in *. split; [lia|]. rewrite Hstatus, Hcount.
        destruct (Z.leb_spec 1 (Z.of_nat (length rest)));
          destruct (Z.leb_spec 1 (Z.of_nat (S (length rest))));
          destruct (Z.leb_spec (unhealthyThreshold ac)
                      (consecutiveFailures bs + 1 + Z.of_nat (length rest)));
          destruct (Z.leb_spec (unhealthyThreshold ac) (consecutiveFailures bs + 1));
          cbn; first [done|lia].
Qed.

Lemma probes_passing responses : forall backend ac bs,
  backends ac !! backend = Some bs ->
  Forall (fun r => is2xx r = true) responses ->
  0 <= consecutiveSuccesses bs ->
  consecutiveSuccesses bs + Z.of_nat (length responses) <= maxInt64 ->
  exists ac' bs',
    probes responses backend ac = Some ac' /\
    backends ac' !! backend = Some bs' /\
    unhealthyThreshold ac' = unhealthyThreshold ac /\
    healthyThreshold ac' = healthyThreshold ac /\
    (forall b, b <> backend -> backends ac' !! b = backends ac !! b) /\
    consecutiveSuccesses bs' = consecutiveSuccesses bs + Z.of_nat (length responses) /\
    status bs' = (if (1 <=? Z.of_nat (length responses))
                     && (healthyThreshold ac <=? consecutiveSuccesses bs')
                  then StatusHealthy else status bs).
Proof.
  induction responses as [|r rest IH]; intros backend ac bs Hbs Hall Hf Hmax.
  - exists ac, bs. cbn. rewrite Z.add_0_r. done.
  - apply Forall_cons in Hall as [Hr Hrest]. cbn [probes length] in *.
    assert (Hprobe : probe r backend ac = recordSuccess backend ac).
    { destruct r as [code|]; cbn in *; [by rewrite Hr|done]. }
    rewrite Hprobe. unfold recordSuccess. rewrite Hbs.
    rewrite wrap64_id by (unfold inInt64, minInt64, maxInt64 in *; lia).
    set (bs1 := {| status := _; consecutiveSuccesses := consecutiveSuccesses bs + 1;
                   consecutiveFailures := 0 |}).
    set (ac1 := setBackends _ ac).
    destruct (IH backend ac1 bs1) as (ac' & bs' & Hrun & Hbs' & Hu & Hh & Hother & Hcount & Hstatus).
    + subst ac1. cbn. by rewrite lookup_insert_eq.
    + done.
    + subst bs1. cbn. lia.
    + subst bs1. cbn. lia.
    + exists ac', bs'. split; [done|]. split; [done|].
      split; [done|]. split; [done|]. split.
      * intros b Hb. rewrite Hother by done. subst ac1. cbn.
        by rewrite lookup_insert_ne.
      * subst bs1 ac1. cbn in *. split; [lia|]. rewrite Hstatus, Hcount.
        destruct (Z.leb_spec 1 (Z.of_nat (length rest)));
          destruct (Z.leb_spec 1 (Z.of_nat (S (length rest))));
          destruct (Z.leb_spec (healthyThreshold ac)
                      (consecutiveSuccesses bs + 1 + Z.of_nat (length rest)));
          destruct (Z.leb_spec (healthyThreshold ac) (consecutiveSuccesses bs + 1));
          cbn; first [done|lia].
Qed.

(** X9.  Probe results move a backend's status only in streaks.  For a
    backend the checker tracks, after a run of failed probes (an error or
    a status code outside 200..299) that starts with the failure counter at
    0, the status is what it was while the run is shorter than
    [unhealthyThreshold] and is unhealthy from then on; after a run of 2xx
    probes that starts with the success counter at 0, it is what it was
    while the run is shorter than [healthyThreshold] and healthy from then
    on.  No other backend's status changes. *)
Theorem probe_streaks (ac : ActiveChecker) (backend : string) (bs : backendStatus)
    (responses : list (option Z)) :
  backends ac !! backend = Some bs ->
  Z.of_nat (length responses) <= maxInt64 ->
  (Forall (fun r => is2xx r = false) responses ->
   consecutiveFailures bs = 0 -> 1 <= unhealthyThreshold ac ->
   exists ac',
     probes responses backend ac = Some ac' /\
     StatusOf backend ac'
     = (if Z.of_nat (length responses) <? unhealthyThreshold ac
        then status bs else StatusUnhealthy) /\
     forall b, b <> backend -> StatusOf b ac' = StatusOf b ac) /\
  (Forall (fun r => is2xx r = true) responses ->
   consecutiveSuccesses bs = 0 -> 1 <= healthyThreshold ac ->
   exists ac',
     probes responses backend ac = Some ac' /\
     StatusOf backend ac'
     = (if Z.of_nat (length responses) <? healthyThreshold ac
        then status bs else StatusHealthy) /\
     forall b, b <> backend -> StatusOf b ac' = StatusOf b ac).
Proof.
  intros Hbs Hlen. split.
  - intros Hall H0 Hth.
    destruct (probes_failing responses backend ac bs Hbs Hall)
      as (ac' & bs' & Hrun & Hbs' & _ & _ & Hother & Hcount & Hstatus); [lia|lia|].
    exists ac'. split; [done|]. split.
    + unfold StatusOf. rewrite Hbs', Hstatus, Hcount, H0, Z.add_0_l.
      destruct (Z.leb_spec 1 (Z.of_nat (length responses)));
        destruct (Z.leb_spec (unhealthyThreshold ac) (Z.of_nat (length responses)));
        destruct (Z.ltb_spec (Z.of_nat (length responses)) (unhealthyThreshold ac));
        cbn; first [done|lia].
    + intros b Hb. unfold StatusOf. by rewrite Hother.
  - intros Hall H0 Hth.
    destruct (probes_passing responses backend ac bs Hbs Hall)
      as (ac' & bs' & Hrun & Hbs' & _ & _ & Hother & Hcount & Hstatus); [lia|lia|].
    exists ac'. split; [done|]. split.
    + unfold StatusOf. rewrite Hbs', Hstatus, Hcount, H0, Z.add_0_l.
      destruct (Z.leb_spec 1 (Z.of_nat (length responses)));
        destruct (Z.leb_spec (healthyThreshold ac) (Z.of_nat (length responses)));
        destruct (Z.ltb_spec (Z.of_nat (length responses)) (healthyThreshold ac));
        cbn; first [done|lia].
    + intros b Hb. unfold StatusOf. by rewrite Hother.
Qed.

Lemma probe_streaks_witness :
  exists ac',
    probes [None; Some 503; Some 404] "a" (NewActiveChecker ["a"; "b"]%string 2 3)
      = Some ac' /\
    StatusOf "a" ac' = StatusUnhealthy.
Proof.
  destruct (probe_streaks (NewActiveChecker ["a"; "b"]%string 2 3) "a"
              (mkBackendStatus StatusUnknown 0 0) [None; Some 503; Some 404])
    as [Hfail _]; [reflexivity | cbn; unfold maxInt64; lia |].
  destruct Hfail as (ac' & Hrun & Hstatus & _);
    [repeat constructor | reflexivity | cbn; lia |].
  exists ac'. split; [exact Hrun | exact Hstatus].
Defined.

Lemma New_tracked addrs ht ut b :
  b ∈ addrs ->
  backends (NewActiveChecker addrs ht ut) !! b = Some (mkBackendStatus StatusUnknown 0 0).
Proof.
  unfold NewActiveChecker. cbn [backends].
  assert (Hgen : forall m : gmap string backendStatus,
             (b ∈ addrs \/ m !! b = Some (mkBackendStatus StatusUnknown 0 0)) ->
             fold_left (fun m addr => <[addr := mkBackendStatus StatusUnknown 0 0]> m)
                       addrs m !! b = Some (mkBackendStatus StatusUnknown 0 0)).
  { induction addrs as [|a addrs IH]; intros m [Hin|Hm]; cbn [fold_left].
    - by apply elem_of_nil in Hin.
    - done.
    - apply IH. apply elem_of_cons in Hin as [->|Hin]; [right|by left].
      by rewrite lookup_insert_eq.
    - apply IH. right. destruct (decide (a = b)) as [->|Hne].
      + by rewrite lookup_insert_eq.
      + by rewrite lookup_insert_ne. }
  intros Hin. apply Hgen. by left.
Qed.

(** X10.  A backend the checker does not track is taken to be healthy
    ([IsHealthy] true, status unknown), so [RemoveBackend] makes even an
    unhealthy backend pass [IsHealthy]; recording a probe result for such a
    backend panics.  [AddBackend] leaves a tracked backend's status and
    counters alone, and after [RemoveBackend] starts it again as unknown.
    Every backend given to [NewActiveChecker] is tracked and unknown. *)
Theorem untracked_backends (ac : ActiveChecker) (b : string) :
  (backends ac !! b = None ->
   IsHealthy b ac = true /\ StatusOf b ac = StatusUnknown /\
   forall r, probe r b ac = None) /\
  IsHealthy b (RemoveBackend b ac) = true /\
  (forall r, probe r b (RemoveBackend b ac) = None) /\
  (is_Some (backends ac !! b) -> AddBackend b ac = ac) /\
  backends (AddBackend b (RemoveBackend b ac)) !! b
    = Some (mkBackendStatus StatusUnknown 0 0) /\
  (forall addrs ht ut,
      b ∈ addrs ->
      StatusOf b (NewActiveChecker addrs ht ut) = StatusUnknown /\
      forall r, is_Some (probe r b (NewActiveChecker addrs ht ut))).
Proof.
  assert (Hpanic : forall ac', backends ac' !! b = None -> forall r, probe r b ac' = None).
  { intros ac' Hnone r. unfold probe, recordSuccess, recordFailure. rewrite Hnone.
    destruct r as [code|]; [by destruct (_ && _)|done]. }
  split; [|split; [|split; [|split; [|split]]]].
  - intros Hnone. unfold IsHealthy, StatusOf. rewrite Hnone. auto.
  - unfold IsHealthy, RemoveBackend. cbn. by rewrite lookup_delete_eq.
  - apply Hpanic. unfold RemoveBackend. cbn. by rewrite lookup_delete_eq.
  - intros [bs Hbs]. unfold AddBackend. by rewrite Hbs.
  - unfold AddBackend, RemoveBackend. cbn. rewrite lookup_delete_eq. cbn.
    by rewrite lookup_insert_eq.
  - intros addrs ht ut Hin. pose proof (New_tracked addrs ht ut b Hin) as Hb.
    split; [unfold StatusOf; by rewrite Hb|].
    intros r. unfold probe, recordSuccess, recordFailure. rewrite Hb.
    destruct r as [code|]; [destruct (_ && _)|]; by eexists.
Qed.

End ActiveChecker.

(** *** Passive checker: outcomes of real requests in a time window *)

Module PassiveChecker.

Record requestOutcome := mkRequestOutcome {
  timestamp : Time;
  success : bool
}.

Record PassiveChecker := mkPassiveChecker {
  backends : gmap string (list requestOutcome);
  windowSize : Duration;
  errorThreshold : Float64.float64;
  minRequests : Z
}.

Definition NewPassiveChecker (windowSize : Duration)
    (errorThreshold : Float64.float64) (minRequests : Z) : PassiveChecker :=
  {| backends := ∅; windowSize := windowSize;
     errorThreshold := errorThreshold; minRequests := minRequests |}.

Definition setBackends (m : gmap string (list requestOutcome))
    (pc : PassiveChecker) : PassiveChecker :=
  {| backends := m; windowSize := windowSize pc;
     errorThreshold := errorThreshold pc; minRequests := minRequests pc |}.

(** The trimming loop [for i < len(outcomes) && outcomes[i].timestamp.Before(cutoff)]
    from index [i] on, with [n] iterations left: the first index kept. *)
Fixpoint trimLoop (n i : nat) (outcomes : list requestOutcome) (cutoff : Time) : nat :=
  match n with
  | O => i
  | S n' =>
      match outcomes !! i with
      | Some o =>
          if Before (timestamp o) cutoff then trimLoop n' (S i) outcomes cutoff
          else i
      | None => i
      end
  end.

Definition trim (now : Time) (window : Duration) (outcomes : list requestOutcome)
    : list requestOutcome :=
  let cutoff := Add now (wrap64 (- window)) in
  drop (trimLoop (length outcomes) 0 outcomes cutoff) outcomes.

(** [record]: append the outcome, then trim. *)
Definition record (now : Time) (backend : string) (ok : bool)
    (pc : PassiveChecker) : PassiveChecker :=
  let outcomes := default [] (backends pc !! backend) in
  let outcomes := outcomes ++ [{| timestamp := now; success := ok |}] in
  setBackends (<[backend := trim now (windowSize pc) outcomes]> (backends pc)) pc.

Definition RecordSuccess (now : Time) (backend : string) := record now backend true.
Definition RecordFailure (now : Time) (backend : string) := record now backend false.

(** The loop counting the failed outcomes, [failures++] on an [int]. *)
Definition countFailures (outcomes : list requestOutcome) : Z :=
  fold_left (fun failures o => if success o then failures else wrap64 (failures + 1))
    outcomes 0.

Definition IsHealthy (now : Time) (backend : string) (pc : PassiveChecker)
    : bool * PassiveChecker :=
  match backends pc !! backend with
  | None => (true, pc)
  | Some outcomes =>
      let outcomes := trim now (windowSize pc) outcomes in
      let pc' := setBackends (<[backend := outcomes]> (backends pc)) pc in
      if Z.of_nat (length outcomes) <? minRequests pc then (true, pc')
      else
        let failures := countFailures outcomes in
        let errorRate :=
          Float64.div (Float64.ofInt failures)
                      (Float64.ofInt (Z.of_nat (length outcomes))) in
        (Float64.ltb errorRate (errorThreshold pc), pc')
  end.

(** The outcomes left after dropping the leading ones that satisfy [P]. *)
Fixpoint dropWhile {A : Type} (P : A -> bool) (l : list A) : list A :=
  match l with
  | [] => []
  | x :: l' => if P x then dropWhile P l' else l
  end.

Lemma trimLoop_app cutoff suf : forall pre,
  drop (trimLoop (length suf) (length pre) (pre ++ suf) cutoff) (pre ++ suf)
  = dropWhile (fun o => Before (timestamp o) cutoff) suf.
Proof.
  induction suf as [|o suf IH]; intros pre; cbn [trimLoop length dropWhile].
  - rewrite app_nil_r. by rewrite drop_all.
  - rewrite list_lookup_middle by done.
    destruct (Before (timestamp o) cutoff).
    + specialize (IH (pre ++ [o])).
      rewrite length_app, <- app_assoc in IH. cbn [length app] in IH.
      by rewrite Nat.add_1_r in IH.
    + by rewrite drop_app_length.
Qed.

Lemma trim_dropWhile now window outcomes :
  trim now window outcomes
  = dropWhile (fun o => Before (timestamp o) (Add now (wrap64 (- window)))) outcomes.
Proof. unfold trim. apply (trimLoop_app _ outcomes []). Qed.

Lemma dropWhile_length {A : Type} (P : A -> bool) l :
  (length (dropWhile P l) <= length l)%nat.
Proof.
  induction l as [|x l IH]; simpl; [done|]. destruct (P x); simpl; lia.
Qed.

(** On a log in clock order, trimming keeps exactly the outcomes that are
    not older than the cutoff. *)
Lemma dropWhile_sorted cutoff outcomes :
  StronglySorted (fun a b => timestamp a <= timestamp b) outcomes ->
  dropWhile (fun o => Before (timestamp o) cutoff) outcomes
  = filter (fun o => cutoff <= timestamp o) outcomes.
Proof.
  unfold Before. induction 1 as [|o l Hs IH Hall]; simpl; [done|].
  destruct (Z.ltb_spec (timestamp o) cutoff).
  - by rewrite filter_cons_False by lia.
  - rewrite filter_cons_True by done. f_equal.
    clear IH Hs. induction Hall as [|x l Hx Hall IH]; [done|].
    rewrite filter_cons_True by lia. by rewrite <- IH.
Qed.

Lemma countFailures_acc outcomes : forall acc,
  0 <= acc -> acc + Z.of_nat (length outcomes) <= maxInt64 ->
  fold_left (fun failures o => if success o then failures else wrap64 (failures + 1))
    outcomes acc
  = acc + Z.of_nat (length (filter (fun o => success o = false) outcomes)).
Proof.
  induction outcomes as [|o l IH]; intros acc Hacc Hfit; simpl in *; [lia|].
  pose proof (length_filter (fun o => success o = false) l) as Hlen.
  destruct (success o) eqn:Hs.
  - rewrite filter_cons_False by (rewrite Hs; done). apply IH; lia.
  - rewrite filter_cons_True by done.
    rewrite wrap64_id by (unfold inInt64, minInt64, maxInt64 in *; lia).
    rewrite IH by lia. simpl length. lia.
Qed.

Lemma countFailures_filter outcomes :
  Z.of_nat (length outcomes) <= maxInt64 ->
  countFailures outcomes
  = Z.of_nat (length (filter (fun o => success o = false) outcomes)).
Proof. intros H. unfold countFailures. rewrite countFailures_acc; lia. Qed.

(** C6. [IsHealthy] answers true for a backend that was never recorded.
    Otherwise the log is trimmed of its leading outcomes older than
    [now - windowSize] (on a log in clock order: of all such outcomes) and
    stored back; with fewer than [minRequests] outcomes left the answer is
    true; else it is true exactly when the [float64] quotient
    [failures / count] compares strictly below [errorThreshold], so a rate
    equal to the threshold answers false. *)
Theorem passive_is_healthy now backend pc :
  (backends pc !! backend = None -> IsHealthy now backend pc = (true, pc)) /\
  (forall outcomes,
      backends pc !! backend = Some outcomes ->
      Z.of_nat (length outcomes) <= maxInt64 ->
      minInt64 < windowSize pc <= maxInt64 ->
      let kept := dropWhile (fun o => timestamp o <? now - windowSize pc) outcomes in
      let count := Z.of_nat (length kept) in
      let failures := Z.of_nat (length (filter (fun o => success o = false) kept)) in
      let errorRate := Float64.div (Float64.ofInt failures) (Float64.ofInt count) in
      (StronglySorted (fun a b => timestamp a <= timestamp b) outcomes ->
       kept = filter (fun o => now - windowSize pc <= timestamp o) outcomes) /\
      backends (snd (IsHealthy now backend pc)) !! backend = Some kept /\
      (count < minRequests pc -> fst (IsHealthy now backend pc) = true) /\
      (minRequests pc <= count ->
       (fst (IsHealthy now backend pc) = true <->
        SFcompare errorRate (errorThreshold pc) = Some Lt) /\
       (SFcompare errorRate (errorThreshold pc) = Some Eq ->
        fst (IsHealthy now backend pc) = false))).
Proof.
  split.
  - intros Hb. unfold IsHealthy. by rewrite Hb.
  - intros outcomes Hb Hlen Hwin kept count failures errorRate.
    assert (Hcut : Add now (wrap64 (- windowSize pc)) = now - windowSize pc).
    { unfold Add. rewrite wrap64_id; [lia|].
      unfold inInt64, minInt64, maxInt64 in *. lia. }
    assert (Htrim : trim now (windowSize pc) outcomes = kept).
    { rewrite trim_dropWhile, Hcut. done. }
    assert (Hklen : Z.of_nat (length kept) <= maxInt64).
    { pose proof (dropWhile_length (fun o => timestamp o <? now - windowSize pc) outcomes).
      subst kept. lia. }
    unfold IsHealthy. rewrite Hb. cbv zeta. rewrite Htrim.
    fold count. rewrite (countFailures_filter kept Hklen). fold failures.
    fold errorRate.
    split; [|split; [|split]].
    + intros Hs. subst kept. by rewrite <- dropWhile_sorted.
    + destruct (count <? minRequests pc); simpl; by rewrite lookup_insert_eq.
    + intros Hlt. by apply Z.ltb_lt in Hlt as ->.
    + intros Hge. apply Z.ltb_ge in Hge as ->. simpl.
      unfold Float64.ltb, SFltb.
      destruct (SFcompare errorRate (errorThreshold pc)) as [[| |]|]; split;
        (done || (split; done)).
Qed.

(** Two outcomes in the window, one of them a failure, [minRequests = 2]
    and threshold [0.5]: the error rate equals the threshold. *)
Definition halfFailing : PassiveChecker :=
  RecordFailure 20 "b" (RecordSuccess 10 "b"
    (NewPassiveChecker 1000 (Float64.div (Float64.ofInt 1) (Float64.ofInt 2)) 2)).

Lemma passive_is_healthy_witness :
  fst (IsHealthy 30 "b" halfFailing) = false /\
  fst (IsHealthy 30 "other" halfFailing) = true.
Proof.
  pose proof (passive_is_healthy 30 "b" halfFailing) as [_ H].
  pose proof (passive_is_healthy 30 "other" halfFailing) as [H' _].
  split.
  - specialize (H [mkRequestOutcome 10 true; mkRequestOutcome 20 false]).
    destruct H as (_ & _ & _ & H).
    + reflexivity.
    + vm_compute. discriminate.
    + vm_compute. split; [reflexivity | discriminate].
    + destruct H as [_ H]; [vm_compute; discriminate|].
      apply H. reflexivity.
  - rewrite H'; reflexivity.
Defined.

(** [ErrorRate]: the rate over the log as it stands (it is not trimmed). *)
Definition ErrorRate (backend : string) (pc : PassiveChecker) : Float64.float64 :=
  match backends pc !! backend with
  | None => Float64.zero
  | Some outcomes =>
      if (length outcomes =? 0)%nat then Float64.zero
      else Float64.div (Float64.ofInt (countFailures outcomes))
                       (Float64.ofInt (Z.of_nat (length outcomes)))
  end.

Definition inOrder (outcomes : list requestOutcome) : Prop :=
  StronglySorted (fun a b => timestamp a <= timestamp b) outcomes.

Lemma inOrder_snoc outcomes o :
  inOrder outcomes -> Forall (fun a => timestamp a <= timestamp o) outcomes ->
  inOrder (outcomes ++ [o]).
Proof.
  unfold inOrder. induction 1 as [|x l Hs IH Hall]; intros Hle; cbn.
  - repeat constructor.
  - apply Forall_cons in Hle as [Hx Hl]. constructor; [by apply IH|].
    apply Forall_app. split; [done|]. by repeat constructor.
Qed.

Lemma inOrder_filter (P : requestOutcome -> Prop) `{!forall o, Decision (P o)} outcomes :
  inOrder outcomes -> inOrder (filter P outcomes).
Proof.
  unfold inOrder. induction 1 as [|x l Hs IH Hall]; [constructor|].
  rewrite filter_cons. destruct (decide (P x)); [|done].
  constructor; [done|]. rewrite Forall_forall in Hall. apply Forall_forall.
  intros y Hy. apply list_elem_of_filter in Hy as [_ Hy]. by apply Hall.
Qed.

(** X11.  [record] keeps a backend's log to the window.  With a window
    size that is a non-negative [Duration] and a log in clock order whose
    outcomes are no later than [now], the log after recording at [now] is
    the outcomes no older than [now - windowSize], in order, followed by
    the new outcome; the logs of other backends stay as they are. *)
Theorem record_keeps_window (now : Time) (backend : string) (ok : bool)
    (pc : PassiveChecker) :
  let outcomes := default [] (backends pc !! backend) in
  0 <= windowSize pc <= maxInt64 ->
  inOrder outcomes ->
  Forall (fun o => timestamp o <= now) outcomes ->
  backends (record now backend ok pc) !! backend
    = Some (filter (fun o => now - windowSize pc <= timestamp o) outcomes
              ++ [{| timestamp := now; success := ok |}]) /\
  inOrder (filter (fun o => now - windowSize pc <= timestamp o) outcomes
             ++ [{| timestamp := now; success := ok |}]) /\
  forall b, b <> backend ->
            backends (record now backend ok pc) !! b = backends pc !! b.
Proof.
  cbv zeta. intros HW Hord Hpast.
  set (outcomes := default [] (backends pc !! backend)) in *.
  set (new := {| timestamp := now; success := ok |}).
  assert (Hsnoc : inOrder (outcomes ++ [new])) by (by apply inOrder_snoc).
  assert (Hcut : Add now (wrap64 (- windowSize pc)) = now - windowSize pc).
  { unfold Add. rewrite wrap64_id by (unfold inInt64, minInt64, maxInt64 in *; lia). lia. }
  assert (Hkept : trim now (windowSize pc) (outcomes ++ [new])
                  = filter (fun o => now - windowSize pc <= timestamp o) outcomes ++ [new]).
  { rewrite trim_dropWhile, Hcut, dropWhile_sorted by done.
    rewrite filter_app. f_equal. rewrite filter_cons, filter_nil.
    rewrite decide_True by (cbn; lia). done. }
  split; [|split].
  - unfold record. cbn [backends setBackends]. fold outcomes new.
    by rewrite lookup_insert_eq, Hkept.
  - rewrite <- Hkept, trim_dropWhile, Hcut, dropWhile_sorted by done.
    by apply inOrder_filter.
  - intros b Hb. unfold record. cbn [backends setBackends].
    by rewrite lookup_insert_ne.
Qed.

Lemma record_keeps_window_witness :
  backends (record 100 "a" false
              (record 40 "a" true (record 10 "a" false (NewPassiveChecker 50 Float64.one 1))))
    !! "a"%string
  = Some (filter (fun o => 100 - 50 <= timestamp o)
            (default [] (backends (record 40 "a" true
               (record 10 "a" false (NewPassiveChecker 50 Float64.one 1))) !! "a"%string))
          ++ [{| timestamp := 100; success := false |}]).
Proof.
  apply (record_keeps_window 100 "a" false
           (record 40 "a" true (record 10 "a" false (NewPassiveChecker 50 Float64.one 1)))).
  - cbn. unfold maxInt64. lia.
  - set (l := default [] _). vm_compute in l. subst l.
    unfold inOrder. repeat constructor; cbn; lia.
  - set (l := default [] _). vm_compute in l. subst l.
    repeat constructor; cbn; lia.
Defined.

Lemma trim_all_stale now window outcomes :
  minInt64 < window <= maxInt64 ->
  Forall (fun o => timestamp o < now - window) outcomes ->
  trim now window outcomes = [].
Proof.
  intros HW Hall. rewrite trim_dropWhile.
  assert (Hcut : Add now (wrap64 (- window)) = now - window).
  { unfold Add. rewrite wrap64_id by (unfold inInt64, minInt64, maxInt64 in *; lia). lia. }
  rewrite Hcut. induction Hall as [|o l Ho _ IH]; [done|].
  cbn [dropWhile]. unfold Before at 1.
  destruct (Z.ltb_spec (timestamp o) (now - window)); [done|lia].
Qed.

(** X12.  [ErrorRate] is 0 for a backend with no log or an empty log.
    After [IsHealthy] has trimmed a backend's log, if outcomes remain and
    they are at least [minRequests], the answer of [IsHealthy] is whether
    [ErrorRate] compares below [errorThreshold].  On a log trimmed to
    empty the two differ when [minRequests <= 0]: [IsHealthy] divides 0 by
    0 and answers false (a NaN is below nothing), though [ErrorRate]
    reports 0. *)
Theorem error_rate_and_health (now : Time) (backend : string) (pc : PassiveChecker)
    (outcomes : list requestOutcome) :
  backends pc !! backend = Some outcomes ->
  let kept := trim now (windowSize pc) outcomes in
  let pc' := snd (IsHealthy now backend pc) in
  backends pc' !! backend = Some kept /\
  (kept <> [] -> minRequests pc <= Z.of_nat (length kept) ->
   fst (IsHealthy now backend pc)
   = Float64.ltb (ErrorRate backend pc') (errorThreshold pc)) /\
  (kept = [] -> minRequests pc <= 0 ->
   fst (IsHealthy now backend pc) = false /\ ErrorRate backend pc' = Float64.zero) /\
  (minInt64 < windowSize pc <= maxInt64 ->
   Forall (fun o => timestamp o < now - windowSize pc) outcomes -> kept = []).
Proof.
  intros Hlog. cbv zeta. unfold IsHealthy. rewrite Hlog.
  set (kept := trim now (windowSize pc) outcomes).
  set (pc1 := setBackends (<[backend := kept]> (backends pc)) pc).
  assert (Hkept : backends pc1 !! backend = Some kept)
    by (subst pc1; cbn; by rewrite lookup_insert_eq).
  assert (Hsnd : snd (if Z.of_nat (length kept) <? minRequests pc
                      then (true, pc1)
                      else (Float64.ltb
                              (Float64.div (Float64.ofInt (countFailures kept))
                                 (Float64.ofInt (Z.of_nat (length kept))))
                              (errorThreshold pc), pc1)) = pc1)
    by (by destruct (_ <? _)).
  rewrite Hsnd. split; [done|]. split; [|split].
  - intros Hne Hmin. destruct (Z.ltb_spec (Z.of_nat (length kept)) (minRequests pc)); [lia|].
    cbn [fst]. unfold ErrorRate. rewrite Hkept.
    destruct kept as [|o kept']; [done|]. reflexivity.
  - intros Hnil Hmin. rewrite Hnil in *. cbn [length].
    destruct (Z.ltb_spec (Z.of_nat 0) (minRequests pc)); [lia|]. cbn [fst].
    split.
    + change (Float64.div (Float64.ofInt (countFailures []))
                (Float64.ofInt (Z.of_nat 0))) with S754_nan.
      unfold Float64.ltb, SFltb. cbn. reflexivity.
    + unfold ErrorRate. by rewrite Hkept.
  - intros HW Hstale. by apply trim_all_stale.
Qed.

(** A backend recorded once at time 0, checked at time 100 with a window
    of 50 and [minRequests = 0]. *)
Lemma error_rate_and_health_witness :
  fst (IsHealthy 100 "a" (record 0 "a" true (NewPassiveChecker 50 Float64.one 0))) = false
  /\ ErrorRate "a" (snd (IsHealthy 100 "a"
                           (record 0 "a" true (NewPassiveChecker 50 Float64.one 0))))
     = Float64.zero.
Proof.
  destruct (error_rate_and_health 100 "a"
              (record 0 "a" true (NewPassiveChecker 50 Float64.one 0))
              [{| timestamp := 0; success := true |}])
    as (_ & _ & Hempty & _); [reflexivity|].
  apply Hempty; [reflexivity | cbn; lia].
Defined.

End PassiveChecker.

(** *** Combined checker and healthy pool *)

Module CombinedChecker.

Record CombinedChecker := mkCombinedChecker {
  active : ActiveChecker.ActiveChecker;
  passive : PassiveChecker.PassiveChecker
}.

(** [active.IsHealthy(b) && passive.IsHealthy(b)]: the passive check, which
    trims the backend's log, runs only when the active one passes. *)
Definition IsHealthy (now : Time) (backend : string) (c : CombinedChecker)
    : bool * CombinedChecker :=
  if ActiveChecker.IsHealthy backend (active c) then
    let '(ok, p) := PassiveChecker.IsHealthy now backend (passive c) in
    (ok, {| active := active c; passive := p |})
  else (false, c).

End CombinedChecker.

Module HealthyPool.

Inductive error := ErrAllBackendsUnhealthy.

Record HealthyPool := mkHealthyPool {
  all : list string;
  checker : CombinedChecker.CombinedChecker
}.

Definition NewHealthyPool (backends : list string)
    (checker : CombinedChecker.CombinedChecker) : HealthyPool :=
  {| all := backends; checker := checker |}.

(** The loop [for _, backend := range hp.all] from the [i]-th backend on;
    [clock i] is what the clock reads while the [i]-th backend is checked. *)
Fixpoint healthyLoop (clock : nat -> Time) (i : nat) (rest : list string)
    (healthy : list string) (c : CombinedChecker.CombinedChecker)
    : list string * CombinedChecker.CombinedChecker :=
  match rest with
  | [] => (healthy, c)
  | backend :: rest' =>
      let '(ok, c') := CombinedChecker.IsHealthy (clock i) backend c in
      healthyLoop clock (S i) rest' (if ok then healthy ++ [backend] else healthy) c'
  end.

Definition Healthy (clock : nat -> Time) (hp : HealthyPool)
    : list string * HealthyPool :=
  let '(healthy, c) := healthyLoop clock 0 (all hp) [] (checker hp) in
  let hp' := {| all := all hp; checker := c |} in
  if (length healthy =? 0)%nat then ([] ++ all hp, hp') else (healthy, hp').

Definition HealthyOrError (clock : nat -> Time) (hp : HealthyPool)
    : (list string * option error) * HealthyPool :=
  let '(healthy, c) := healthyLoop clock 0 (all hp) [] (checker hp) in
  let hp' := {| all := all hp; checker := c |} in
  if (length healthy =? 0)%nat then (([], Some ErrAllBackendsUnhealthy), hp')
  else ((healthy, None), hp').

(** The answers of the combined check for the backends [rest], in order,
    the [i]-th one at clock reading [clock i]. *)
Fixpoint verdicts (clock : nat -> Time) (i : nat) (rest : list string)
    (c : CombinedChecker.CombinedChecker) : list bool :=
  match rest with
  | [] => []
  | backend :: rest' =>
      let '(ok, c') := CombinedChecker.IsHealthy (clock i) backend c in
      ok :: verdicts clock (S i) rest' c'
  end.

(** The backends whose answer is true, in the order of the list. *)
Fixpoint passing (backends : list string) (oks : list bool) : list string :=
  match backends, oks with
  | b :: backends', ok :: oks' =>
      if ok then b :: passing backends' oks' else passing backends' oks'
  | _, _ => []
  end.

Lemma healthyLoop_passing clock rest : forall i healthy c,
  fst (healthyLoop clock i rest healthy c)
  = healthy ++ passing rest (verdicts clock i rest c).
Proof.
  induction rest as [|b rest IH]; intros i healthy c; cbn [healthyLoop verdicts passing].
  - by rewrite app_nil_r.
  - destruct (CombinedChecker.IsHealthy (clock i) b c) as [[|] c'].
    + rewrite IH. by rewrite <- app_assoc.
    + by rewrite IH.
Qed.

Lemma passing_all_false backends oks :
  Forall (fun ok => ok = false) oks -> passing backends oks = [].
Proof.
  intros H. revert backends.
  induction H as [|ok oks -> _ IH]; intros [|b bs]; simpl; auto.
Qed.

Lemma passing_some_true backends oks :
  length oks = length backends ->
  Exists (fun ok => ok = true) oks -> passing backends oks <> [].
Proof.
  intros Hlen H. revert backends Hlen.
  induction H as [ok oks ->|ok oks _ IH]; intros [|b bs] Hlen; simplify_eq/=.
  - done.
  - destruct ok; [done|]. by apply IH.
Qed.

Lemma verdicts_length clock rest : forall i c,
  length (verdicts clock i rest c) = length rest.
Proof.
  induction rest as [|b rest IH]; intros i c; cbn [verdicts]; [done|].
  destruct (CombinedChecker.IsHealthy (clock i) b c). simpl. by rewrite IH.
Qed.

Lemma passing_sublist backends : forall oks,
  sublist (passing backends oks) backends.
Proof.
  induction backends as [|b bs IH]; intros [|[|] oks]; simpl;
    try apply sublist_nil_l.
  - by apply sublist_skip.
  - by apply sublist_cons.
Qed.

(** C7. When no backend passes the combined check, [Healthy] returns the
    whole configured list and [HealthyOrError] returns no backends with
    [ErrAllBackendsUnhealthy]; when some backend passes, both return the
    passing backends, in configured order, and no error. *)
Theorem healthy_pool_fail_open_closed clock hp :
  let oks := verdicts clock 0 (all hp) (checker hp) in
  (Forall (fun ok => ok = false) oks ->
   fst (Healthy clock hp) = all hp /\
   fst (HealthyOrError clock hp) = ([], Some ErrAllBackendsUnhealthy)) /\
  (Exists (fun ok => ok = true) oks ->
   fst (Healthy clock hp) = passing (all hp) oks /\
   fst (HealthyOrError clock hp) = (passing (all hp) oks, None) /\
   sublist (passing (all hp) oks) (all hp)).
Proof.
  intros oks.
  pose proof (healthyLoop_passing clock (all hp) 0 [] (checker hp)) as Hloop.
  fold oks in Hloop. simpl in Hloop.
  unfold Healthy, HealthyOrError.
  destruct (healthyLoop clock 0 (all hp) [] (checker hp)) as [healthy c].
  simpl in Hloop. subst healthy. split.
  - intros Hnone. rewrite passing_all_false by done. by simpl.
  - intros Hsome.
    pose proof (passing_some_true (all hp) oks
                  (verdicts_length clock (all hp) 0 (checker hp)) Hsome) as Hne.
    destruct (passing (all hp) oks) as [|b bs] eqn:Hp; [done|]. simpl.
    split; [done|]. split; [done|]. rewrite <- Hp. apply passing_sublist.
Qed.

(** A pool of two backends with the given active statuses and no passive
    data. *)
Definition poolAB (sa sb : ActiveChecker.Status) : HealthyPool :=
  NewHealthyPool ["a"; "b"]%string
    {| CombinedChecker.active :=
         {| ActiveChecker.backends :=
              <["a"%string := ActiveChecker.mkBackendStatus sa 0 0]>
                (<["b"%string := ActiveChecker.mkBackendStatus sb 0 0]> ∅);
            ActiveChecker.healthyThreshold := 2;
            ActiveChecker.unhealthyThreshold := 2 |};
       CombinedChecker.passive :=
         PassiveChecker.NewPassiveChecker 1000 Float64.one 2 |}.

Lemma healthy_pool_fail_open_closed_witness :
  (fst (Healthy (fun _ => 5)
          (poolAB ActiveChecker.StatusUnhealthy ActiveChecker.StatusUnhealthy))
   = ["a"; "b"]%string /\
   fst (HealthyOrError (fun _ => 5)
          (poolAB ActiveChecker.StatusUnhealthy ActiveChecker.StatusUnhealthy))
   = ([], Some ErrAllBackendsUnhealthy)) /\
  (fst (Healthy (fun _ => 5)
          (poolAB ActiveChecker.StatusUnhealthy ActiveChecker.StatusHealthy))
   = ["b"]%string /\
   fst (HealthyOrError (fun _ => 5)
          (poolAB ActiveChecker.StatusUnhealthy ActiveChecker.StatusHealthy))
   = (["b"]%string, None)).
Proof.
  split.
  - apply (healthy_pool_fail_open_closed (fun _ => 5)
             (poolAB ActiveChecker.StatusUnhealthy ActiveChecker.StatusUnhealthy)).
    vm_compute. repeat constructor.
  - destruct (healthy_pool_fail_open_closed (fun _ => 5)
                (poolAB ActiveChecker.StatusUnhealthy ActiveChecker.StatusHealthy))
      as [_ H].
    destruct H as (H1 & H2 & _).
    + vm_compute. apply Exists_cons_tl, Exists_cons_hd. reflexivity.
    + split; [exact H1 | exact H2].
Defined.

(** [All]: a copy of the configured list. *)
Definition All (hp : HealthyPool) : list string := [] ++ all hp.

Definition setActive (a : ActiveChecker.ActiveChecker) (c : CombinedChecker.CombinedChecker)
  : CombinedChecker.CombinedChecker :=
  {| CombinedChecker.active := a; CombinedChecker.passive := CombinedChecker.passive c |}.

(** [AddBackend] appends without looking for the backend in the list. *)
Definition AddBackend (backend : string) (hp : HealthyPool) : HealthyPool :=
  {| all := all hp ++ [backend];
     checker := setActive (ActiveChecker.AddBackend backend
                             (CombinedChecker.active (checker hp))) (checker hp) |}.

(** The loop of [RemoveBackend]: cut out the first occurrence and stop. *)
Fixpoint removeFirst (backend : string) (l : list string) : list string :=
  match l with
  | [] => []
  | b :: rest => if String.eqb b backend then rest else b :: removeFirst backend rest
  end.

Definition RemoveBackend (backend : string) (hp : HealthyPool) : HealthyPool :=
  {| all := removeFirst backend (all hp);
     checker := setActive (ActiveChecker.RemoveBackend backend
                             (CombinedChecker.active (checker hp))) (checker hp) |}.

Lemma removeFirst_split backend l1 l2 :
  backend ∉ l1 -> removeFirst backend (l1 ++ backend :: l2) = l1 ++ l2.
Proof.
  induction l1 as [|b l1 IH]; intros Hnotin; cbn [app removeFirst].
  - by rewrite String.eqb_refl.
  - apply not_elem_of_cons in Hnotin as [Hne Hnotin].
    destruct (String.eqb_spec b backend) as [->|_]; [done|].
    f_equal. by apply IH.
Qed.

Lemma removeFirst_absent backend l : backend ∉ l -> removeFirst backend l = l.
Proof.
  induction l as [|b l IH]; intros Hnotin; cbn [removeFirst]; [done|].
  apply not_elem_of_cons in Hnotin as [Hne Hnotin].
  destruct (String.eqb_spec b backend) as [->|_]; [done|].
  f_equal. by apply IH.
Qed.

(** X13.  The pool's list is kept as a sequence, not a set.  [AddBackend]
    always appends, so adding a backend that is already listed lists it
    twice; [RemoveBackend] cuts out the first occurrence only (and nothing
    when there is none), while it stops the active monitoring of the
    backend altogether: a backend still listed after a [RemoveBackend]
    passes the active check whatever its status was.  Adding a backend
    that is neither listed nor monitored and removing it again gives back
    the pool as it was. *)
Theorem pool_add_remove (hp : HealthyPool) (backend : string) :
  All (AddBackend backend hp) = All hp ++ [backend] /\
  (forall l1 l2, all hp = l1 ++ backend :: l2 -> backend ∉ l1 ->
                 All (RemoveBackend backend hp) = l1 ++ l2) /\
  (backend ∉ all hp -> All (RemoveBackend backend hp) = All hp) /\
  ActiveChecker.IsHealthy backend
    (CombinedChecker.active (checker (RemoveBackend backend hp))) = true /\
  (backend ∉ all hp ->
   ActiveChecker.backends (CombinedChecker.active (checker hp)) !! backend = None ->
   RemoveBackend backend (AddBackend backend hp) = hp).
Proof.
  split; [done|]. split; [|split; [|split]].
  - intros l1 l2 Hall Hnotin. unfold All, RemoveBackend. cbn [all app].
    rewrite Hall. by apply removeFirst_split.
  - intros Hnotin. unfold All, RemoveBackend. cbn [all app].
    by apply removeFirst_absent.
  - cbn. unfold ActiveChecker.IsHealthy, ActiveChecker.RemoveBackend. cbn.
    by rewrite lookup_delete_eq.
  - intros Hnotin Hnone. destruct hp as [l [[m ht ut] p]]. cbn in *.
    unfold RemoveBackend, AddBackend. cbn.
    rewrite removeFirst_split, app_nil_r by done. f_equal.
    unfold setActive, ActiveChecker.AddBackend, ActiveChecker.RemoveBackend. cbn.
    rewrite Hnone. cbn. unfold ActiveChecker.setBackends. cbn.
    by rewrite delete_insert_id.
Qed.

End HealthyPool.

End Health.

(** ** Router and hot reload (package router) *)

Module Routing.
Import GoTime.

(** *** Configuration (config.go) *)

Record RouteConfig := mkRouteConfig {
  cfgPath : string;
  cfgHeaders : gmap string string;
  cfgBackends : list string
}.

Record GatewayConfig := mkGatewayConfig {
  Routes : list RouteConfig
}.

Inductive configError :=
| ErrReadConfig                            (* read config: ... *)
| ErrParseConfig                           (* parse config: ... *)
| ErrNoRoutes                              (* config must have at least one route *)
| ErrEmptyPath (i : nat)                   (* route i: path cannot be empty *)
| ErrNoBackends (i : nat) (path : string). (* route i (path): must have at least one backend *)

(** The loop of [validateConfig] from route [i] on. *)
Fixpoint validateRoutes (i : nat) (routes : list RouteConfig) : option configError :=
  match routes with
  | [] => None
  | route :: rest =>
      if String.eqb (cfgPath route) EmptyString then Some (ErrEmptyPath i)
      else if (length (cfgBackends route) =? 0)%nat
           then Some (ErrNoBackends i (cfgPath route))
           else validateRoutes (S i) rest
  end.

Definition validateConfig (cfg : GatewayConfig) : option configError :=
  if (length (Routes cfg) =? 0)%nat then Some ErrNoRoutes
  else validateRoutes 0 (Routes cfg).

(** *** Compiled routes and matching (router.go) *)

Record Route := mkRoute {
  Path : string;
  Headers : gmap string string;
  Backends : list string
}.

Record Router := mkRouter {
  routes : list Route
}.

(** An [http.Request], as far as [Match] reads it. *)
Record Request := mkRequest {
  URLPath : string;
  Header : gmap string (list string)
}.

(** [strings.HasPrefix], [strings.HasSuffix] and [strings.TrimSuffix]. *)
Definition HasPrefix (s prefix : string) : bool := String.prefix prefix s.

Definition HasSuffix (s suffix : string) : bool :=
  (String.length suffix <=? String.length s)%nat &&
  String.eqb (substring (String.length s - String.length suffix)
                        (String.length suffix) s) suffix.

Definition TrimSuffix (s suffix : string) : string :=
  if HasSuffix s suffix
  then substring 0 (String.length s - String.length suffix) s
  else s.

Definition compile (rc : RouteConfig) : Route :=
  let path := TrimSuffix (cfgPath rc) "/*" in
  let path := TrimSuffix path "*" in
  {| Path := path; Headers := cfgHeaders rc; Backends := cfgBackends rc |}.

(** The comparison given to [sort.Slice]: longer path first, then more
    required headers first. *)
Definition moreSpecific (a b : Route) : bool :=
  if negb (String.length (Path a) =? String.length (Path b))%nat
  then (String.length (Path b) <? String.length (Path a))%nat
  else (size (Headers b) <? size (Headers a))%nat.

(** **** What it means for a route to match (the specification's words) *)

(** A required value [*] asks for any non-empty value; any other required
    value must be the header's value. *)
Definition headerMatches (required got : string) : Prop :=
  if decide (required = "*"%string) then got <> EmptyString else got = required.

Lemma prefix_app p s :
  String.prefix p s = true <-> exists rest, s = (p ++ rest)%string.
Proof.
  revert s. induction p as [|c p IH]; intros [|c' s]; simpl.
  - split; [by exists EmptyString|done].
  - split; [by eexists|done].
  - split; [done|]. by intros [rest ?].
  - destruct (Ascii.ascii_dec c c') as [->|Hne].
    + rewrite IH. split; intros [rest Hr]; exists rest.
      * by rewrite Hr.
      * by injection Hr.
    + split; [done|]. intros [rest Hr]. by injection Hr.
Qed.

Lemma sorted_lookup {A : Type} (R : A -> A -> Prop) (l : list A) :
  StronglySorted R l ->
  forall i j a b, (i < j)%nat -> l !! i = Some a -> l !! j = Some b -> R a b.
Proof.
  induction 1 as [|x l Hs IH Hall]; intros i j a b Hij Ha Hb; [done|].
  destruct j as [|j]; [lia|]. simpl in Hb. destruct i as [|i].
  - simpl in Ha. injection Ha as ->. rewrite Forall_forall in Hall.
    apply Hall. by eapply list_elem_of_lookup_2.
  - simpl in Ha. apply (IH i j); [lia|done..].
Qed.

Lemma moreSpecific_false a b :
  moreSpecific b a = false ->
  (String.length (Path b) < String.length (Path a))%nat \/
  (String.length (Path a) = String.length (Path b) /\
   (size (Headers b) <= size (Headers a))%nat).
Proof.
  unfold moreSpecific.
  destruct (Nat.eqb_spec (String.length (Path b)) (String.length (Path a))) as [He|Hne];
    simpl.
  - intros H%Nat.ltb_ge. right. split; [done|lia].
  - intros H%Nat.ltb_ge. left. lia.
Qed.

(** **** What [validateConfig] accepts *)

Definition validRoute (rc : RouteConfig) : Prop :=
  cfgPath rc <> EmptyString /\ cfgBackends rc <> [].

Lemma validateRoutes_spec routes : forall i,
  match validateRoutes i routes with
  | None => Forall validRoute routes
  | Some err =>
      exists (k : nat) rc,
        routes !! k = Some rc /\ Forall validRoute (take k routes) /\
        ((cfgPath rc = EmptyString /\ err = ErrEmptyPath (i + k)) \/
         (cfgPath rc <> EmptyString /\ cfgBackends rc = [] /\
          err = ErrNoBackends (i + k) (cfgPath rc)))
  end.
Proof.
  induction routes as [|rc rest IH]; intros i; cbn [validateRoutes]; [constructor|].
  destruct (String.eqb_spec (cfgPath rc) EmptyString) as [Hp|Hp].
  { exists O, rc. rewrite Nat.add_0_r. split; [done|]. split; [constructor|]. by left. }
  destruct (cfgBackends rc) as [|b bs] eqn:Hb; cbn [length Nat.eqb].
  { exists O, rc. rewrite Nat.add_0_r. split; [done|]. split; [constructor|]. right.
    by rewrite Hb. }
  assert (Hrc : validRoute rc) by (split; [done|by rewrite Hb]).
  specialize (IH (S i)). destruct (validateRoutes (S i) rest) as [err|].
  - destruct IH as (k & rc' & Hk & Htake & Herr). exists (S k), rc'.
    split; [done|]. split; [by constructor|].
    replace (i + S k)%nat with (S i + k)%nat by lia. done.
  - by constructor.
Qed.

(** X20.  [validateConfig] accepts a configuration exactly when it has at
    least one route and every route has a path that is not empty and at
    least one backend.  Otherwise the error names the first route that
    fails (all routes before it are valid), the empty path being checked
    before the missing backends. *)
Theorem validateConfig_spec (cfg : GatewayConfig) :
  (validateConfig cfg = None <->
   Routes cfg <> [] /\ Forall validRoute (Routes cfg)) /\
  (validateConfig cfg = Some ErrNoRoutes <-> Routes cfg = []) /\
  (forall i, validateConfig cfg = Some (ErrEmptyPath i) ->
     exists rc, Routes cfg !! i = Some rc /\ cfgPath rc = EmptyString /\
                Forall validRoute (take i (Routes cfg))) /\
  (forall i path, validateConfig cfg = Some (ErrNoBackends i path) ->
     exists rc, Routes cfg !! i = Some rc /\ cfgPath rc = path /\
                path <> EmptyString /\ cfgBackends rc = [] /\
                Forall validRoute (take i (Routes cfg))).
Proof.
  unfold validateConfig. destruct cfg as [routes]. cbn [Routes].
  destruct routes as [|rc0 rest]; cbn [length Nat.eqb].
  { split; [split; [done|by intros [? _]]|]. split; [done|]. split; intros; done. }
  pose proof (validateRoutes_spec (rc0 :: rest) 0) as Hspec.
  set (routes := rc0 :: rest) in *.
  destruct (validateRoutes 0 routes) as [err|].
  - destruct Hspec as (k & rc & Hk & Htake & Herr). split; [|split; [|split]].
    + split; [done|]. intros [_ Hall]. exfalso.
      rewrite Forall_forall in Hall.
      destruct (Hall rc ltac:(by eapply list_elem_of_lookup_2)) as [Hp Hb].
      destruct Herr as [[? _]|(_ & ? & _)]; congruence.
    + split; [|intros ->; done].
      intros [= ->]. destruct Herr as [[_ ?]|(_ & _ & ?)]; done.
    + intros i [= ->]. destruct Herr as [[Hp [= ->]]|(_ & _ & ?)]; [|done].
      by exists rc.
    + intros i path [= ->]. destruct Herr as [[_ ?]|(Hp & Hb & [= -> ->])]; [done|].
      by exists rc.
  - split; [|split; [|split]]; done.
Qed.

(** **** Trimming a suffix *)

Lemma length_string_app (p s : string) :
  String.length (p ++ s) = (String.length p + String.length s)%nat.
Proof. induction p as [|c p IH]; [done|]. simpl. by f_equal. Qed.

Lemma substring_whole (s : string) : substring 0 (String.length s) s = s.
Proof. induction s as [|c s IH]; [done|]. simpl. by f_equal. Qed.

Lemma substring_suffix (p s : string) :
  substring (String.length p) (String.length s) (p ++ s) = s.
Proof. induction p as [|c p IH]; simpl; [apply substring_whole|done]. Qed.

Lemma substring_prefix (p s : string) :
  substring 0 (String.length p) (p ++ s) = p.
Proof.
  induction p as [|c p IH]; simpl; [by destruct s|]. by f_equal.
Qed.

Lemma HasSuffix_app (p s : string) : HasSuffix (p ++ s) s = true.
Proof.
  unfold HasSuffix. rewrite length_string_app.
  replace (String.length p + String.length s - String.length s)%nat
    with (String.length p) by lia.
  rewrite substring_suffix, String.eqb_refl.
  destruct (Nat.leb_spec (String.length s) (String.length p + String.length s)); [done|lia].
Qed.

Lemma TrimSuffix_app (p s : string) : TrimSuffix (p ++ s) s = p.
Proof.
  unfold TrimSuffix. rewrite HasSuffix_app, length_string_app.
  replace (String.length p + String.length s - String.length s)%nat
    with (String.length p) by lia.
  apply substring_prefix.
Qed.

Section Router.

(** [textproto.CanonicalMIMEHeaderKey], by which [Header.Get] looks a key up. *)
Variable CanonicalMIMEHeaderKey : string -> string.

(** [sort.Slice]: it leaves a permutation of the list in which no element
    is followed, anywhere later, by one that must come before it. The
    order of elements that compare equal is not specified. *)
Variable sortSlice : (Route -> Route -> bool) -> list Route -> list Route.
Hypothesis sortSlice_perm : forall less l, sortSlice less l ≡ₚ l.
Hypothesis sortSlice_sorted : forall l,
  StronglySorted (fun a b => moreSpecific b a = false) (sortSlice moreSpecific l).

(** [yaml.Unmarshal] into a [GatewayConfig]; [None] is a parse error. *)
Variable yamlUnmarshal : string -> option GatewayConfig.

Definition HeaderGet (req : Request) (key : string) : string :=
  match Header req !! CanonicalMIMEHeaderKey key with
  | Some (v :: _) => v
  | _ => EmptyString
  end.

Definition New (cfg : GatewayConfig) : Router :=
  {| routes := sortSlice moreSpecific (compile <$> Routes cfg) |}.

(** One iteration of the loop of [matchHeaders]. *)
Definition headerOk (req : Request) (kv : string * string) : bool :=
  let got := HeaderGet req kv.1 in
  if String.eqb kv.2 "*" then negb (String.eqb got EmptyString)
  else String.eqb got kv.2.

(** [matchHeaders] stops at the first required header that fails; the order
    in which Go ranges over the map does not change the answer. *)
Definition matchHeaders (req : Request) (required : gmap string string) : bool :=
  forallb (headerOk req) (map_to_list required).

(** The loop of [Match] over the routes that are left. *)
Fixpoint matchLoop (req : Request) (rest : list Route) : option Route :=
  match rest with
  | [] => None
  | route :: rest' =>
      if negb (HasPrefix (URLPath req) (Path route)) then matchLoop req rest'
      else if negb (matchHeaders req (Headers route)) then matchLoop req rest'
      else Some route
  end.

Definition Match (req : Request) (r : Router) : option Route :=
  matchLoop req (routes r).

(** **** Properties of [Match] *)

Definition routeMatches (req : Request) (rt : Route) : Prop :=
  (exists rest, URLPath req = (Path rt ++ rest)%string) /\
  map_Forall (fun key value => headerMatches value (HeaderGet req key)) (Headers rt).

Lemma headerOk_spec req kv :
  headerOk req kv = true <-> headerMatches kv.2 (HeaderGet req kv.1).
Proof.
  unfold headerOk, headerMatches.
  destruct (String.eqb_spec kv.2 "*") as [He|Hne].
  - rewrite decide_True by done. rewrite negb_true_iff, String.eqb_neq. done.
  - rewrite decide_False by done. apply String.eqb_eq.
Qed.

Lemma matchHeaders_spec req required :
  matchHeaders req required = true <->
  map_Forall (fun key value => headerMatches value (HeaderGet req key)) required.
Proof.
  unfold matchHeaders. rewrite forallb_forall, map_Forall_lookup. split.
  - intros H k v Hkv. apply (headerOk_spec req (k, v)), H.
    by apply list_elem_of_In, elem_of_map_to_list.
  - intros H [k v] Hin%list_elem_of_In%elem_of_map_to_list.
    apply headerOk_spec. by apply H.
Qed.

Lemma matchLoop_head req route rest :
  matchLoop req (route :: rest) =
    if HasPrefix (URLPath req) (Path route) && matchHeaders req (Headers route)
    then Some route else matchLoop req rest.
Proof.
  simpl. destruct (HasPrefix _ _); simpl; [|done].
  by destruct (matchHeaders _ _).
Qed.

Lemma routeMatches_bool req rt :
  HasPrefix (URLPath req) (Path rt) && matchHeaders req (Headers rt) = true
  <-> routeMatches req rt.
Proof.
  unfold routeMatches, HasPrefix.
  by rewrite andb_true_iff, prefix_app, matchHeaders_spec.
Qed.

Lemma matchLoop_Some req l rt :
  matchLoop req l = Some rt <->
  exists i, l !! i = Some rt /\ routeMatches req rt /\
            forall j rt', (j < i)%nat -> l !! j = Some rt' -> ~ routeMatches req rt'.
Proof.
  induction l as [|r l IH]; [split; [done|by intros (i & ? & _)]|].
  rewrite matchLoop_head.
  destruct (HasPrefix _ _ && matchHeaders _ _) eqn:Hb.
  - apply routeMatches_bool in Hb. split.
    + intros [= <-]. exists O. split; [done|]. split; [done|]. intros; lia.
    + intros ([|i] & Hi & Hm & Hfirst); simpl in Hi; [congruence|].
      destruct (Hfirst O r); [lia|done|done].
  - assert (Hno : ~ routeMatches req r).
    { intros Hm%routeMatches_bool. congruence. }
    rewrite IH. split.
    + intros (i & Hi & Hm & Hfirst). exists (S i). split; [done|]. split; [done|].
      intros [|j] rt' Hj Hrt'; simpl in Hrt'; [congruence|].
      apply (Hfirst j); [lia|done].
    + intros ([|i] & Hi & Hm & Hfirst); simpl in Hi; [congruence|].
      exists i. split; [done|]. split; [done|].
      intros j rt' Hj Hrt'. apply (Hfirst (S j)); [lia|done].
Qed.

Lemma matchLoop_None req l :
  matchLoop req l = None <-> forall rt, rt ∈ l -> ~ routeMatches req rt.
Proof.
  induction l as [|r l IH]; [split; [by intros _ rt ?%elem_of_nil|done]|].
  rewrite matchLoop_head.
  destruct (HasPrefix _ _ && matchHeaders _ _) eqn:Hb.
  - apply routeMatches_bool in Hb. split; [done|].
    intros H. destruct (H r); [by left|done].
  - rewrite IH. split.
    + intros H rt [->|Hin]%elem_of_cons; [|by apply H].
      intros Hm%routeMatches_bool. congruence.
    + intros H rt Hin. apply H. by right.
Qed.

(** C4. The router's table is the configured routes (path wildcards
    stripped) in specificity order: longer path prefix first, and among
    equal lengths more required headers first.  [Match] returns the first
    route of the table whose path prefix is a prefix of the request path and
    whose required headers all match ([*] matching any non-empty value, any
    other required value by equality), and nil exactly when no route of the
    table does. *)
Theorem router_match (cfg : GatewayConfig) (req : Request) :
  let r := New cfg in
  routes r ≡ₚ compile <$> Routes cfg /\
  (forall i j a b,
      (i < j)%nat -> routes r !! i = Some a -> routes r !! j = Some b ->
      (String.length (Path b) < String.length (Path a))%nat \/
      (String.length (Path a) = String.length (Path b) /\
       (size (Headers b) <= size (Headers a))%nat)) /\
  (forall rt,
      Match req r = Some rt <->
      exists i, routes r !! i = Some rt /\ routeMatches req rt /\
                forall j rt', (j < i)%nat -> routes r !! j = Some rt' ->
                              ~ routeMatches req rt') /\
  (Match req r = None <-> forall rt, rt ∈ routes r -> ~ routeMatches req rt).
Proof.
  intros r. split_and!.
  - apply sortSlice_perm.
  - intros i j a b Hij Ha Hb. apply moreSpecific_false.
    by apply (sorted_lookup _ _ (sortSlice_sorted (compile <$> Routes cfg)) i j).
  - intros rt. apply matchLoop_Some.
  - apply matchLoop_None.
Qed.

(** *** Hot reload (hotreload.go) *)

(** What the file system answers during one check: [os.Stat]'s modification
    time and [os.ReadFile]'s content, [None] for an error. *)
Record FileSystem := mkFileSystem {
  Stat : string -> option Time;
  ReadFile : string -> option string
}.

Definition ParseConfig (data : string) : GatewayConfig + configError :=
  match yamlUnmarshal data with
  | None => inr ErrParseConfig
  | Some cfg =>
      match validateConfig cfg with
      | Some err => inr err
      | None => inl cfg
      end
  end.

Definition LoadConfig (fs : FileSystem) (path : string) : GatewayConfig + configError :=
  match ReadFile fs path with
  | None => inr ErrReadConfig
  | Some data => ParseConfig data
  end.

Record HotReloader := mkHotReloader {
  configPath : string;
  interval : Duration;
  router : Router;
  lastModTime : Time
}.

Definition NewHotReloader (fs : FileSystem) (configPath : string)
    (interval : Duration) : HotReloader + configError :=
  match LoadConfig fs configPath with
  | inr err => inr err
  | inl cfg =>
      match Stat fs configPath with
      | None => inr ErrReadConfig
      | Some modTime =>
          inl {| configPath := configPath; interval := interval;
                 router := New cfg; lastModTime := modTime |}
      end
  end.

(** [hr.Router()]. *)
Definition currentRouter (hr : HotReloader) : Router := router hr.

Definition checkAndReload (fs : FileSystem) (hr : HotReloader) : HotReloader :=
  match Stat fs (configPath hr) with
  | None => hr
  | Some modTime =>
      if negb (After modTime (lastModTime hr)) then hr
      else
        match LoadConfig fs (configPath hr) with
        | inr _ => hr
        | inl cfg =>
            {| configPath := configPath hr; interval := interval hr;
               router := New cfg; lastModTime := modTime |}
        end
  end.

(** C5. When the configuration that the check reads fails to load (the
    file cannot be read, does not parse, or fails validation), the reloader
    is left as it was: [Router()] returns the same router and the stored
    modification time is unchanged. *)
Theorem failed_reload_keeps_router (fs : FileSystem) (hr : HotReloader)
    (err : configError) :
  LoadConfig fs (configPath hr) = inr err ->
  checkAndReload fs hr = hr /\
  currentRouter (checkAndReload fs hr) = currentRouter hr /\
  lastModTime (checkAndReload fs hr) = lastModTime hr.
Proof.
  intros Hload.
  assert (H : checkAndReload fs hr = hr).
  { unfold checkAndReload. destruct (Stat fs (configPath hr)) as [modTime|]; [|done].
    destruct (negb (After modTime (lastModTime hr))); [done|].
    by rewrite Hload. }
  by rewrite H.
Qed.

(** A configuration that parses but has a route without backends, or an
    empty path, or no route at all, does not load. *)
Lemma invalid_config_rejected fs path data cfg :
  ReadFile fs path = Some data ->
  yamlUnmarshal data = Some cfg ->
  (Routes cfg = [] \/
   exists rc, rc ∈ Routes cfg /\ (cfgPath rc = EmptyString \/ cfgBackends rc = [])) ->
  exists err, LoadConfig fs path = inr err.
Proof.
  intros Hread Hparse Hbad. unfold LoadConfig, ParseConfig.
  rewrite Hread, Hparse.
  assert (Hv : exists err, validateConfig cfg = Some err).
  { unfold validateConfig. destruct Hbad as [->|(rc & Hin & Hrc)]; [by eexists|].
    destruct (length (Routes cfg) =? 0)%nat; [by eexists|].
    generalize O. induction (Routes cfg) as [|x l IH]; intros i;
      [by apply elem_of_nil in Hin|].
    simpl. destruct (String.eqb_spec (cfgPath x) EmptyString); [by eexists|].
    destruct (cfgBackends x) as [|b bs] eqn:Hbs; [by eexists|]. simpl.
    apply elem_of_cons in Hin as [->|Hin]; [|by apply IH].
    destruct Hrc as [?|?]; congruence. }
  destruct Hv as [err ->]. by eexists.
Qed.

(** **** The best match *)

(** X21.  Longest prefix wins, whatever the order of the configuration.
    The route [Match] returns is one of the configured routes and matches
    the request, and no configured route that matches the request has a
    longer path prefix, or the same length of prefix and more required
    headers. *)
Theorem match_most_specific (cfg : GatewayConfig) (req : Request) (rt : Route) :
  Match req (New cfg) = Some rt ->
  rt ∈ compile <$> Routes cfg /\
  routeMatches req rt /\
  forall rt', rt' ∈ compile <$> Routes cfg -> routeMatches req rt' ->
    (String.length (Path rt') <= String.length (Path rt))%nat /\
    (String.length (Path rt') = String.length (Path rt) ->
     (size (Headers rt') <= size (Headers rt))%nat).
Proof.
  intros HM. unfold Match, New in HM. cbn [routes] in HM.
  apply matchLoop_Some in HM as (i & Hi & Hm & Hfirst).
  split; [|split; [done|]].
  - rewrite <- (sortSlice_perm moreSpecific). by eapply list_elem_of_lookup_2.
  - intros rt' Hin Hm'. rewrite <- (sortSlice_perm moreSpecific) in Hin.
    apply list_elem_of_lookup_1 in Hin as [j Hj].
    destruct (decide (j < i)%nat) as [Hlt|Hge]; [by destruct (Hfirst j rt' Hlt Hj)|].
    destruct (decide (j = i)) as [->|Hne].
    { rewrite Hi in Hj. injection Hj as ->. lia. }
    pose proof (sorted_lookup _ _ (sortSlice_sorted (compile <$> Routes cfg))
                  i j rt rt' ltac:(lia) Hi Hj) as Hs.
    apply moreSpecific_false in Hs. lia.
Qed.

(** **** Reloading *)

(** X22.  [checkAndReload] replaces the router only when the file's
    modification time is later than the stored one and the file loads:
    then the router is the one built from the loaded configuration and the
    stored time is the file's.  When the file cannot be examined, or its
    modification time is not later (even if its content changed), nothing
    changes.  Checking twice against the same file is the same as checking
    once. *)
Theorem reload_on_change (fs : FileSystem) (hr : HotReloader) :
  (Stat fs (configPath hr) = None -> checkAndReload fs hr = hr) /\
  (forall modTime,
      Stat fs (configPath hr) = Some modTime -> modTime <= lastModTime hr ->
      checkAndReload fs hr = hr) /\
  (forall modTime cfg,
      Stat fs (configPath hr) = Some modTime -> lastModTime hr < modTime ->
      LoadConfig fs (configPath hr) = inl cfg ->
      checkAndReload fs hr
      = {| configPath := configPath hr; interval := interval hr;
           router := New cfg; lastModTime := modTime |} /\
      validateConfig cfg = None) /\
  checkAndReload fs (checkAndReload fs hr) = checkAndReload fs hr.
Proof.
  split; [|split; [|split]].
  - intros Hstat. unfold checkAndReload. by rewrite Hstat.
  - intros modTime Hstat Hle. unfold checkAndReload, After. rewrite Hstat.
    destruct (Z.ltb_spec (lastModTime hr) modTime); [lia|done].
  - intros modTime cfg Hstat Hlt Hload. unfold checkAndReload, After. rewrite Hstat, Hload.
    destruct (Z.ltb_spec (lastModTime hr) modTime); [|lia]. split; [done|].
    unfold LoadConfig, ParseConfig in Hload.
    destruct (ReadFile fs (configPath hr)); [|done].
    destruct (yamlUnmarshal s) as [cfg'|]; [|done].
    destruct (validateConfig cfg') eqn:Hv; [done|]. by injection Hload as <-.
  - assert (Hsame : checkAndReload fs hr = hr ->
                     checkAndReload fs (checkAndReload fs hr) = checkAndReload fs hr)
      by (intros E; rewrite E; exact E).
    destruct (Stat fs (configPath hr)) as [modTime|] eqn:Hstat.
    + destruct (negb (After modTime (lastModTime hr))) eqn:Hafter.
      * apply Hsame. unfold checkAndReload. by rewrite Hstat, Hafter.
      * destruct (LoadConfig fs (configPath hr)) as [cfg|err] eqn:Hload.
        -- assert (E : checkAndReload fs hr
                       = {| configPath := configPath hr; interval := interval hr;
                            router := New cfg; lastModTime := modTime |})
             by (unfold checkAndReload; by rewrite Hstat, Hafter, Hload).
           rewrite E. unfold checkAndReload. cbn [configPath lastModTime].
           rewrite Hstat. unfold After. by rewrite Z.ltb_irrefl.
        -- apply Hsame. unfold checkAndReload. by rewrite Hstat, Hafter, Hload.
    + apply Hsame. unfold checkAndReload. by rewrite Hstat.
Qed.

(** **** Wildcard routes *)

(** X23.  A configured path [p/*] is matched as the bare prefix [p] (for
    [p] not itself ending in [*]): the wildcard is cut off and nothing is
    asked of the character that follows, so [/api/*] also takes [/apiary].
    When such a route requires no headers, every request whose path starts
    with [p] is routed: [Match] returns a route, and it is one whose prefix
    is at least as long as [p]. *)
Theorem wildcard_route (cfg : GatewayConfig) (rc : RouteConfig) (p rest : string)
    (req : Request) :
  rc ∈ Routes cfg ->
  cfgPath rc = (p ++ "/*")%string -> HasSuffix p "*" = false ->
  cfgHeaders rc = ∅ ->
  URLPath req = (p ++ rest)%string ->
  Path (compile rc) = p /\
  exists rt, Match req (New cfg) = Some rt /\
             (String.length p <= String.length (Path rt))%nat.
Proof.
  intros Hin Hpath Hstar Hhdr Hreq.
  assert (Hp : Path (compile rc) = p).
  { unfold compile. cbn [Path]. rewrite Hpath, TrimSuffix_app.
    unfold TrimSuffix. by rewrite Hstar. }
  split; [done|].
  assert (Hm : routeMatches req (compile rc)).
  { split; [exists rest; by rewrite Hp|].
    unfold compile. cbn [Headers]. rewrite Hhdr. apply map_Forall_empty. }
  assert (Hcfg : compile rc ∈ compile <$> Routes cfg) by (by apply list_elem_of_fmap_2).
  destruct (Match req (New cfg)) as [rt|] eqn:HM.
  - exists rt. split; [done|].
    unfold Match, New in HM. cbn [routes] in HM.
    apply matchLoop_Some in HM as (i & Hi & _ & Hfirst).
    rewrite <- (sortSlice_perm moreSpecific) in Hcfg.
    apply list_elem_of_lookup_1 in Hcfg as [j Hj].
    destruct (decide (j < i)%nat) as [Hlt|Hge];
      [by destruct (Hfirst j (compile rc) Hlt Hj)|].
    destruct (decide (j = i)) as [->|Hne].
    { rewrite Hi in Hj. injection Hj as ->. by rewrite Hp. }
    pose proof (sorted_lookup _ _ (sortSlice_sorted (compile <$> Routes cfg))
                  i j rt (compile rc) ltac:(lia) Hi Hj) as Hs.
    apply moreSpecific_false in Hs. rewrite Hp in Hs. lia.
  - exfalso. unfold Match, New in HM. cbn [routes] in HM.
    rewrite matchLoop_None in HM. apply (HM (compile rc)); [|done].
    by rewrite (sortSlice_perm moreSpecific).
Qed.

End Router.

(** *** An instance of the library functions *)

(** [sort.Slice] as a merge sort by "does not come after". *)
Definition mergeSortSlice (less : Route -> Route -> bool) (l : list Route) : list Route :=
  @merge_sort Route (fun a b => less b a = false)
    (fun a b => decide (less b a = false)) l.

Lemma moreSpecific_false_iff a b :
  moreSpecific b a = false <->
  (String.length (Path b) < String.length (Path a))%nat \/
  (String.length (Path a) = String.length (Path b) /\
   (size (Headers b) <= size (Headers a))%nat).
Proof.
  split; [apply moreSpecific_false|]. unfold moreSpecific.
  destruct (Nat.eqb_spec (String.length (Path b)) (String.length (Path a))) as [He|Hne];
    simpl; rewrite Nat.ltb_ge; lia.
Qed.

Lemma mergeSortSlice_perm less l : mergeSortSlice less l ≡ₚ l.
Proof. apply merge_sort_Permutation. Qed.

Lemma mergeSortSlice_sorted l :
  StronglySorted (fun a b => moreSpecific b a = false) (mergeSortSlice moreSpecific l).
Proof.
  apply StronglySorted_merge_sort.
  - intros a b c. rewrite !moreSpecific_false_iff. lia.
  - intros a b. rewrite !moreSpecific_false_iff. lia.
Qed.

(** [textproto.CanonicalMIMEHeaderKey]: a key made of token bytes gets an
    upper-case letter at its start and after each hyphen and lower-case
    letters elsewhere; any other key is returned as it is. *)
Definition isTokenByte (c : ascii) : bool :=
  let n := nat_of_ascii c in
  ((48 <=? n) && (n <=? 57) || (65 <=? n) && (n <=? 90) || (97 <=? n) && (n <=? 122)
   || existsb (Nat.eqb n) [33; 35; 36; 37; 38; 39; 42; 43; 45; 46; 94; 95; 96; 124; 126])%nat.

Fixpoint canonicalLoop (upper : bool) (s : string) : string :=
  match s with
  | EmptyString => EmptyString
  | String c s' =>
      let n := nat_of_ascii c in
      let c' :=
        if (upper && (97 <=? n) && (n <=? 122))%nat then ascii_of_nat (n - 32)
        else if (negb upper && (65 <=? n) && (n <=? 90))%nat then ascii_of_nat (n + 32)
        else c in
      String c' (canonicalLoop (Ascii.eqb c' "-") s')
  end.

Definition canonicalKey (s : string) : string :=
  if forallb isTokenByte (list_ascii_of_string s) then canonicalLoop true s else s.

Example canonicalKey_check : canonicalKey "x-API-version" = "X-Api-Version"%string.
Proof. reflexivity. Qed.

(** *** A gateway with a versioned route *)

Definition exampleConfig : GatewayConfig :=
  {| Routes :=
       [ {| cfgPath := "/"; cfgHeaders := ∅; cfgBackends := ["http://default:8080"]%string |};
         {| cfgPath := "/api/*"; cfgHeaders := ∅; cfgBackends := ["http://v1:8080"]%string |};
         {| cfgPath := "/api";
            cfgHeaders := {["X-API-Version"%string := "v2"%string]};
            cfgBackends := ["http://v2:8080"]%string |} ] |}.

Definition v2Route : Route :=
  {| Path := "/api";
     Headers := {["X-API-Version"%string := "v2"%string]};
     Backends := ["http://v2:8080"]%string |}.

Definition v2Request : Request :=
  {| URLPath := "/api/endpoint";
     Header := {["X-Api-Version"%string := ["v2"%string]]} |}.

Lemma router_match_witness :
  Match canonicalKey v2Request (New mergeSortSlice exampleConfig) = Some v2Route.
Proof.
  pose proof (router_match canonicalKey mergeSortSlice mergeSortSlice_perm
                mergeSortSlice_sorted exampleConfig v2Request) as (_ & _ & H & _).
  apply H. exists O. split; [reflexivity|]. split.
  - split; [by exists "/endpoint"%string|].
    apply map_Forall_singleton. reflexivity.
  - intros j rt' Hj. lia.
Defined.

Definition brokenConfig : GatewayConfig :=
  {| Routes := [ {| cfgPath := "/api"; cfgHeaders := ∅; cfgBackends := [] |} ] |}.

(** The file changed at time 20 and now holds a route without backends. *)
Definition brokenFile : FileSystem :=
  {| Stat := fun _ => Some 20; ReadFile := fun _ => Some "routes: [{path: /api, backends: []}]"%string |}.

Definition runningReloader : HotReloader :=
  {| configPath := "config.yaml"; interval := 50000000;
     router := New mergeSortSlice exampleConfig; lastModTime := 10 |}.

Lemma failed_reload_keeps_router_witness :
  checkAndReload mergeSortSlice (fun _ => Some brokenConfig) brokenFile runningReloader
  = runningReloader.
Proof.
  apply (failed_reload_keeps_router mergeSortSlice (fun _ => Some brokenConfig)
           brokenFile runningReloader (ErrNoBackends 0 "/api")).
  reflexivity.
Defined.

Lemma match_most_specific_witness :
  v2Route ∈ compile <$> Routes exampleConfig /\
  routeMatches canonicalKey v2Request v2Route.
Proof.
  destruct (match_most_specific canonicalKey mergeSortSlice mergeSortSlice_perm
              mergeSortSlice_sorted exampleConfig v2Request v2Route)
    as (Hin & Hm & _); [vm_compute; reflexivity|].
  split; [exact Hin | exact Hm].
Defined.

(** A request for [/apiary] against the route [/api/*]. *)
Lemma wildcard_route_witness :
  exists rt,
    Match canonicalKey {| URLPath := "/apiary"; Header := ∅ |}
          (New mergeSortSlice exampleConfig) = Some rt /\
    (String.length "/api" <= String.length (Path rt))%nat.
Proof.
  destruct (wildcard_route canonicalKey mergeSortSlice mergeSortSlice_perm
              mergeSortSlice_sorted exampleConfig
              {| cfgPath := "/api/*"; cfgHeaders := ∅;
                 cfgBackends := ["http://v1:8080"]%string |}
              "/api" "ary" {| URLPath := "/apiary"; Header := ∅ |})
    as (_ & rt & HM & Hlen); try reflexivity.
  - cbn. set_solver.
  - exists rt. split; [exact HM | exact Hlen].
Defined.

End Routing.

(** * Rate limiters (internal/ratelimit) *)

Module RateLimit.
Import GoInt GoTime.

(** ** Token bucket (tokenbucket.go) *)

Module TokenBucket.

Record TokenBucket := mkTokenBucket {
  tokens : Float64.float64;
  capacity : Float64.float64;
  rate : Float64.float64;
  lastRefill : Time
}.

(** [NewTokenBucket(capacity, rate)] when the clock reads [now]. *)
Definition NewTokenBucket (now : Time) (capacity : Z) (rate : Float64.float64)
  : TokenBucket :=
  {| tokens := Float64.ofInt capacity;
     capacity := Float64.ofInt capacity;
     rate := rate;
     lastRefill := now |}.

Section Allow.

(** What the platform makes of a [float64] that does not fit [int64]. *)
Variable overflow : Float64.float64 -> Z.

(** [Allow()] when the clock reads [now]: the answer, the retry-after and
    the bucket afterwards. *)
Definition Allow (now : Time) (tb : TokenBucket) : (bool * Duration) * TokenBucket :=
  let elapsed := Seconds (Sub now (lastRefill tb)) in
  let refilled := Float64.add (tokens tb) (Float64.mul elapsed (rate tb)) in
  let capped := if Float64.ltb (capacity tb) refilled then capacity tb else refilled in
  if Float64.leb Float64.one capped then
    ((true, 0),
     {| tokens := Float64.sub capped Float64.one; capacity := capacity tb;
        rate := rate tb; lastRefill := now |})
  else
    let deficit := Float64.sub Float64.one capped in
    let wait := Float64.toInt64 overflow
                  (Float64.mul (Float64.div deficit (rate tb)) (Float64.ofInt Second)) in
    ((false, wait),
     {| tokens := capped; capacity := capacity tb;
        rate := rate tb; lastRefill := now |}).

(** Successive calls, one clock reading each. *)
Fixpoint run (times : list Time) (tb : TokenBucket)
  : list (bool * Duration) * TokenBucket :=
  match times with
  | [] => ([], tb)
  | now :: rest =>
      let '(r, tb1) := Allow now tb in
      let '(rs, tb2) := run rest tb1 in
      (r :: rs, tb2)
  end.

(** A bucket of rate 0 holding [k] whole tokens out of [C]. *)
Definition drained (C k : Z) (at_ : Time) : TokenBucket :=
  {| tokens := Float64.ofInt k; capacity := Float64.ofInt C;
     rate := Float64.zero; lastRefill := at_ |}.

Lemma zero_rate_refill k t :
  0 <= k < 2 ^ 53 -> inInt64 t ->
  Float64.add (Float64.ofInt k) (Float64.mul (Seconds t) Float64.zero) = Float64.ofInt k.
Proof.
  intros Hk Ht. unfold Float64.zero.
  destruct (Float64.mul_zero_r 67 (Seconds t) false (Seconds_finiteB t Ht)) as [s' ->].
  destruct (Z.eq_dec k 0) as [->|Hne].
  - destruct s'; reflexivity.
  - rewrite Float64.ofInt_canon by lia. reflexivity.
Qed.

Lemma Allow_zero_rate C k at_ now :
  0 <= k <= C -> C < 2 ^ 53 ->
  Allow now (drained C k at_) =
    if 1 <=? k then ((true, 0), drained C (k - 1) now)
    else ((false, overflow (S754_infinity false)), drained C k now).
Proof.
  intros Hk HC. unfold Allow, drained. cbn [tokens capacity rate lastRefill].
  rewrite zero_rate_refill by (try apply Sub_range; lia).
  unfold Float64.ltb, Float64.leb, Float64.one.
  rewrite Float64.ltb_ofInt by lia.
  destruct (Z.ltb_spec C k) as [?|_]; [lia|].
  rewrite Float64.leb_ofInt by lia.
  destruct (Z.leb_spec 1 k) as [H1|H1].
  - fold Float64.one. rewrite Float64.sub_one by lia. reflexivity.
  - assert (k = 0) as -> by lia. reflexivity.
Qed.

Lemma run_zero_rate C (times : list Time) (last at_ : Time) :
  Z.of_nat (length times) <= C -> C < 2 ^ 53 ->
  fst (run (times ++ [last]) (drained C (Z.of_nat (length times)) at_))
  = replicate (length times) (true, 0) ++ [(false, overflow (S754_infinity false))].
Proof.
  revert at_. induction times as [|t rest IH]; intros at_ Hle HC.
  - cbn [length app run replicate Z.of_nat].
    rewrite Allow_zero_rate by lia. reflexivity.
  - cbn [length app run replicate]. cbn [length] in Hle.
    rewrite Allow_zero_rate by lia.
    destruct (Z.leb_spec 1 (Z.of_nat (S (length rest)))) as [_|?]; [|lia].
    replace (Z.of_nat (S (length rest)) - 1) with (Z.of_nat (length rest)) by lia.
    specialize (IH t ltac:(lia) HC).
    destruct (run (rest ++ [last]) (drained C (Z.of_nat (length rest)) t)) as [rs tb2].
    cbn [fst] in *. rewrite IH. reflexivity.
Qed.

End Allow.

(** C2.  A bucket created full with capacity [C] ([1 <= C < 2^53], the
    integers a [float64] holds exactly) and rate 0 answers true, with
    retry-after 0, to its first [C] calls of [Allow], whatever the clock
    reads.  The next call answers false, and its retry-after is the
    conversion to [int64] of the infinite [1 / 0 * 1e9]: the value the
    platform gives for a [float64] out of range.  On amd64 that is
    [-2^63], a negative duration, not a positive one; on arm64 the
    conversion saturates at [2^63 - 1]. *)
Theorem zero_rate_bucket (C : Z) (created : Time) (times : list Time) (last : Time) :
  1 <= C < 2 ^ 53 ->
  length times = Z.to_nat C ->
  (forall overflow,
      fst (run overflow (times ++ [last]) (NewTokenBucket created C Float64.zero))
      = replicate (Z.to_nat C) (true, 0)
          ++ [(false, overflow (S754_infinity false))])
  /\ Float64.overflowAmd64 (S754_infinity false) = minInt64
  /\ Float64.overflowArm64 (S754_infinity false) = maxInt64.
Proof.
  intros HC Hlen. split; [|split; reflexivity].
  intros overflow.
  change (NewTokenBucket created C Float64.zero) with (drained C C created).
  replace C with (Z.of_nat (length times)) at 2 by lia.
  rewrite <- Hlen. apply run_zero_rate; lia.
Qed.

Lemma zero_rate_bucket_witness :
  (forall overflow,
      fst (run overflow ([10; 20; 30] ++ [40]) (NewTokenBucket 0 3 Float64.zero))
      = replicate (Z.to_nat 3) (true, 0)
          ++ [(false, overflow (S754_infinity false))])
  /\ Float64.overflowAmd64 (S754_infinity false) = minInt64
  /\ Float64.overflowArm64 (S754_infinity false) = maxInt64.
Proof.
  apply (zero_rate_bucket 3 0 [10; 20; 30] 40); [lia | reflexivity].
Defined.

(** [NewTokenBucket(1, 0)] on amd64: the second call of [Allow] is refused
    with a retry-after of [-9223372036854775808] nanoseconds. *)
Lemma zero_rate_retry_after_amd64 :
  fst (run Float64.overflowAmd64 [1000; 2000] (NewTokenBucket 0 1 Float64.zero))
  = [(true, 0); (false, -9223372036854775808)]
  /\ ~ 0 < -9223372036854775808.
Proof.
  split; [vm_compute; reflexivity | lia].
Qed.

(** *** Refill at a whole rate *)

(** A bucket of capacity [C] refilled at [R] tokens per second that holds
    [k] whole tokens. *)
Definition holding (C R k : Z) (at_ : Time) : TokenBucket :=
  {| tokens := Float64.ofInt k; capacity := Float64.ofInt C;
     rate := Float64.ofInt R; lastRefill := at_ |}.

Lemma Seconds_whole s :
  0 <= s -> s * Second <= maxInt64 -> Seconds (s * Second) = Float64.ofInt s.
Proof.
  intros Hs Hmax. unfold Seconds. cbv zeta.
  rewrite Z.quot_mul, Z.rem_mul by (unfold Second; lia).
  change (Float64.div (Float64.ofInt 0) (Float64.ofInt 1000000000))
    with (Float64.ofInt 0).
  rewrite Float64.add_ofInt; [f_equal; lia|lia|lia|].
  unfold maxInt64, Second in *. lia.
Qed.

Lemma refill_whole (R k s : Z) (t0 : Time) :
  0 <= R < 2 ^ 53 -> 0 <= k ->
  0 <= s -> s * Second <= maxInt64 -> k + s * R < 2 ^ 53 ->
  Float64.add (Float64.ofInt k)
    (Float64.mul (Seconds (Sub (t0 + s * Second) t0)) (Float64.ofInt R))
  = Float64.ofInt (k + s * R).
Proof.
  intros HR Hk Hs Hmax Hsum.
  rewrite Sub_exact
    by (replace (t0 + s * Second - t0) with (s * Second) by lia;
        unfold inInt64, minInt64, maxInt64, Second in *; lia).
  replace (t0 + s * Second - t0) with (s * Second) by lia.
  rewrite Seconds_whole by assumption.
  assert (Hs53 : s < 2 ^ 53) by (unfold maxInt64, Second in *; lia).
  assert (HsR : 0 <= s * R) by nia.
  rewrite Float64.mul_ofInt by lia.
  by rewrite Float64.add_ofInt by lia.
Qed.

(** A call at the very clock reading of the last refill. *)
Lemma Allow_instant (overflow : Float64.float64 -> Z) (C R k : Z) (t : Time) :
  0 <= R < 2 ^ 53 -> 0 <= k <= C -> C < 2 ^ 53 ->
  Allow overflow t (holding C R k t) =
    if 1 <=? k then ((true, 0), holding C R (k - 1) t)
    else ((false,
           Float64.toInt64 overflow
             (Float64.mul (Float64.div Float64.one (Float64.ofInt R))
                          (Float64.ofInt Second))),
          holding C R 0 t).
Proof.
  intros HR Hk HC. unfold Allow, holding. cbn [tokens capacity rate lastRefill].
  pose proof (refill_whole R k 0 t HR ltac:(lia) ltac:(lia)
                ltac:(unfold maxInt64; lia) ltac:(lia)) as Hrefill.
  rewrite Z.mul_0_l, !Z.add_0_r in Hrefill. rewrite Hrefill.
  unfold Float64.ltb, Float64.leb, Float64.one.
  rewrite Float64.ltb_ofInt by lia.
  destruct (Z.ltb_spec C k) as [?|_]; [lia|].
  rewrite Float64.leb_ofInt by lia.
  destruct (Z.leb_spec 1 k) as [H1|H1].
  - fold Float64.one. rewrite Float64.sub_one by lia. reflexivity.
  - assert (k = 0) as -> by lia. reflexivity.
Qed.

(** X14.  Refill at a whole rate is exact.  A bucket of capacity [C] and
    rate [R] tokens per second that holds [k] whole tokens, asked [s]
    whole seconds after its last refill, has [min(C, k + s*R)] tokens to
    give (never more than its capacity): when that is at least 1 the call
    is allowed with retry-after 0 and one token is taken; otherwise (an
    empty bucket asked again at once, or with rate 0) it is refused and
    the bucket stays empty. *)
Theorem token_refill (overflow : Float64.float64 -> Z) (C R k s : Z) (t0 : Time) :
  1 <= C < 2 ^ 53 -> 0 <= R < 2 ^ 53 -> 0 <= k <= C ->
  0 <= s -> s * Second <= maxInt64 -> k + s * R < 2 ^ 53 ->
  let avail := Z.min C (k + s * R) in
  let now := t0 + s * Second in
  Allow overflow now (holding C R k t0) =
    if 1 <=? avail then ((true, 0), holding C R (avail - 1) now)
    else ((false,
           Float64.toInt64 overflow
             (Float64.mul (Float64.div Float64.one (Float64.ofInt R))
                          (Float64.ofInt Second))),
          holding C R 0 now).
Proof.
  intros HC HR Hk Hs Hmax Hsum. cbv zeta.
  unfold Allow, holding. cbn [tokens capacity rate lastRefill].
  rewrite refill_whole by lia.
  assert (HsR : 0 <= s * R) by nia.
  unfold Float64.ltb, Float64.leb, Float64.one.
  rewrite Float64.ltb_ofInt by lia.
  destruct (Z.ltb_spec C (k + s * R)) as [Hcap|Hcap].
  - rewrite Z.min_l by lia. rewrite Float64.leb_ofInt by lia.
    destruct (Z.leb_spec 1 C); [|lia].
    fold Float64.one. rewrite Float64.sub_one by lia. reflexivity.
  - rewrite Z.min_r by lia. rewrite Float64.leb_ofInt by lia.
    destruct (Z.leb_spec 1 (k + s * R)) as [H1|H1].
    + fold Float64.one. rewrite Float64.sub_one by lia. reflexivity.
    + assert (H0 : k + s * R = 0) by lia. rewrite H0. reflexivity.
Qed.

(** An empty bucket of capacity 5 and rate 2, asked two seconds later. *)
Lemma token_refill_witness :
  Allow Float64.overflowAmd64 (0 + 2 * Second) (holding 5 2 0 0)
  = if 1 <=? Z.min 5 (0 + 2 * 2)
    then ((true, 0), holding 5 2 (Z.min 5 (0 + 2 * 2) - 1) (0 + 2 * Second))
    else ((false,
           Float64.toInt64 Float64.overflowAmd64
             (Float64.mul (Float64.div Float64.one (Float64.ofInt 2))
                          (Float64.ofInt Second))),
          holding 5 2 0 (0 + 2 * Second)).
Proof.
  apply (token_refill Float64.overflowAmd64 5 2 0 2 0);
    unfold inInt64, minInt64, maxInt64, Second; lia.
Defined.

End TokenBucket.

(** ** Sliding window counter (slidingwindow.go) *)

Module SlidingWindow.

Record SlidingWindow := mkSlidingWindow {
  maxRequests : Z;
  windowSize : Duration;
  prevCount : Z;
  currCount : Z;
  windowStart : Time
}.

(** [NewSlidingWindow(maxRequests, windowSize)] when the clock reads [now]. *)
Definition NewSlidingWindow (now : Time) (maxRequests : Z) (windowSize : Duration)
  : SlidingWindow :=
  {| maxRequests := maxRequests; windowSize := windowSize;
     prevCount := 0; currCount := 0; windowStart := now |}.

Definition setCounts (prev curr : Z) (start : Time) (sw : SlidingWindow) : SlidingWindow :=
  {| maxRequests := maxRequests sw; windowSize := windowSize sw;
     prevCount := prev; currCount := curr; windowStart := start |}.

(** The first half of [Allow]: move the window to the clock reading [now].
    Returns the limiter and the time elapsed in its current window. *)
Definition roll (now : Time) (sw : SlidingWindow) : SlidingWindow * Duration :=
  let elapsed := Sub now (windowStart sw) in
  if wrap64 (2 * windowSize sw) <=? elapsed then
    (setCounts 0 0 now sw, 0)
  else if windowSize sw <=? elapsed then
    let start := Add (windowStart sw) (windowSize sw) in
    (setCounts (currCount sw) 0 start sw, Sub now start)
  else (sw, elapsed).

(** The second half: weigh the previous window and settle the request. *)
Definition weigh (sw : SlidingWindow) (elapsed : Duration)
  : (bool * Duration) * SlidingWindow :=
  let weight := Float64.sub Float64.one
                  (Float64.div (Seconds elapsed) (Seconds (windowSize sw))) in
  let weight := if Float64.ltb weight Float64.zero then Float64.zero else weight in
  let effective := Float64.add (Float64.mul (Float64.ofInt (prevCount sw)) weight)
                               (Float64.ofInt (currCount sw)) in
  if Float64.ltb (Float64.ofInt (maxRequests sw)) (Float64.add effective Float64.one) then
    let remaining := wrap64 (windowSize sw - elapsed) in
    ((false, remaining), sw)
  else
    ((true, 0),
     setCounts (prevCount sw) (wrap64 (currCount sw + 1)) (windowStart sw) sw).

(** [Allow()] when the clock reads [now]. *)
Definition Allow (now : Time) (sw : SlidingWindow) : (bool * Duration) * SlidingWindow :=
  let '(sw1, elapsed) := roll now sw in weigh sw1 elapsed.

(** Successive calls, one clock reading each. *)
Fixpoint run (times : list Time) (sw : SlidingWindow)
  : list (bool * Duration) * SlidingWindow :=
  match times with
  | [] => ([], sw)
  | now :: rest =>
      let '(r, sw1) := Allow now sw in
      let '(rs, sw2) := run rest sw1 in
      (r :: rs, sw2)
  end.

Lemma effective_plus_one s c :
  0 <= c < 2 ^ 53 - 1 ->
  Float64.add (Float64.add (S754_zero s) (Float64.ofInt c)) Float64.one
  = Float64.ofInt (c + 1).
Proof.
  intros Hc. destruct (Z.eq_dec c 0) as [->|Hne].
  - destruct s; reflexivity.
  - replace (Float64.add (S754_zero s) (Float64.ofInt c)) with (Float64.ofInt c).
    + apply Float64.add_one; lia.
    + rewrite Float64.ofInt_canon by lia. reflexivity.
Qed.

Lemma effective_at_limit s :
  SFltb (Float64.ofInt 9007199254740991)
    (Float64.add (Float64.add (S754_zero s) (Float64.ofInt 9007199254740991)) Float64.one)
  = true.
Proof. destruct s; vm_compute; reflexivity. Qed.

(** With nothing counted in the previous window, [weigh] compares the
    current count with the limit. *)
Lemma weigh_fresh sw e :
  prevCount sw = 0 ->
  0 <= currCount sw <= maxRequests sw -> maxRequests sw < 2 ^ 53 ->
  0 < windowSize sw -> inInt64 (windowSize sw) ->
  0 <= e < windowSize sw ->
  weigh sw e =
    if currCount sw <? maxRequests sw
    then ((true, 0), setCounts 0 (currCount sw + 1) (windowStart sw) sw)
    else ((false, windowSize sw - e), sw).
Proof.
  intros Hprev Hc Hmax HW HWr He. unfold weigh.
  destruct (Seconds_pos (windowSize sw) HW HWr) as (m & ex & ->).
  set (q := Float64.div (Seconds e) (S754_finite false m ex)).
  assert (Hq : Float64.signOf q = Some false)
    by (apply Float64.div_sign, Seconds_sign; lia).
  pose proof (Float64.clamped_weight q Hq) as Hw. cbv zeta in Hw.
  unfold Float64.ltb.
  set (w := if SFltb (Float64.sub Float64.one q) Float64.zero
            then Float64.zero else Float64.sub Float64.one q) in *.
  rewrite Hprev. change (Float64.ofInt 0) with (S754_zero false).
  destruct (Float64.mul_zero_l 2 w false Hw) as [s' ->].
  assert (Hwrap : wrap64 (windowSize sw - e) = windowSize sw - e).
  { apply wrap64_id. unfold inInt64, minInt64, maxInt64 in *. lia. }
  destruct (Z.eq_dec (currCount sw) 9007199254740991) as [Heq|Hne].
  - rewrite Heq in *. assert (maxRequests sw = 9007199254740991) as -> by lia.
    rewrite effective_at_limit, Hwrap. reflexivity.
  - rewrite effective_plus_one by lia.
    rewrite Float64.ltb_ofInt by lia.
    destruct (Z.ltb_spec (maxRequests sw) (currCount sw + 1));
      destruct (Z.ltb_spec (currCount sw) (maxRequests sw)); try lia.
    + rewrite Hwrap. reflexivity.
    + rewrite wrap64_id by (unfold inInt64, minInt64, maxInt64; lia).
      reflexivity.
Qed.

Lemma roll_idle now sw :
  0 < windowSize sw -> 2 * windowSize sw <= maxInt64 ->
  2 * windowSize sw <= now - windowStart sw ->
  roll now sw = (setCounts 0 0 now sw, 0).
Proof.
  intros HW H2 Hidle. unfold roll.
  rewrite wrap64_id by (unfold inInt64, minInt64, maxInt64 in *; lia).
  pose proof (Sub_ge now (windowStart sw) (2 * windowSize sw)
                ltac:(unfold inInt64, minInt64, maxInt64 in *; lia) Hidle).
  destruct (Z.leb_spec (2 * windowSize sw) (Sub now (windowStart sw))); [reflexivity|lia].
Qed.

Lemma roll_within t sw :
  0 < windowSize sw -> 2 * windowSize sw <= maxInt64 ->
  0 <= t - windowStart sw < windowSize sw ->
  roll t sw = (sw, t - windowStart sw).
Proof.
  intros HW H2 Ht. unfold roll.
  rewrite wrap64_id by (unfold inInt64, minInt64, maxInt64 in *; lia).
  rewrite Sub_exact by (unfold inInt64, minInt64, maxInt64 in *; lia).
  destruct (Z.leb_spec (2 * windowSize sw) (t - windowStart sw)); [lia|].
  destruct (Z.leb_spec (windowSize sw) (t - windowStart sw)); [lia|reflexivity].
Qed.

(** Calls inside the window of a limiter whose previous window is empty:
    as many succeed as the limit leaves room for, the next is refused. *)
Lemma run_fresh (mid : list Time) (last : Time) sw :
  prevCount sw = 0 -> 0 <= currCount sw ->
  currCount sw + Z.of_nat (length mid) = maxRequests sw ->
  maxRequests sw < 2 ^ 53 ->
  0 < windowSize sw -> 2 * windowSize sw <= maxInt64 ->
  Forall (fun t => windowStart sw <= t < windowStart sw + windowSize sw) mid ->
  windowStart sw <= last < windowStart sw + windowSize sw ->
  fst (run (mid ++ [last]) sw)
  = replicate (length mid) (true, 0)
      ++ [(false, windowSize sw - (last - windowStart sw))].
Proof.
  revert sw. induction mid as [|t rest IH]; intros sw Hprev Hc Hn Hmax HW H2 Hmid Hlast.
  - cbn [length app run replicate Z.of_nat] in *. unfold Allow.
    rewrite roll_within by lia.
    rewrite weigh_fresh by (unfold inInt64, minInt64, maxInt64 in *; lia).
    destruct (Z.ltb_spec (currCount sw) (maxRequests sw)); [lia|reflexivity].
  - cbn [length app run replicate] in *. unfold Allow.
    apply Forall_cons in Hmid as [Ht Hrest].
    rewrite roll_within by lia.
    rewrite weigh_fresh by (unfold inInt64, minInt64, maxInt64 in *; lia).
    destruct (Z.ltb_spec (currCount sw) (maxRequests sw)); [|lia].
    specialize (IH (setCounts 0 (currCount sw + 1) (windowStart sw) sw)).
    cbn [setCounts prevCount currCount maxRequests windowSize windowStart] in IH.
    specialize (IH eq_refl ltac:(lia) ltac:(lia) Hmax HW H2 Hrest Hlast).
    destruct (run (rest ++ [last]) _) as [rs sw2]. cbn [fst] in *.
    rewrite IH. reflexivity.
Qed.

(** C8, corrected.  A limiter with [1 <= maxRequests < 2^53] (the integers a
    [float64] holds exactly) and a positive [windowSize] whose double is a
    [Duration], whatever its counters: when [Allow] is called at [now], at
    least [2 * windowSize] after the window start, that call sets both
    counters to 0 and the window start to [now].  Counting from that call,
    [maxRequests] consecutive calls inside the new window (the resetting
    call and the [maxRequests - 1] calls [mid] after it) all return true,
    and the call after them, [last], still inside the window, returns false
    with the rest of the window as a positive retry-after. *)
Theorem idle_window_reset (sw : SlidingWindow) (now : Time)
    (mid : list Time) (last : Time) :
  1 <= maxRequests sw < 2 ^ 53 ->
  0 < windowSize sw -> 2 * windowSize sw <= maxInt64 ->
  2 * windowSize sw <= now - windowStart sw ->
  length mid = Z.to_nat (maxRequests sw - 1) ->
  Forall (fun t => now <= t < now + windowSize sw) mid ->
  now <= last < now + windowSize sw ->
  roll now sw = (setCounts 0 0 now sw, 0)
  /\ fst (run (now :: mid ++ [last]) sw)
     = replicate (Z.to_nat (maxRequests sw)) (true, 0)
         ++ [(false, windowSize sw - (last - now))]
  /\ 0 < windowSize sw - (last - now).
Proof.
  intros Hmax HW H2 Hidle Hlen Hmid Hlast.
  split; [apply roll_idle; assumption|]. split; [|lia].
  cbn [run]. unfold Allow. rewrite roll_idle by assumption.
  rewrite weigh_fresh;
    cbn [setCounts prevCount currCount maxRequests windowSize windowStart];
    try (unfold inInt64, minInt64, maxInt64 in *; lia).
  destruct (Z.ltb_spec 0 (maxRequests sw)); [|lia].
  pose proof (run_fresh mid last (setCounts 0 (0 + 1) now sw)) as Hrun.
  cbn [setCounts prevCount currCount maxRequests windowSize windowStart] in Hrun.
  specialize (Hrun eq_refl ltac:(lia) ltac:(lia) ltac:(lia) HW H2 Hmid Hlast).
  destruct (run (mid ++ [last]) _) as [rs sw2]. cbn [fst] in *.
  rewrite Hrun, Hlen.
  replace (Z.to_nat (maxRequests sw)) with (S (Z.to_nat (maxRequests sw - 1))) by lia.
  reflexivity.
Qed.

Definition idleLimiter : SlidingWindow :=
  {| maxRequests := 3; windowSize := Second;
     prevCount := 2; currCount := 3; windowStart := 0 |}.

Lemma idle_window_reset_witness :
  roll 2500000000 idleLimiter = (setCounts 0 0 2500000000 idleLimiter, 0)
  /\ fst (run (2500000000 :: [2600000000; 2700000000] ++ [2800000000]) idleLimiter)
     = replicate (Z.to_nat (maxRequests idleLimiter)) (true, 0)
         ++ [(false, windowSize idleLimiter - (2800000000 - 2500000000))]
  /\ 0 < windowSize idleLimiter - (2800000000 - 2500000000).
Proof.
  apply (idle_window_reset idleLimiter 2500000000 [2600000000; 2700000000] 2800000000);
    try (cbn; unfold maxInt64, Second; lia).
  repeat constructor; cbn; unfold Second; lia.
Defined.

(** C8 as worded fails: it has [maxRequests] calls succeed after the call
    that resets.  On [idleLimiter] ([maxRequests = 3], a window of one
    second started at 0, counters 2 and 3) the call at 2.5s comes more than
    two windows after the window start; it resets the limiter and is
    itself counted.  Of the three calls that follow in the new window, at
    2.6s, 2.7s and 2.8s, the first two return true and the third is
    refused with the 700ms left of the window. *)
Lemma idle_window_reset_overcount :
  maxRequests idleLimiter = 3 /\
  2 * windowSize idleLimiter <= 2500000000 - windowStart idleLimiter /\
  roll 2500000000 idleLimiter = (setCounts 0 0 2500000000 idleLimiter, 0) /\
  currCount (snd (Allow 2500000000 idleLimiter)) = 1 /\
  fst (run [2500000000; 2600000000; 2700000000; 2800000000] idleLimiter)
    = [(true, 0); (true, 0); (true, 0); (false, 700000000)].
Proof.
  split; [reflexivity|]. split; [vm_compute; discriminate|].
  split; [reflexivity|]. split; vm_compute; reflexivity.
Qed.

(** X15.  A new limiter with [1 <= maxRequests < 2^53] allows exactly
    [maxRequests] calls in its first window: the first [maxRequests] calls
    made before [windowSize] has passed since its creation return true
    with retry-after 0, and the next call in that window returns false
    with the rest of the window as retry-after. *)
Theorem fresh_window_limit (created : Time) (maxReq : Z) (W : Duration)
    (mid : list Time) (last : Time) :
  1 <= maxReq < 2 ^ 53 -> 0 < W -> 2 * W <= maxInt64 ->
  length mid = Z.to_nat maxReq ->
  Forall (fun t => created <= t < created + W) mid ->
  created <= last < created + W ->
  fst (run (mid ++ [last]) (NewSlidingWindow created maxReq W))
  = replicate (Z.to_nat maxReq) (true, 0) ++ [(false, W - (last - created))].
Proof.
  intros Hmax HW H2 Hlen Hmid Hlast.
  pose proof (run_fresh mid last (NewSlidingWindow created maxReq W)) as H.
  cbn [NewSlidingWindow prevCount currCount maxRequests windowSize windowStart] in H.
  rewrite <- Hlen. apply H; try done; lia.
Qed.

Lemma fresh_window_limit_witness :
  fst (run ([10; 20; 30] ++ [40]) (NewSlidingWindow 0 3 Second))
  = replicate (Z.to_nat 3) (true, 0) ++ [(false, Second - (40 - 0))].
Proof.
  apply (fresh_window_limit 0 3 Second [10; 20; 30] 40);
    try (unfold maxInt64, Second; lia).
  - reflexivity.
  - repeat constructor; unfold Second; lia.
Defined.

Lemma roll_window now sw :
  0 < windowSize sw -> 2 * windowSize sw <= maxInt64 -> windowStart sw <= now ->
  maxRequests (fst (roll now sw)) = maxRequests sw /\
  windowSize (fst (roll now sw)) = windowSize sw /\
  0 <= snd (roll now sw) < windowSize sw /\
  snd (roll now sw) = now - windowStart (fst (roll now sw)).
Proof.
  intros HW H2 Hmono. unfold roll.
  rewrite wrap64_id by (unfold inInt64, minInt64, maxInt64 in *; lia).
  pose proof (Sub_range now (windowStart sw)) as Hr.
  destruct (Z.leb_spec (2 * windowSize sw) (Sub now (windowStart sw))) as [Hidle|Hbusy].
  - cbn. repeat split; lia.
  - assert (Hsub : Sub now (windowStart sw) = now - windowStart sw).
    { unfold Sub in *. unfold inInt64, minInt64, maxInt64 in *.
      destruct (Z.ltb_spec (now - windowStart sw) (- 2 ^ 63)); [lia|].
      destruct (Z.ltb_spec (2 ^ 63 - 1) (now - windowStart sw)); [lia|done]. }
    rewrite Hsub in *.
    destruct (Z.leb_spec (windowSize sw) (now - windowStart sw)) as [Hrot|Hin].
    + cbn. unfold Add.
      rewrite Sub_exact by (unfold inInt64, minInt64, maxInt64 in *; lia).
      repeat split; lia.
    + cbn. repeat split; lia.
Qed.

(** X16.  On a clock that has not gone back behind the window start, with
    a positive [windowSize] whose double is a [Duration]: after [Allow]
    the clock reading lies inside the limiter's current window; an
    allowed call has retry-after 0; a refused call has a retry-after that
    is positive, at most [windowSize], and is the time left until the
    current window ends, and it leaves the counters as the window roll
    left them. *)
Theorem sliding_retry_after (now : Time) (sw : SlidingWindow) :
  0 < windowSize sw -> 2 * windowSize sw <= maxInt64 -> windowStart sw <= now ->
  let ok := fst (fst (Allow now sw)) in
  let retry := snd (fst (Allow now sw)) in
  let sw' := snd (Allow now sw) in
  windowStart sw' <= now < windowStart sw' + windowSize sw /\
  (ok = true -> retry = 0) /\
  (ok = false ->
   0 < retry <= windowSize sw /\
   now + retry = windowStart sw' + windowSize sw /\
   sw' = fst (roll now sw)).
Proof.
  intros HW H2 Hmono. cbv zeta.
  destruct (roll_window now sw HW H2 Hmono) as (Hmax & Hsize & He & Hstart).
  unfold Allow. destruct (roll now sw) as [sw1 e] eqn:Eroll. cbn [fst snd] in *.
  unfold weigh. rewrite Hsize.
  destruct (Float64.ltb _ _); cbn [fst snd].
  - rewrite wrap64_id by (unfold inInt64, minInt64, maxInt64 in *; lia).
    split; [lia|]. split; [done|]. intros _. split; [lia|]. split; [lia|done].
  - cbn [setCounts windowStart]. split; [lia|]. split; [done|]. done.
Qed.

Definition fullWindow : SlidingWindow :=
  {| maxRequests := 2; windowSize := Second;
     prevCount := 0; currCount := 2; windowStart := 1000000000 |}.

Lemma sliding_retry_after_witness :
  0 < snd (fst (Allow 1500000000 fullWindow)) <= Second /\
  1500000000 + snd (fst (Allow 1500000000 fullWindow))
  = windowStart (snd (Allow 1500000000 fullWindow)) + Second.
Proof.
  destruct (sliding_retry_after 1500000000 fullWindow)
    as (_ & _ & H); try (cbn; unfold maxInt64, Second; lia).
  destruct (H ltac:(vm_compute; reflexivity)) as (Hretry & Hend & _).
  split; [exact Hretry | exact Hend].
Defined.

(** X17.  No burst across a window boundary.  At the very moment a window
    ends, the requests counted in it weigh in full against the new window:
    the call at [windowStart + windowSize] moves the current count [c] to
    the previous window, and is allowed exactly when [c < maxRequests].
    A client that used its whole quota in one window is refused at the
    start of the next, with a retry-after of one [windowSize]. *)
Theorem no_boundary_burst (sw : SlidingWindow) :
  0 <= currCount sw -> currCount sw + 1 < 2 ^ 53 ->
  0 <= maxRequests sw < 2 ^ 53 ->
  0 < windowSize sw -> 2 * windowSize sw <= maxInt64 ->
  let now := windowStart sw + windowSize sw in
  Allow now sw =
    if currCount sw <? maxRequests sw
    then ((true, 0), setCounts (currCount sw) 1 now sw)
    else ((false, windowSize sw), setCounts (currCount sw) 0 now sw).
Proof.
  intros Hc Hc1 Hmax HW H2. cbv zeta. unfold Allow, roll.
  rewrite wrap64_id by (unfold inInt64, minInt64, maxInt64 in *; lia).
  rewrite Sub_exact
    by (replace (windowStart sw + windowSize sw - windowStart sw)
          with (windowSize sw) by lia;
        unfold inInt64, minInt64, maxInt64 in *; lia).
  replace (windowStart sw + windowSize sw - windowStart sw) with (windowSize sw) by lia.
  destruct (Z.leb_spec (2 * windowSize sw) (windowSize sw)); [lia|].
  destruct (Z.leb_spec (windowSize sw) (windowSize sw)); [|lia].
  unfold Add. rewrite Sub_exact
    by (rewrite Z.sub_diag; unfold inInt64, minInt64, maxInt64; lia).
  rewrite Z.sub_diag. unfold weigh.
  cbn [setCounts prevCount currCount maxRequests windowSize windowStart].
  destruct (Seconds_pos (windowSize sw) HW
              ltac:(unfold inInt64, minInt64, maxInt64 in *; lia)) as (m & ex & ->).
  rewrite Seconds_zero.
  change (Float64.div (S754_zero false) (S754_finite false m ex)) with (S754_zero false).
  change (Float64.sub Float64.one (S754_zero false)) with Float64.one.
  change (Float64.ltb Float64.one Float64.zero) with false. cbv iota.
  unfold Float64.one at 1. rewrite Float64.mul_ofInt by lia.
  rewrite Z.mul_1_r, Float64.add_ofInt by lia.
  rewrite Z.add_0_r, Float64.add_one by lia.
  unfold Float64.ltb. rewrite Float64.ltb_ofInt by lia.
  rewrite Z.sub_0_r.
  rewrite !wrap64_id by (unfold inInt64, minInt64, maxInt64 in *; lia).
  destruct (Z.ltb_spec (maxRequests sw) (currCount sw + 1));
    destruct (Z.ltb_spec (currCount sw) (maxRequests sw)); try lia; reflexivity.
Qed.

Lemma no_boundary_burst_witness :
  Allow (windowStart fullWindow + windowSize fullWindow) fullWindow
  = if currCount fullWindow <? maxRequests fullWindow
    then ((true, 0),
          setCounts (currCount fullWindow) 1
            (windowStart fullWindow + windowSize fullWindow) fullWindow)
    else ((false, windowSize fullWindow),
          setCounts (currCount fullWindow) 0
            (windowStart fullWindow + windowSize fullWindow) fullWindow).
Proof.
  apply (no_boundary_burst fullWindow); cbn; unfold maxInt64, Second; lia.
Defined.

End SlidingWindow.

(** ** One bucket per client (perclient.go) *)

Module PerClient.

Record clientEntry := mkClientEntry {
  bucket : TokenBucket.TokenBucket;
  lastAccess : Time
}.

Record PerClient := mkPerClient {
  clients : gmap string clientEntry;
  capacity : Z;
  rate : Float64.float64;
  staleThreshold : Duration
}.

Definition NewPerClient (capacity : Z) (rate : Float64.float64)
    (staleThreshold : Duration) : PerClient :=
  {| clients := ∅; capacity := capacity; rate := rate;
     staleThreshold := staleThreshold |}.

Definition setClients (m : gmap string clientEntry) (pc : PerClient) : PerClient :=
  {| clients := m; capacity := capacity pc; rate := rate pc;
     staleThreshold := staleThreshold pc |}.

(** The sweeper's ticker: [time.NewTicker(staleThreshold / 2)] panics
    ([None]) on an interval that is not positive. *)
Definition gcInterval (pc : PerClient) : option Duration :=
  let d := Z.quot (staleThreshold pc) 2 in
  if d <=? 0 then None else Some d.

(** One tick of the sweeper at clock reading [now]. *)
Definition sweep (now : Time) (pc : PerClient) : PerClient :=
  setClients
    (filter (fun kv => ~ staleThreshold pc < Sub now (lastAccess kv.2)) (clients pc)) pc.

Section Allow.

Variable overflow : Float64.float64 -> Z.

(** [Allow(key)]; [clock i] is the [i]-th reading of the clock during the
    call.  A known client costs two readings (the access stamp, the
    bucket's refill), a new one three (the bucket's creation first). *)
Definition Allow (clock : nat -> Time) (key : string) (pc : PerClient)
  : (bool * Duration) * PerClient :=
  match clients pc !! key with
  | Some entry =>
      let '(r, tb) := TokenBucket.Allow overflow (clock 1%nat) (bucket entry) in
      (r, setClients (<[key := {| bucket := tb; lastAccess := clock 0%nat |}]> (clients pc)) pc)
  | None =>
      let tb := TokenBucket.NewTokenBucket (clock 0%nat) (capacity pc) (rate pc) in
      let '(r, tb) := TokenBucket.Allow overflow (clock 2%nat) tb in
      (r, setClients (<[key := {| bucket := tb; lastAccess := clock 1%nat |}]> (clients pc)) pc)
  end.

(** A history of calls: the key and the clock of each. *)
Definition runAllows (calls : list (string * (nat -> Time))) (pc : PerClient) : PerClient :=
  fold_left (fun pc c => snd (Allow c.2 c.1 pc)) calls pc.

Lemma Allow_frame clock key pc :
  capacity (snd (Allow clock key pc)) = capacity pc /\
  rate (snd (Allow clock key pc)) = rate pc /\
  staleThreshold (snd (Allow clock key pc)) = staleThreshold pc /\
  forall k, k <> key -> clients (snd (Allow clock key pc)) !! k = clients pc !! k.
Proof.
  unfold Allow. destruct (clients pc !! key) as [entry|].
  - destruct (TokenBucket.Allow overflow (clock 1%nat) (bucket entry)) as [r tb].
    cbn. repeat split. intros k Hk. by rewrite lookup_insert_ne.
  - destruct (TokenBucket.Allow overflow (clock 2%nat) _) as [r tb].
    cbn. repeat split. intros k Hk. by rewrite lookup_insert_ne.
Qed.

Lemma Allow_local clock key pc1 pc2 :
  clients pc1 !! key = clients pc2 !! key ->
  capacity pc1 = capacity pc2 -> rate pc1 = rate pc2 ->
  fst (Allow clock key pc1) = fst (Allow clock key pc2) /\
  clients (snd (Allow clock key pc1)) !! key = clients (snd (Allow clock key pc2)) !! key.
Proof.
  intros Hk Hc Hr. unfold Allow. rewrite Hk, Hc, Hr.
  destruct (clients pc2 !! key) as [entry|].
  - destruct (TokenBucket.Allow overflow (clock 1%nat) (bucket entry)) as [r tb].
    cbn. by rewrite !lookup_insert_eq.
  - destruct (TokenBucket.Allow overflow (clock 2%nat) _) as [r tb].
    cbn. by rewrite !lookup_insert_eq.
Qed.

Lemma runAllows_frame calls : forall pc k,
  Forall (fun c => c.1 <> k) calls ->
  capacity (runAllows calls pc) = capacity pc /\
  rate (runAllows calls pc) = rate pc /\
  clients (runAllows calls pc) !! k = clients pc !! k.
Proof.
  induction calls as [|[key clock] calls IH]; intros pc k Hall; [done|].
  apply Forall_cons in Hall as [Hne Hall]. cbn [runAllows fold_left fst snd] in *.
  fold (runAllows calls (snd (Allow clock key pc))).
  destruct (IH (snd (Allow clock key pc)) k Hall) as (Hc & Hr & Hk).
  destruct (Allow_frame clock key pc) as (Hc1 & Hr1 & _ & Hother).
  rewrite Hc, Hr, Hk, Hc1, Hr1, Hother by done. done.
Qed.

(** The bucket a client has, or would be given at clock reading [t]. *)
Definition bucketAt (t : Time) (key : string) (pc : PerClient) : TokenBucket.TokenBucket :=
  match clients pc !! key with
  | Some entry => bucket entry
  | None => TokenBucket.NewTokenBucket t (capacity pc) (rate pc)
  end.

Lemma Allow_at_instant t key pc :
  fst (Allow (fun _ => t) key pc)
    = fst (TokenBucket.Allow overflow t (bucketAt t key pc)) /\
  bucketAt t key (snd (Allow (fun _ => t) key pc))
    = snd (TokenBucket.Allow overflow t (bucketAt t key pc)) /\
  capacity (snd (Allow (fun _ => t) key pc)) = capacity pc /\
  rate (snd (Allow (fun _ => t) key pc)) = rate pc.
Proof.
  unfold Allow, bucketAt. destruct (clients pc !! key) as [entry|].
  - destruct (TokenBucket.Allow overflow t (bucket entry)) as [r tb].
    cbn. by rewrite lookup_insert_eq.
  - destruct (TokenBucket.Allow overflow t _) as [r tb].
    cbn. by rewrite lookup_insert_eq.
Qed.

End Allow.

(** X18.  Clients do not share buckets.  Calls of [Allow] for other keys
    leave a client's entry untouched, so what [Allow] then answers the
    client, and the bucket it leaves, are what they would have been
    without those calls: using up one client's tokens never costs another
    client a request. *)
Theorem client_isolation (overflow : Float64.float64 -> Z)
    (calls : list (string * (nat -> Time))) (pc : PerClient) (k : string) :
  Forall (fun c => c.1 <> k) calls ->
  clients (runAllows overflow calls pc) !! k = clients pc !! k /\
  forall clock,
    fst (Allow overflow clock k (runAllows overflow calls pc))
    = fst (Allow overflow clock k pc) /\
    clients (snd (Allow overflow clock k (runAllows overflow calls pc))) !! k
    = clients (snd (Allow overflow clock k pc)) !! k.
Proof.
  intros Hall.
  destruct (runAllows_frame overflow calls pc k Hall) as (Hc & Hr & Hk).
  split; [done|]. intros clock. by apply Allow_local.
Qed.

Lemma client_isolation_witness :
  clients (runAllows Float64.overflowAmd64
             [("a"%string, fun _ => 5); ("a"%string, fun _ => 6)]
             (NewPerClient 1 Float64.zero 100)) !! "b"%string
  = clients (NewPerClient 1 Float64.zero 100) !! "b"%string.
Proof.
  destruct (client_isolation Float64.overflowAmd64
              [("a"%string, fun _ => 5); ("a"%string, fun _ => 6)]
              (NewPerClient 1 Float64.zero 100) "b") as [H _].
  - repeat constructor; cbn; discriminate.
  - exact H.
Defined.

(** X19.  The sweeper forgets idle clients, and with them what they had
    used.  A tick at [now] removes exactly the entries whose last access
    lies more than [staleThreshold] back and keeps the others as they
    are.  For a client it removed, the next [Allow] is answered by a new
    full bucket: with [1 <= capacity < 2^53] and rate 0 that call is
    allowed, whatever was left in the bucket the client had before.  The
    sweeper cannot start with a [staleThreshold] below 2ns: the ticker
    interval [staleThreshold / 2] is then not positive. *)
Theorem sweep_forgets (overflow : Float64.float64 -> Z) (now : Time)
    (pc : PerClient) (key : string) :
  clients (sweep now pc) !! key
  = match clients pc !! key with
    | Some entry =>
        if staleThreshold pc <? Sub now (lastAccess entry) then None else Some entry
    | None => None
    end /\
  (forall entry clock,
      clients pc !! key = Some entry ->
      staleThreshold pc < Sub now (lastAccess entry) ->
      fst (Allow overflow clock key (sweep now pc))
      = fst (TokenBucket.Allow overflow (clock 2%nat)
               (TokenBucket.NewTokenBucket (clock 0%nat) (capacity pc) (rate pc))) /\
      (rate pc = Float64.zero -> 1 <= capacity pc < 2 ^ 53 ->
       fst (Allow overflow clock key (sweep now pc)) = (true, 0))) /\
  (gcInterval pc = None <-> staleThreshold pc < 2).
Proof.
  assert (Hlookup : clients (sweep now pc) !! key
            = match clients pc !! key with
              | Some entry =>
                  if staleThreshold pc <? Sub now (lastAccess entry)
                  then None else Some entry
              | None => None
              end).
  { unfold sweep. cbn [clients setClients]. rewrite map_lookup_filter.
    destruct (clients pc !! key) as [entry|]; [|done]. cbn.
    destruct (Z.ltb_spec (staleThreshold pc) (Sub now (lastAccess entry))).
    - rewrite option_guard_False; [done|]. cbn. tauto.
    - rewrite option_guard_True; [done|]. cbn. lia. }
  split; [done|]. split.
  - intros entry clock Hentry Hstale. rewrite Hentry in Hlookup.
    destruct (Z.ltb_spec (staleThreshold pc) (Sub now (lastAccess entry))); [|lia].
    assert (Hfst : fst (Allow overflow clock key (sweep now pc))
                   = fst (TokenBucket.Allow overflow (clock 2%nat)
                            (TokenBucket.NewTokenBucket (clock 0%nat)
                               (capacity pc) (rate pc)))).
    { unfold Allow. rewrite Hlookup. cbn [capacity rate sweep setClients].
      by destruct (TokenBucket.Allow _ _ _). }
    split; [done|]. intros Hrate HC. rewrite Hfst, Hrate.
    change (TokenBucket.NewTokenBucket (clock 0%nat) (capacity pc) Float64.zero)
      with (TokenBucket.drained (capacity pc) (capacity pc) (clock 0%nat)).
    rewrite TokenBucket.Allow_zero_rate by lia.
    destruct (Z.leb_spec 1 (capacity pc)); [done|lia].
  - unfold gcInterval. cbv zeta.
    destruct (Z.leb_spec (Z.quot (staleThreshold pc) 2) 0) as [Hle|Hgt].
    + split; [intros _|done].
      destruct (Z.lt_ge_cases (staleThreshold pc) 2) as [|Hge]; [done|].
      pose proof (Z.quot_le_mono 2 (staleThreshold pc) 2 ltac:(lia) ltac:(lia)) as Hq.
      change (Z.quot 2 2) with 1 in Hq. lia.
    + split; [done|]. intros Hlt.
      destruct (Z.le_gt_cases 0 (staleThreshold pc)) as [Hnn|Hneg].
      * assert (Z.quot (staleThreshold pc) 2 = 0)
          by (apply Z.quot_small; lia). lia.
      * pose proof (Z.quot_le_upper_bound (staleThreshold pc) 2 0) as Hq.
        assert (Z.quot (staleThreshold pc) 2 <= 0).
        { replace (staleThreshold pc) with (- (- staleThreshold pc)) by lia.
          rewrite Z.quot_opp_l by lia.
          pose proof (Z.quot_pos (- staleThreshold pc) 2 ltac:(lia) ltac:(lia)). lia. }
        lia.
Qed.

End PerClient.

End RateLimit.

(** * Middleware (internal/middleware, internal/observe) *)

Module Middleware.
Import GoInt GoTime.

(** ** Chaining (chain.go) *)

Section Chain.

(** [http.Handler]; a middleware wraps one handler into another. *)
Context {Handler : Type}.

Definition Middleware := Handler -> Handler.

(** The loop [for i := len(middlewares) - 1; i >= 0; i--] with the indices
    below [n] still to do. *)
Fixpoint chainLoop (n : nat) (middlewares : list Middleware) (final : Handler) : Handler :=
  match n with
  | O => final
  | S i =>
      chainLoop i middlewares
        (match middlewares !! i with
         | Some m => m final
         | None => final
         end)
  end.

Definition Chain (middlewares : list Middleware) : Middleware :=
  fun final => chainLoop (length middlewares) middlewares final.

Lemma chainLoop_take n : forall middlewares final,
  (n <= length middlewares)%nat ->
  chainLoop n middlewares final = foldr (fun m h => m h) final (take n middlewares).
Proof.
  unfold Middleware. induction n as [|n IH]; intros ms final Hn; [done|].
  cbn [chainLoop]. unfold Middleware in *.
  destruct (lookup_lt_is_Some_2 ms n ltac:(lia)) as [m Hm].
  rewrite Hm, IH by lia. rewrite (take_S_r ms n m Hm), foldr_app. reflexivity.
Qed.

Lemma Chain_foldr middlewares final :
  Chain middlewares final = foldr (fun m h => m h) final middlewares.
Proof.
  unfold Chain. rewrite chainLoop_take by done. by rewrite firstn_all.
Qed.

(** X24.  [Chain] composes its middlewares with the first one outermost:
    [Chain(a, b, c)(h) = a(b(c(h)))].  The empty chain gives the handler
    back, and chaining two lists is chaining the chains:
    [Chain(ms1 ++ ms2) = Chain(Chain(ms1), Chain(ms2))]. *)
Theorem chain_composition (ms1 ms2 : list Middleware) (a b c : Middleware)
    (final : Handler) :
  Chain [] final = final /\
  Chain [a; b; c] final = a (b (c final)) /\
  Chain (ms1 ++ ms2) final = Chain ms1 (Chain ms2 final) /\
  Chain [Chain ms1; Chain ms2] final = Chain (ms1 ++ ms2) final.
Proof.
  split; [done|]. split; [done|].
  assert (H : Chain (ms1 ++ ms2) final = Chain ms1 (Chain ms2 final))
    by (by rewrite !Chain_foldr, foldr_app).
  split; [done|]. by rewrite H.
Qed.

End Chain.

(** ** Capturing the response (responsewriter.go) *)

(** What a handler does with its [http.ResponseWriter]: [WriteHeader(code)]
    or a [Write] of which the writer accepted [n] bytes. *)
Inductive WriterCall :=
| CallWriteHeader (code : Z)
| CallWrite (n : Z).

(** The capture's own fields; the wrapped writer it passes every call on
    to is left out. *)
Record ResponseCapture := mkResponseCapture {
  StatusCode : Z;
  Written : Z   (* int64 *)
}.

Definition NewResponseCapture : ResponseCapture :=
  {| StatusCode := 200; Written := 0 |}.

Definition WriteHeader (code : Z) (rc : ResponseCapture) : ResponseCapture :=
  {| StatusCode := code; Written := Written rc |}.

Definition Write (n : Z) (rc : ResponseCapture) : ResponseCapture :=
  {| StatusCode := StatusCode rc; Written := wrap64 (Written rc + n) |}.

Definition call (rc : ResponseCapture) (c : WriterCall) : ResponseCapture :=
  match c with
  | CallWriteHeader code => WriteHeader code rc
  | CallWrite n => Write n rc
  end.

(** The capture after a handler has made the calls [calls] on it. *)
Definition capture (calls : list WriterCall) : ResponseCapture :=
  fold_left call calls NewResponseCapture.

Definition headerCodes (calls : list WriterCall) : list Z :=
  omap (fun c => match c with CallWriteHeader code => Some code | CallWrite _ => None end)
       calls.

Definition bytesOf (calls : list WriterCall) : list Z :=
  omap (fun c => match c with CallWrite n => Some n | CallWriteHeader _ => None end) calls.

Lemma capture_fold calls : forall rc,
  0 <= Written rc -> Forall (fun n => 0 <= n) (bytesOf calls) ->
  Written rc + foldr Z.add 0 (bytesOf calls) <= maxInt64 ->
  StatusCode (fold_left call calls rc) = default (StatusCode rc) (last (headerCodes calls)) /\
  Written (fold_left call calls rc) = Written rc + foldr Z.add 0 (bytesOf calls).
Proof.
  induction calls as [|c calls IH]; intros rc Hw Hpos Hmax.
  - cbn. split; [done|lia].
  - destruct c as [code|n]; cbn [fold_left call headerCodes bytesOf omap list_omap] in *.
    + fold (headerCodes calls). fold (bytesOf calls) in *.
      destruct (IH (WriteHeader code rc) Hw Hpos Hmax) as [Hs Hb].
      rewrite Hs, Hb. cbn [WriteHeader StatusCode Written]. split; [|done].
      rewrite last_cons. by destruct (last (headerCodes calls)).
    + fold (headerCodes calls). fold (bytesOf calls) in *.
      apply Forall_cons in Hpos as [Hn Hpos]. cbn [foldr] in Hmax.
      assert (Hsum : 0 <= foldr Z.add 0 (bytesOf calls)).
      { clear -Hpos. induction Hpos; cbn; lia. }
      destruct (IH (Write n rc)) as [Hs Hb]; cbn [Write Written StatusCode].
      * rewrite wrap64_id by (unfold inInt64, minInt64, maxInt64 in *; lia). lia.
      * done.
      * rewrite wrap64_id by (unfold inInt64, minInt64, maxInt64 in *; lia). lia.
      * rewrite Hs, Hb. cbn [Write Written StatusCode foldr].
        rewrite wrap64_id by (unfold inInt64, minInt64, maxInt64 in *; lia).
        split; [done|lia].
Qed.

(** X25.  The capture reports the code of the last [WriteHeader] call the
    handler made, 200 when it made none, and as [Written] the total of the
    bytes its writes were accepted for (byte counts are not negative and
    the total fits an [int64]). *)
Theorem capture_reports (calls : list WriterCall) :
  Forall (fun n => 0 <= n) (bytesOf calls) ->
  foldr Z.add 0 (bytesOf calls) <= maxInt64 ->
  StatusCode (capture calls) = default 200 (last (headerCodes calls)) /\
  Written (capture calls) = foldr Z.add 0 (bytesOf calls).
Proof.
  intros Hpos Hmax. unfold capture.
  destruct (capture_fold calls NewResponseCapture) as [Hs Hb]; cbn; try done.
Qed.

Lemma capture_reports_witness :
  StatusCode (capture [CallWriteHeader 200; CallWrite 5; CallWriteHeader 502; CallWrite 7])
    = default 200 (last (headerCodes
        [CallWriteHeader 200; CallWrite 5; CallWriteHeader 502; CallWrite 7])) /\
  Written (capture [CallWriteHeader 200; CallWrite 5; CallWriteHeader 502; CallWrite 7])
    = foldr Z.add 0 (bytesOf
        [CallWriteHeader 200; CallWrite 5; CallWriteHeader 502; CallWrite 7]).
Proof.
  apply (capture_reports
           [CallWriteHeader 200; CallWrite 5; CallWriteHeader 502; CallWrite 7]).
  - repeat constructor; lia.
  - cbn. unfold maxInt64. lia.
Defined.

(** ** Circuit breaker middleware (middleware/circuitbreaker.go) *)

(** What the client gets: the error page of [http.Error], or what the
    wrapped handler wrote. *)
Inductive Response :=
| Rejected (code : Z) (body : string)
| Served (calls : list WriterCall).

(** One request through the middleware for the backend [backendFunc]
    names; [next] is what the wrapped handler does with its writer, and
    [clock i] the [i]-th reading of the clock. *)
Definition CircuitBreaker (clock : nat -> Time) (backend : string)
    (next : list WriterCall) (cb : PerBackend.PerBackend)
  : Response * PerBackend.PerBackend :=
  let '(ok, cb) := PerBackend.Allow (clock 0%nat) backend cb in
  if negb ok then (Rejected 503 "service unavailable", cb)
  else
    let rc := capture next in
    if 500 <=? StatusCode rc
    then (Served next, PerBackend.RecordFailure (clock 1%nat) backend cb)
    else (Served next, PerBackend.RecordSuccess backend cb).

(** Requests for one backend, one after the other. *)
Fixpoint serveAll (backend : string) (reqs : list ((nat -> Time) * list WriterCall))
    (cb : PerBackend.PerBackend) : list Response * PerBackend.PerBackend :=
  match reqs with
  | [] => ([], cb)
  | (clock, next) :: rest =>
      let '(r, cb1) := CircuitBreaker clock backend next cb in
      let '(rs, cb2) := serveAll backend rest cb1 in
      (r :: rs, cb2)
  end.

Definition failing (next : list WriterCall) : Prop := 500 <= StatusCode (capture next).

Lemma serve_one clock backend next cb b :
  let br := PerBackend.breakerOf backend cb in
  let allowed := fst (CircuitBreaker.Allow (clock 0%nat) br) in
  let br1 := snd (CircuitBreaker.Allow (clock 0%nat) br) in
  fst (CircuitBreaker clock backend next cb)
    = (if allowed then Served next else Rejected 503 "service unavailable") /\
  PerBackend.maxFailures (snd (CircuitBreaker clock backend next cb))
    = PerBackend.maxFailures cb /\
  PerBackend.timeout (snd (CircuitBreaker clock backend next cb))
    = PerBackend.timeout cb /\
  PerBackend.breakerOf b (snd (CircuitBreaker clock backend next cb))
    = if decide (b = backend)
      then (if allowed
            then (if 500 <=? StatusCode (capture next)
                  then CircuitBreaker.RecordFailure (clock 1%nat) br1
                  else CircuitBreaker.RecordSuccess br1)
            else br1)
      else PerBackend.breakerOf b cb.
Proof.
  cbv zeta. unfold CircuitBreaker.
  destruct (PerBackend.Allow_breakerOf (clock 0%nat) backend cb) as [Hok Hsnd].
  destruct (PerBackend.stepCall_breakerOf
              (PerBackend.CallOp backend (CircuitBreaker.OpAllow (clock 0%nat))) cb backend)
    as (Hmf & Htmo & Hbr).
  pose proof (PerBackend.stepCall_breakerOf
              (PerBackend.CallOp backend (CircuitBreaker.OpAllow (clock 0%nat))) cb b)
    as (_ & _ & Hb).
  rewrite <- Hsnd in Hmf, Htmo, Hbr, Hb.
  destruct (PerBackend.Allow (clock 0%nat) backend cb) as [ok cb1].
  cbn [fst snd] in *. rewrite decide_True in Hbr by done. cbn [CircuitBreaker.step] in *.
  rewrite <- Hok. destruct ok; cbn [negb].
  - destruct (500 <=? StatusCode (capture next)); cbn [fst snd].
    + destruct (PerBackend.stepCall_breakerOf
                  (PerBackend.CallOp backend
                     (CircuitBreaker.OpRecordFailure (clock 1%nat))) cb1 b)
        as (Hmf2 & Htmo2 & Hb2). cbn [PerBackend.stepCall] in *.
      rewrite Hmf2, Htmo2, Hb2, Hmf, Htmo. split; [done|]. split; [done|]. split; [done|].
      destruct (decide (b = backend)) as [->|Hne]; [by rewrite Hbr|done].
    + destruct (PerBackend.stepCall_breakerOf
                  (PerBackend.CallOp backend CircuitBreaker.OpRecordSuccess) cb1 b)
        as (Hmf2 & Htmo2 & Hb2). cbn [PerBackend.stepCall] in *.
      rewrite Hmf2, Htmo2, Hb2, Hmf, Htmo. split; [done|]. split; [done|]. split; [done|].
      destruct (decide (b = backend)) as [->|Hne]; [by rewrite Hbr|done].
  - cbn [fst snd]. split; [done|]. split; [done|]. split; [done|].
    destruct (decide (b = backend)) as [->|Hne]; [by rewrite Hbr|done].
Qed.

Lemma serve_failing_run b reqs : forall cb,
  CircuitBreaker.state (PerBackend.breakerOf b cb) = CircuitBreaker.StateClosed ->
  0 <= CircuitBreaker.failures (PerBackend.breakerOf b cb)
    < CircuitBreaker.maxFailures (PerBackend.breakerOf b cb) ->
  CircuitBreaker.failures (PerBackend.breakerOf b cb) + Z.of_nat (length reqs)
    <= CircuitBreaker.maxFailures (PerBackend.breakerOf b cb) ->
  CircuitBreaker.maxFailures (PerBackend.breakerOf b cb) <= maxInt64 ->
  Forall (fun r => failing r.2) reqs ->
  fst (serveAll b reqs cb) = (fun r => Served r.2) <$> reqs /\
  PerBackend.maxFailures (snd (serveAll b reqs cb)) = PerBackend.maxFailures cb /\
  PerBackend.timeout (snd (serveAll b reqs cb)) = PerBackend.timeout cb /\
  (forall b', b' <> b ->
     PerBackend.breakerOf b' (snd (serveAll b reqs cb)) = PerBackend.breakerOf b' cb) /\
  CircuitBreaker.timeout (PerBackend.breakerOf b (snd (serveAll b reqs cb)))
    = CircuitBreaker.timeout (PerBackend.breakerOf b cb) /\
  CircuitBreaker.state (PerBackend.breakerOf b (snd (serveAll b reqs cb)))
    = (if CircuitBreaker.failures (PerBackend.breakerOf b cb) + Z.of_nat (length reqs)
          <? CircuitBreaker.maxFailures (PerBackend.breakerOf b cb)
       then CircuitBreaker.StateClosed else CircuitBreaker.StateOpen) /\
  CircuitBreaker.lastFailureTime (PerBackend.breakerOf b (snd (serveAll b reqs cb)))
    = match last reqs with
      | Some r => r.1 1%nat
      | None => CircuitBreaker.lastFailureTime (PerBackend.breakerOf b cb)
      end.
Proof.
  induction reqs as [|[clock next] rest IH]; intros cb Hst Hf Hsum Hmax Hall.
  - cbn [serveAll fst snd length fmap list_fmap last] in *.
    rewrite Z.add_0_r in *. split_and!; try done.
    destruct (Z.ltb_spec (CircuitBreaker.failures (PerBackend.breakerOf b cb))
                (CircuitBreaker.maxFailures (PerBackend.breakerOf b cb))); [done|lia].
  - apply Forall_cons in Hall as [Hfail Hall]. cbn [fst snd] in Hfail.
    cbn [serveAll length] in *.
    destruct (serve_one clock b next cb b) as (Hresp & Hmf1 & Htmo1 & Hbr1).
    pose proof (fun b' => proj2 (proj2 (proj2 (serve_one clock b next cb b')))) as Hother1.
    cbv zeta in *. rewrite decide_True in Hbr1 by done.
    destruct (PerBackend.breakerOf b cb) as [mf tmo st f l] eqn:Ebr.
    cbn [CircuitBreaker.state CircuitBreaker.failures CircuitBreaker.maxFailures
         CircuitBreaker.timeout CircuitBreaker.lastFailureTime] in *.
    subst st. unfold CircuitBreaker.Allow in Hresp, Hbr1, Hother1.
    cbn [CircuitBreaker.state fst snd] in Hresp, Hbr1, Hother1.
    unfold failing in Hfail.
    destruct (Z.leb_spec 500 (StatusCode (capture next))) as [_|?]; [|lia].
    unfold CircuitBreaker.RecordFailure in Hbr1.
    cbn [CircuitBreaker.setFailures CircuitBreaker.setLastFailureTime
         CircuitBreaker.setState CircuitBreaker.state CircuitBreaker.failures
         CircuitBreaker.maxFailures CircuitBreaker.timeout
         CircuitBreaker.lastFailureTime] in Hbr1.
    rewrite wrap64_id in Hbr1 by (unfold inInt64, minInt64, maxInt64 in *; lia).
    destruct (CircuitBreaker clock b next cb) as [r cb1]. cbn [fst snd] in *.
    destruct rest as [|r2 rest'].
    + cbn [serveAll fst snd fmap list_fmap last length] in *. subst r.
      split; [done|]. split; [done|]. split; [done|]. split.
      { intros b' Hb'. rewrite Hother1. by rewrite decide_False. }
      rewrite Hbr1.
      destruct (Z.leb_spec mf (f + 1)); destruct (Z.ltb_spec (f + Z.of_nat 1) mf);
        cbn; try lia; done.
    + assert (Hlt : f + 1 < mf) by (cbn [length] in Hsum; lia).
      destruct (Z.leb_spec mf (f + 1)) as [?|_]; [lia|].
      assert (Hside : CircuitBreaker.state (PerBackend.breakerOf b cb1)
                        = CircuitBreaker.StateClosed /\
                      CircuitBreaker.failures (PerBackend.breakerOf b cb1) = f + 1 /\
                      CircuitBreaker.maxFailures (PerBackend.breakerOf b cb1) = mf /\
                      CircuitBreaker.timeout (PerBackend.breakerOf b cb1) = tmo)
        by (by rewrite Hbr1).
      destruct Hside as (Hst1 & Hf1 & Hm1 & Ht1).
      destruct (IH cb1) as (Hr & Hmf2 & Htmo2 & Hother2 & Ht2 & Hs2 & Hl2);
        [done | rewrite Hf1, Hm1; lia | rewrite Hf1, Hm1; cbn [length] in *; lia
        | rewrite Hm1; lia | done |].
      destruct (serveAll b (r2 :: rest') cb1) as [rs cb2]. cbn [fst snd] in *.
      rewrite Hf1, Hm1 in Hs2. rewrite Ht1 in Ht2.
      subst r. split; [by rewrite Hr|]. split; [congruence|]. split; [congruence|].
      split.
      { intros b' Hb'. rewrite Hother2, Hother1 by done. by rewrite decide_False. }
      split; [done|]. split.
      * rewrite Hs2. replace (f + 1 + Z.of_nat (length (r2 :: rest')))
          with (f + Z.of_nat (S (length (r2 :: rest')))) by lia. done.
      * rewrite Hl2. rewrite last_cons_cons.
        destruct (last (r2 :: rest')) as [r|] eqn:El; [done|].
        by apply last_None in El.
Qed.

(** X26.  The middleware trips a backend's circuit on 5xx responses.
    Starting with no circuit open and [1 <= maxFailures], when
    [maxFailures] requests in a row for a backend are answered by the
    wrapped handler with a status of 500 or more, each of them is passed
    through, and the backend's circuit is then open: a further request for
    it that arrives less than [timeout] after the last failure is answered
    503 without the wrapped handler being run, and leaves the breakers as
    they are.  Requests for other backends are still served. *)
Theorem breaker_middleware_trips (mf : Z) (tmo : Duration) (b : string)
    (reqs : list ((nat -> Time) * list WriterCall))
    (lastClock : nat -> Time) (lastNext : list WriterCall) :
  1 <= mf <= maxInt64 ->
  length reqs = Z.to_nat mf ->
  last reqs = Some (lastClock, lastNext) ->
  Forall (fun r => failing r.2) reqs ->
  let cb := snd (serveAll b reqs (PerBackend.NewPerBackend mf tmo)) in
  fst (serveAll b reqs (PerBackend.NewPerBackend mf tmo))
    = (fun r => Served r.2) <$> reqs /\
  fst (PerBackend.State b cb) = CircuitBreaker.StateOpen /\
  (forall clock next,
      Since (clock 0%nat) (lastClock 1%nat) < tmo ->
      fst (CircuitBreaker clock b next cb) = Rejected 503 "service unavailable" /\
      forall b', PerBackend.breakerOf b' (snd (CircuitBreaker clock b next cb))
                 = PerBackend.breakerOf b' cb) /\
  (forall clock next b', b' <> b -> fst (CircuitBreaker clock b' next cb) = Served next).
Proof.
  intros Hmf Hlen Hlast Hall. cbv zeta.
  assert (Hnew : forall b', PerBackend.breakerOf b' (PerBackend.NewPerBackend mf tmo)
                            = CircuitBreaker.New mf tmo).
  { intros b'. unfold PerBackend.breakerOf, PerBackend.NewPerBackend. cbn.
    by rewrite lookup_empty. }
  destruct (serve_failing_run b reqs (PerBackend.NewPerBackend mf tmo))
    as (Hr & Hmf2 & Htmo2 & Hother & Ht & Hs & Hl);
    rewrite ?Hnew; cbn [CircuitBreaker.New CircuitBreaker.state CircuitBreaker.failures
                        CircuitBreaker.maxFailures]; [done | lia | lia | lia | done |].
  rewrite Hnew in Hs, Hl, Ht.
  cbn [CircuitBreaker.New CircuitBreaker.state CircuitBreaker.failures
       CircuitBreaker.maxFailures CircuitBreaker.timeout
       CircuitBreaker.lastFailureTime] in Hs, Hl, Ht.
  rewrite Hlast in Hl. cbn [fst] in Hl.
  set (cb := snd (serveAll b reqs (PerBackend.NewPerBackend mf tmo))) in *.
  destruct (Z.ltb_spec (0 + Z.of_nat (length reqs)) mf) as [?|_]; [lia|].
  split; [done|]. split; [by rewrite PerBackend.State_breakerOf|]. split.
  - intros clock next Hsince.
    destruct (serve_one clock b next cb b) as (Hresp & _ & _ & _).
    pose proof (fun b' => proj2 (proj2 (proj2 (serve_one clock b next cb b')))) as Hbr.
    cbv zeta in *. unfold CircuitBreaker.Allow in Hresp, Hbr.
    rewrite Hs, Hl, Ht in Hresp, Hbr.
    destruct (Z.leb_spec tmo (Since (clock 0%nat) (lastClock 1%nat))); [lia|].
    cbn [fst snd] in *. split; [done|]. intros b'. rewrite Hbr.
    by destruct (decide (b' = b)) as [->|].
  - intros clock next b' Hb'.
    destruct (serve_one clock b' next cb b') as (Hresp & _). cbv zeta in Hresp.
    rewrite Hresp, Hother, Hnew by done. reflexivity.
Qed.

Lemma breaker_middleware_trips_witness :
  fst (PerBackend.State "a"
         (snd (serveAll "a" [(fun _ => 10, [CallWriteHeader 502]);
                             (fun _ => 20, [CallWriteHeader 500; CallWrite 3])]
                 (PerBackend.NewPerBackend 2 1000))))
  = CircuitBreaker.StateOpen.
Proof.
  destruct (breaker_middleware_trips 2 1000 "a"
              [(fun _ => 10, [CallWriteHeader 502]);
               (fun _ => 20, [CallWriteHeader 500; CallWrite 3])]
              (fun _ => 20) [CallWriteHeader 500; CallWrite 3])
    as (_ & Hopen & _).
  - unfold maxInt64. lia.
  - reflexivity.
  - reflexivity.
  - repeat constructor; unfold failing; cbn; lia.
  - exact Hopen.
Defined.

(** ** Request tracing (middleware/tracing.go, observe/tracing.go) *)

Section Tracing.

(** [textproto.CanonicalMIMEHeaderKey], by which [Header.Get] and
    [Header.Set] address a key. *)
Variable CanonicalMIMEHeaderKey : string -> string.

(** [http.Header] *)
Definition Header := gmap string (list string).

Definition HeaderGet (h : Header) (key : string) : string :=
  match h !! CanonicalMIMEHeaderKey key with
  | Some (v :: _) => v
  | _ => EmptyString
  end.












End Tracing.

(** ** Rate limiting middleware (middleware/ratelimit.go) *)

Section RateLimit.

Variable overflow : Float64.float64 -> Z.

(** [fmt.Sprintf("%.0f", x)] *)
Variable formatSeconds : Float64.float64 -> string.

(** One request through the middleware: the response, the [Retry-After]
    header if one was set, and the limiter afterwards. *)
Definition RateLimitWithKeyFunc (clock : nat -> Time) (key : string)
    (next : list WriterCall) (limiter : RateLimit.PerClient.PerClient)
  : (Response * option string) * RateLimit.PerClient.PerClient :=
  let '((ok, retryAfter), limiter) :=
    RateLimit.PerClient.Allow overflow clock key limiter in
  if negb ok
  then ((Rejected 429 "rate limited", Some (formatSeconds (Seconds retryAfter))), limiter)
  else ((Served next, None), limiter).

(** [RateLimit] takes the request's [RemoteAddr] as the key. *)
Definition RateLimit (clock : nat -> Time) (remoteAddr : string)
    (next : list WriterCall) (limiter : RateLimit.PerClient.PerClient) :=
  RateLimitWithKeyFunc clock remoteAddr next limiter.

Definition NewDefaultLimiter : RateLimit.PerClient.PerClient :=
  RateLimit.PerClient.NewPerClient 100 (Float64.ofInt 10) (10 * (60 * Second)).

(** Requests of one client that all arrive at clock reading [t]. *)
Fixpoint burst (t : Time) (remoteAddr : string) (nexts : list (list WriterCall))
    (limiter : RateLimit.PerClient.PerClient)
  : list (Response * option string) * RateLimit.PerClient.PerClient :=
  match nexts with
  | [] => ([], limiter)
  | next :: rest =>
      let '(r, limiter1) := RateLimit (fun _ => t) remoteAddr next limiter in
      let '(rs, limiter2) := burst t remoteAddr rest limiter1 in
      (r :: rs, limiter2)
  end.

Lemma RateLimit_instant t addr next limiter C R k :
  RateLimit.PerClient.bucketAt t addr limiter = RateLimit.TokenBucket.holding C R k t ->
  0 <= R < 2 ^ 53 -> 0 <= k <= C -> C < 2 ^ 53 ->
  fst (RateLimit (fun _ => t) addr next limiter)
    = (if 1 <=? k then (Served next, None)
       else (Rejected 429 "rate limited",
             Some (formatSeconds
                     (Seconds (Float64.toInt64 overflow
                                 (Float64.mul (Float64.div Float64.one (Float64.ofInt R))
                                              (Float64.ofInt Second))))))) /\
  RateLimit.PerClient.bucketAt t addr (snd (RateLimit (fun _ => t) addr next limiter))
    = RateLimit.TokenBucket.holding C R (if 1 <=? k then k - 1 else 0) t /\
  RateLimit.PerClient.capacity (snd (RateLimit (fun _ => t) addr next limiter))
    = RateLimit.PerClient.capacity limiter /\
  RateLimit.PerClient.rate (snd (RateLimit (fun _ => t) addr next limiter))
    = RateLimit.PerClient.rate limiter.
Proof.
  intros Hb HR Hk HC. unfold RateLimit, RateLimitWithKeyFunc.
  destruct (RateLimit.PerClient.Allow_at_instant overflow t addr limiter)
    as (Hfst & Hbucket & Hcap & Hrate).
  rewrite Hb, RateLimit.TokenBucket.Allow_instant in Hfst, Hbucket by done.
  destruct (RateLimit.PerClient.Allow overflow (fun _ => t) addr limiter)
    as [[ok retry] limiter1].
  cbn [fst snd] in *.
  destruct (Z.leb_spec 1 k); cbn [fst snd] in *; injection Hfst as -> ->; cbn [negb];
    cbn [fst snd]; done.
Qed.

Lemma burst_instant t addr C R nexts : forall limiter k,
  RateLimit.PerClient.bucketAt t addr limiter = RateLimit.TokenBucket.holding C R k t ->
  0 <= R < 2 ^ 53 -> Z.of_nat (length nexts) <= k <= C -> C < 2 ^ 53 ->
  fst (burst t addr nexts limiter) = (fun next => (Served next, None)) <$> nexts /\
  RateLimit.PerClient.bucketAt t addr (snd (burst t addr nexts limiter))
    = RateLimit.TokenBucket.holding C R (k - Z.of_nat (length nexts)) t.
Proof.
  induction nexts as [|next rest IH]; intros limiter k Hb HR Hk HC.
  - cbn. rewrite Z.sub_0_r. done.
  - cbn [burst length] in *.
    destruct (RateLimit_instant t addr next limiter C R k Hb HR ltac:(lia) HC)
      as (Hfst & Hbucket & _).
    destruct (Z.leb_spec 1 k); [|lia].
    destruct (RateLimit (fun _ => t) addr next limiter) as [r limiter1].
    cbn [fst snd] in *. subst r.
    destruct (IH limiter1 (k - 1) Hbucket HR ltac:(lia) HC) as [Hrs Hb2].
    destruct (burst t addr rest limiter1) as [rs limiter2]. cbn [fst snd] in *.
    split; [by rewrite Hrs|]. rewrite Hb2. f_equal. lia.
Qed.

(** X30.  A client's burst against the rate limiter.  With a limiter of
    capacity [C] and a whole rate [R] per second, [C] requests of a new
    client that arrive at one instant are all passed to the wrapped
    handler, with no [Retry-After]; one more at that instant is answered
    429 and the handler is not run, and its [Retry-After] is the time
    [1/R] seconds, in nanoseconds, printed in seconds without decimals.
    For the default limiter (100 requests, 10 per second) that time is
    100ms, so the header is what ["%.0f"] makes of one tenth. *)
Theorem limiter_burst (C R : Z) (staleThreshold : Duration) (t : Time) (addr : string)
    (nexts : list (list WriterCall)) (next : list WriterCall) :
  1 <= C < 2 ^ 53 -> 0 <= R < 2 ^ 53 ->
  length nexts = Z.to_nat C ->
  let limiter := RateLimit.PerClient.NewPerClient C (Float64.ofInt R) staleThreshold in
  let wait := Float64.toInt64 overflow
                (Float64.mul (Float64.div Float64.one (Float64.ofInt R))
                             (Float64.ofInt Second)) in
  fst (burst t addr nexts limiter) = (fun next => (Served next, None)) <$> nexts /\
  fst (RateLimit (fun _ => t) addr next (snd (burst t addr nexts limiter)))
    = (Rejected 429 "rate limited", Some (formatSeconds (Seconds wait))) /\
  (C = 100 -> R = 10 -> staleThreshold = 600000000000 ->
   limiter = NewDefaultLimiter /\ wait = 100000000 /\
   Seconds wait = Float64.div Float64.one (Float64.ofInt 10)).
Proof.
  intros HC HR Hlen. cbv zeta.
  destruct (burst_instant t addr C R nexts
              (RateLimit.PerClient.NewPerClient C (Float64.ofInt R) staleThreshold) C)
    as [Hrs Hb]; [done|done|lia|lia|].
  split; [done|]. split.
  - destruct (RateLimit_instant t addr next _ C R (C - Z.of_nat (length nexts)) Hb)
      as (Hfst & _); [done|lia|lia|].
    rewrite Hfst. destruct (Z.leb_spec 1 (C - Z.of_nat (length nexts))); [lia|done].
  - intros -> -> ->. split; [reflexivity|]. split; vm_compute; reflexivity.
Qed.

End RateLimit.

Lemma limiter_burst_witness :
  fst (RateLimit Float64.overflowAmd64 (fun _ => "0"%string) (fun _ => 7) "10.0.0.1"
         [CallWriteHeader 200]
         (snd (burst Float64.overflowAmd64 (fun _ => "0"%string) 7 "10.0.0.1"
                 [[CallWriteHeader 200]; [CallWriteHeader 200]]
                 (RateLimit.PerClient.NewPerClient 2 (Float64.ofInt 10) 1000))))
  = (Rejected 429 "rate limited",
     Some ((fun _ => "0"%string)
             (Seconds (Float64.toInt64 Float64.overflowAmd64
                         (Float64.mul (Float64.div Float64.one (Float64.ofInt 10))
                                      (Float64.ofInt Second)))))).
Proof.
  destruct (limiter_burst Float64.overflowAmd64 (fun _ => "0"%string) 2 10 1000 7
              "10.0.0.1" [[CallWriteHeader 200]; [CallWriteHeader 200]]
              [CallWriteHeader 200])
    as (_ & Hrejected & _); [lia | lia | reflexivity |].
  exact Hrejected.
Defined.

End Middleware.

(** * The reverse proxy (internal/proxy) *)

Module Proxy.

Section Proxy.

(** [textproto.CanonicalMIMEHeaderKey], by which [Header.Add] files a key. *)
Variable CanonicalMIMEHeaderKey : string -> string.

(** [http.Header] *)
Definition Header := gmap string (list string).

(** The order in which [range] goes through a header map: every entry
    once, in no order one can rely on. *)
Variable rangeOrder : Header -> list (string * list string).
Hypothesis rangeOrder_perm : forall h, rangeOrder h ≡ₚ map_to_list h.

Definition HeaderAdd (h : Header) (key value : string) : Header :=
  let k := CanonicalMIMEHeaderKey key in
  <[k := default [] (h !! k) ++ [value]]> h.

(** The incoming request, as far as [ServeHTTP] reads it. *)
Record Request := mkRequest {
  Method : string;
  URLPath : string;
  RawQuery : string;
  ReqHeader : Header;
  Body : string
}.

(** The request sent to the backend. *)
Record OutRequest := mkOutRequest {
  outMethod : string;
  outURL : string;
  outHeader : Header;
  outBody : string
}.

Record BackendResponse := mkBackendResponse {
  respStatus : Z;
  respHeader : Header;
  respBody : string
}.

(** [http.NewRequestWithContext] refuses a method or a URL it cannot
    parse; [client.Do] fails with [None]. *)
Variable newRequestOk : string -> string -> bool.
Variable Do : OutRequest -> option BackendResponse.

Definition hopByHop : list string :=
  ["Connection"; "Keep-Alive"; "Proxy-Authenticate"; "Proxy-Authorization";
   "Te"; "Trailers"; "Transfer-Encoding"; "Upgrade"]%string.

(** The inner loop [for _, v := range values]. *)
Definition addValues (key : string) (values : list string) (h : Header) : Header :=
  fold_left (fun h v => HeaderAdd h key v) values h.

Definition copyRequestHeaders (src : Header) (dst : Header) : Header :=
  fold_left (fun h kv => if bool_decide (kv.1 ∈ hopByHop) then h
                         else addValues kv.1 kv.2 h)
            (rangeOrder src) dst.

Definition copyResponseHeaders (src : Header) (dst : Header) : Header :=
  fold_left (fun h kv => addValues kv.1 kv.2 h) (rangeOrder src) dst.

(** What the client is sent: the page of [http.Error], or the backend's
    answer with the headers the writer then holds. *)
Inductive ClientResponse :=
| ErrorPage (code : Z) (msg : string)
| Relayed (status : Z) (header : Header) (body : string).

Definition outgoing (url : string) (r : Request) : OutRequest :=
  {| outMethod := Method r;
     outURL := (url ++ URLPath r)%string;
     outHeader := copyRequestHeaders (ReqHeader r) ∅;
     outBody := Body r |}.

(** [ServeHTTP]; [w] holds the headers already set on the response writer. *)
Definition ServeHTTP (url : string) (w : Header) (r : Request) : ClientResponse :=
  let backendURL := (url ++ URLPath r)%string in
  if negb (newRequestOk (Method r) backendURL)
  then ErrorPage 500 "failed to create request"
  else
    match Do (outgoing url r) with
    | None => ErrorPage 502 "bad gateway"
    | Some resp =>
        Relayed (respStatus resp) (copyResponseHeaders (respHeader resp) w)
                (respBody resp)
    end.

(** A header map as a server hands it out: every key in canonical form. *)
Definition canonical (h : Header) : Prop :=
  forall k, is_Some (h !! k) -> CanonicalMIMEHeaderKey k = k.

(** What a copy leaves under a key: the values already there, then the
    source's values, unless the key is skipped. *)
Definition copied (skip : bool) (src old : option (list string)) : option (list string) :=
  match src with
  | Some (v :: vs) => if skip then old else Some (default [] old ++ v :: vs)
  | _ => old
  end.

Lemma addValues_lookup key values : forall (h : Header) k,
  addValues key values h !! k
  = if decide (k = CanonicalMIMEHeaderKey key)
    then copied false (Some values) (h !! k)
    else h !! k.
Proof.
  unfold Header. induction values as [|v vs IH]; intros h k; cbn [addValues fold_left].
  - by destruct (decide _).
  - fold (addValues key vs (HeaderAdd h key v)). rewrite IH.
    unfold HeaderAdd, Header. cbv zeta.
    destruct (decide (k = CanonicalMIMEHeaderKey key)) as [->|Hne].
    + rewrite lookup_insert_eq. cbn [copied default].
      destruct vs as [|v' vs']; [done|]. unfold id. by rewrite <- app_assoc.
    + by rewrite lookup_insert_ne.
Qed.

Lemma copy_lookup (skip : string -> bool) (l : list (string * list string)) :
  forall (dst : Header) k,
  NoDup l.*1 -> (forall kv, kv ∈ l -> CanonicalMIMEHeaderKey kv.1 = kv.1) ->
  fold_left (fun h kv => if skip kv.1 then h else addValues kv.1 kv.2 h) l dst !! k
  = copied (skip k) ((list_to_map l : Header) !! k) (dst !! k).
Proof.
  unfold Header. induction l as [|[k0 vs0] l IH]; intros dst k Hnd Hcanon.
  - cbn. by rewrite lookup_empty.
  - cbn [fold_left fst snd]. apply NoDup_cons in Hnd as [Hnotin Hnd].
    rewrite IH by (try done; intros kv Hkv; apply Hcanon; by right).
    rewrite list_to_map_cons.
    assert (Hk0 : CanonicalMIMEHeaderKey k0 = k0)
      by (apply (Hcanon (k0, vs0)); by left).
    destruct (decide (k = k0)) as [->|Hne].
    + rewrite lookup_insert_eq.
      rewrite (not_elem_of_list_to_map_1 l k0 Hnotin). cbn [copied].
      destruct (skip k0); [by destruct vs0|].
      rewrite addValues_lookup, Hk0, decide_True by done. done.
    + rewrite lookup_insert_ne by done.
      destruct (skip k0); [done|].
      rewrite addValues_lookup, Hk0, decide_False by done. done.
Qed.

Lemma range_lookup (skip : string -> bool) (src dst : Header) k :
  canonical src ->
  fold_left (fun h kv => if skip kv.1 then h else addValues kv.1 kv.2 h)
            (rangeOrder src) dst !! k
  = copied (skip k) (src !! k) (dst !! k).
Proof.
  intros Hcanon. rewrite copy_lookup.
  - unfold Header.
    rewrite (list_to_map_proper _ (map_to_list src));
      [|rewrite rangeOrder_perm; apply NoDup_fst_map_to_list|apply rangeOrder_perm].
    do 2 f_equal. apply list_to_map_to_list.
  - rewrite rangeOrder_perm. apply NoDup_fst_map_to_list.
  - intros [k' vs] Hin. rewrite rangeOrder_perm in Hin.
    apply elem_of_map_to_list in Hin. apply Hcanon. by eexists.
Qed.

(** X29.  What the proxy passes on.  The backend is asked for
    [url + path] (the query string is not part of it) with the client's
    method and body and, when the client's header keys are in canonical
    form, with exactly the client's headers that are not hop-by-hop, each
    with all its values in order, whatever order the map is gone through
    in.  A request that cannot be built is answered 500 and a backend that
    cannot be reached 502.  Otherwise the backend's status and body are
    relayed, and every header of the backend's answer, hop-by-hop ones
    included, is added after what the response already holds. *)
Theorem proxy_forwarding (url : string) (w : Header) (r : Request) :
  outMethod (outgoing url r) = Method r /\
  outURL (outgoing url r) = (url ++ URLPath r)%string /\
  outBody (outgoing url r) = Body r /\
  (canonical (ReqHeader r) ->
   forall k, outHeader (outgoing url r) !! k
             = if bool_decide (k ∈ hopByHop) then None
               else match ReqHeader r !! k with
                    | Some (v :: vs) => Some (v :: vs)
                    | _ => None
                    end) /\
  (newRequestOk (Method r) (url ++ URLPath r)%string = false ->
   ServeHTTP url w r = ErrorPage 500 "failed to create request") /\
  (newRequestOk (Method r) (url ++ URLPath r)%string = true ->
   Do (outgoing url r) = None ->
   ServeHTTP url w r = ErrorPage 502 "bad gateway") /\
  (forall resp,
      newRequestOk (Method r) (url ++ URLPath r)%string = true ->
      Do (outgoing url r) = Some resp ->
      exists header,
        ServeHTTP url w r = Relayed (respStatus resp) header (respBody resp) /\
        (canonical (respHeader resp) ->
         forall k, header !! k
                   = match respHeader resp !! k with
                     | Some (v :: vs) => Some (default [] (w !! k) ++ v :: vs)
                     | _ => w !! k
                     end)).
Proof.
  split; [done|]. split; [done|]. split; [done|]. split; [|split; [|split]].
  - intros Hcanon k. unfold outgoing. cbn [outHeader]. unfold copyRequestHeaders.
    pose proof (range_lookup (fun key => bool_decide (key ∈ hopByHop))
                  (ReqHeader r) ∅ k Hcanon) as H.
    cbv beta in H. rewrite H.
    unfold Header. rewrite lookup_empty. unfold copied.
    destruct (bool_decide (k ∈ hopByHop)); repeat case_match; done.
  - intros Hbad. unfold ServeHTTP. by rewrite Hbad.
  - intros Hok Hdo. unfold ServeHTTP. by rewrite Hok, Hdo.
  - intros resp Hok Hdo. eexists. unfold ServeHTTP. rewrite Hok, Hdo. cbn [negb].
    split; [reflexivity|]. intros Hcanon k. unfold copyResponseHeaders.
    pose proof (range_lookup (fun _ => false) (respHeader resp) w k Hcanon) as H.
    cbv beta iota in H. rewrite H. unfold copied.
    repeat case_match; done.
Qed.

End Proxy.

(** A request with a [Connection] header, sent to a backend that cannot
    be reached. *)
Definition upgradeRequest : Request :=
  {| Method := "GET"; URLPath := "/api/users"; RawQuery := "page=2";
     ReqHeader := {["Connection"%string := ["keep-alive"%string];
                    "Accept"%string := ["text/html"%string; "*/*"%string]]};
     Body := "" |}.

Lemma proxy_forwarding_witness :
  ServeHTTP Routing.canonicalKey map_to_list (fun _ _ => true) (fun _ => None)
            "http://backend:8080" ∅ upgradeRequest
  = ErrorPage 502 "bad gateway" /\
  outURL (outgoing Routing.canonicalKey map_to_list "http://backend:8080" upgradeRequest)
  = "http://backend:8080/api/users"%string.
Proof.
  destruct (proxy_forwarding Routing.canonicalKey map_to_list
              (fun h => reflexivity (map_to_list h))
              (fun _ _ => true) (fun _ => None)
              "http://backend:8080" ∅ upgradeRequest)
    as (_ & Hurl & _ & _ & _ & Hgateway & _).
  split; [apply Hgateway; reflexivity | exact Hurl].
Defined.

End Proxy.
